(** * Spell Chess rules engine: a shallow embedding of [src/lib/gameEngine.ts]

    The engine is a pure state machine: every public operation deep-copies
    its input ([JSON.parse (JSON.stringify s)]) and returns a new state.  In a
    pure model a deep copy is the identity; the places where the source
    mutates an object through an alias (the moved piece, the castling rook,
    the piece found by [findPieceById]) are written as explicit board
    updates.

    JavaScript numbers are modelled by [Z], strings by [string] (the tokens,
    piece types and piece ids of the engine are ASCII), the position
    counter [Record<string, number>] by [gmap string Z]. *)

From stdpp Require Import base option list gmap strings.
From Stdlib Require Import ZArith Ascii String DecimalString Lia.

Local Open Scope string_scope.
Local Open Scope Z_scope.

(** ** JavaScript string primitives used by the engine *)

Module JS.

(** [String.fromCharCode n] for the code units the engine produces. *)
Definition fromCharCode (n : Z) : string :=
  String (ascii_of_N (Z.to_N n)) EmptyString.

(** [s.charCodeAt 0]; the engine only calls it on strings of length 2. *)
Definition charCodeAt0 (s : string) : Z :=
  match s with
  | EmptyString => 0
  | String a _ => Z.of_N (N_of_ascii a)
  end.

(** Decimal rendering of an integer, as a template literal does. *)
Definition ofZ (n : Z) : string := NilZero.string_of_int (Z.to_int n).

Definition lowerAscii (a : ascii) : ascii :=
  let n := N_of_ascii a in
  if ((65 <=? n) && (n <=? 90))%N then ascii_of_N (n + 32) else a.

Definition upperAscii (a : ascii) : ascii :=
  let n := N_of_ascii a in
  if ((97 <=? n) && (n <=? 122))%N then ascii_of_N (n - 32) else a.

Fixpoint toLowerCase (s : string) : string :=
  match s with
  | EmptyString => EmptyString
  | String a s' => String (lowerAscii a) (toLowerCase s')
  end.

Fixpoint toUpperCase (s : string) : string :=
  match s with
  | EmptyString => EmptyString
  | String a s' => String (upperAscii a) (toUpperCase s')
  end.

(** [s.includes ch] for a one-character needle. *)
Fixpoint includes (ch : ascii) (s : string) : bool :=
  match s with
  | EmptyString => false
  | String a s' => if Ascii.eqb a ch then true else includes ch s'
  end.

(** [s.split ch] for a one-character separator: never empty, the empty
    string splits into one empty field. *)
Fixpoint split (ch : ascii) (s : string) : list string :=
  match s with
  | EmptyString => [EmptyString]
  | String a s' =>
      if Ascii.eqb a ch then EmptyString :: split ch s'
      else match split ch s' with
           | [] => [String a EmptyString]
           | f :: fs => String a f :: fs
           end
  end.

(** [s.charAt 0]: the empty string when [s] is empty. *)
Definition charAt0 (s : string) : string :=
  match s with
  | EmptyString => EmptyString
  | String a _ => String a EmptyString
  end.

(** [s.slice 1]. *)
Definition slice1 (s : string) : string :=
  match s with
  | EmptyString => EmptyString
  | String _ s' => s'
  end.

(** [s.substring (0, 2)]. *)
Definition substring02 (s : string) : string :=
  match s with
  | String a (String b _) => String a (String b EmptyString)
  | _ => s
  end.

(** [parseInt (ch, 10)] of a one-character string: [None] stands for NaN. *)
Definition parseDigit (a : ascii) : option Z :=
  let n := N_of_ascii a in
  if ((48 <=? n) && (n <=? 57))%N then Some (Z.of_N (n - 48)) else None.

(** Truthiness of a string: the empty string is falsy. *)
Definition truthy (s : string) : bool :=
  match s with EmptyString => false | _ => true end.

(** [arr.join sep]. *)
Fixpoint join (sep : string) (l : list string) : string :=
  match l with
  | [] => EmptyString
  | [x] => x
  | x :: rest => x +:+ sep +:+ join sep rest
  end.

(** [Math.sign]. *)
Definition sign (n : Z) : Z := Z.sgn n.

End JS.

(** ** Data model ([types.ts]) *)

Inductive Color := white | black.

Definition colorName (c : Color) : string :=
  match c with white => "white" | black => "black" end.

Definition Color_eqb (a b : Color) : bool :=
  match a, b with
  | white, white | black, black => true
  | _, _ => false
  end.

(** [player === "white" ? "black" : "white"]. *)
Definition opponent (c : Color) : Color :=
  match c with white => black | black => white end.

(** [player.charAt(0).toUpperCase() + player.slice(1)]. *)
Definition capitalized (c : Color) : string :=
  JS.toUpperCase (JS.charAt0 (colorName c)) +:+ JS.slice1 (colorName c).

Record Piece := mkPiece {
  p_type : string;
  p_color : Color;
  p_id : string;
  p_isFrozen : bool;
  p_isJumpable : bool;
  p_hasMoved : bool
}.

Record Square := mkSquare { sq_r : Z; sq_c : Z }.

Record SpellState := mkSpellState {
  jump : Z;
  freeze : Z;
  jumpLastUsedTurn : Z;
  freezeLastUsedTurn : Z
}.

(** The two values of [spellType: "jump" | "freeze"]. *)
Inductive SpellType := jumpSpell | freezeSpell.

Definition spellTypeName (t : SpellType) : string :=
  match t with jumpSpell => "jump" | freezeSpell => "freeze" end.

(** [ActiveSpell]: the engine only ever builds the two shapes below, a jump
    with [targetId] or a freeze with [targetSquare] and [affectedPieceIds]. *)
Inductive ActiveSpell :=
| ActiveJump (targetId : string) (expiresAtPly : Z)
| ActiveFreeze (targetSquare : Square) (affectedPieceIds : list string)
    (expiresAtPly : Z).

Definition expiresAtPly (s : ActiveSpell) : Z :=
  match s with
  | ActiveJump _ e => e
  | ActiveFreeze _ _ e => e
  end.

Record MoveLogEntry := mkMoveLogEntry {
  turn : Z;
  player : Color;
  notation : string;
  actions : list string;
  plySnapshotIndex : Z
}.

Record CastlingRights := mkCastlingRights {
  white_K : bool;
  white_Q : bool;
  black_k : bool;
  black_q : bool
}.

Record AwaitingPromotion := mkAwaitingPromotion {
  ap_r : Z;
  ap_c : Z;
  ap_color : Color;
  originalMoveNotation : string;
  movingPiece : Piece;
  ap_fromR : Z;
  ap_fromC : Z
}.

Record Spells := mkSpells { spells_white : SpellState; spells_black : SpellState }.

(** [state.spells[color]]. *)
Definition spellsOf (s : Spells) (c : Color) : SpellState :=
  match c with white => spells_white s | black => spells_black s end.

Definition setSpellsOf (s : Spells) (c : Color) (ps : SpellState) : Spells :=
  match c with
  | white => mkSpells ps (spells_black s)
  | black => mkSpells (spells_white s) ps
  end.

Abbreviation Board := (list (list (option Piece))).

(** [GameSnapshot = Omit<GameState, "history" | "repetitionCounter">]: the
    twelve fields every function of the engine reads. *)
Record GameSnapshot := mkSnapshot {
  board : Board;
  currentPlayer : Color;
  gameTurnNumber : Z;
  plyCount : Z;
  spells : Spells;
  activeSpells : list ActiveSpell;
  moveLog : list MoveLogEntry;
  enPassantTarget : option Square;
  castlingRights : CastlingRights;
  isGameOver : bool;
  gameEndMessage : string;
  awaitingPromotion : option AwaitingPromotion
}.

(** [GameState]: the snapshot fields plus the two bookkeeping fields. *)
Record GameState := mkState {
  cur : GameSnapshot;
  history : list GameSnapshot;
  repetitionCounter : gmap string Z
}.

(** Field assignments [ns.f = v]. *)
Definition set_board v (s : GameSnapshot) : GameSnapshot :=
  mkSnapshot v (currentPlayer s) (gameTurnNumber s) (plyCount s) (spells s)
    (activeSpells s) (moveLog s) (enPassantTarget s) (castlingRights s)
    (isGameOver s) (gameEndMessage s) (awaitingPromotion s).
Definition set_currentPlayer v (s : GameSnapshot) : GameSnapshot :=
  mkSnapshot (board s) v (gameTurnNumber s) (plyCount s) (spells s)
    (activeSpells s) (moveLog s) (enPassantTarget s) (castlingRights s)
    (isGameOver s) (gameEndMessage s) (awaitingPromotion s).
Definition set_gameTurnNumber v (s : GameSnapshot) : GameSnapshot :=
  mkSnapshot (board s) (currentPlayer s) v (plyCount s) (spells s)
    (activeSpells s) (moveLog s) (enPassantTarget s) (castlingRights s)
    (isGameOver s) (gameEndMessage s) (awaitingPromotion s).
Definition set_plyCount v (s : GameSnapshot) : GameSnapshot :=
  mkSnapshot (board s) (currentPlayer s) (gameTurnNumber s) v (spells s)
    (activeSpells s) (moveLog s) (enPassantTarget s) (castlingRights s)
    (isGameOver s) (gameEndMessage s) (awaitingPromotion s).
Definition set_spells v (s : GameSnapshot) : GameSnapshot :=
  mkSnapshot (board s) (currentPlayer s) (gameTurnNumber s) (plyCount s) v
    (activeSpells s) (moveLog s) (enPassantTarget s) (castlingRights s)
    (isGameOver s) (gameEndMessage s) (awaitingPromotion s).
Definition set_activeSpells v (s : GameSnapshot) : GameSnapshot :=
  mkSnapshot (board s) (currentPlayer s) (gameTurnNumber s) (plyCount s)
    (spells s) v (moveLog s) (enPassantTarget s) (castlingRights s)
    (isGameOver s) (gameEndMessage s) (awaitingPromotion s).
Definition set_moveLog v (s : GameSnapshot) : GameSnapshot :=
  mkSnapshot (board s) (currentPlayer s) (gameTurnNumber s) (plyCount s)
    (spells s) (activeSpells s) v (enPassantTarget s) (castlingRights s)
    (isGameOver s) (gameEndMessage s) (awaitingPromotion s).
Definition set_enPassantTarget v (s : GameSnapshot) : GameSnapshot :=
  mkSnapshot (board s) (currentPlayer s) (gameTurnNumber s) (plyCount s)
    (spells s) (activeSpells s) (moveLog s) v (castlingRights s)
    (isGameOver s) (gameEndMessage s) (awaitingPromotion s).
Definition set_castlingRights v (s : GameSnapshot) : GameSnapshot :=
  mkSnapshot (board s) (currentPlayer s) (gameTurnNumber s) (plyCount s)
    (spells s) (activeSpells s) (moveLog s) (enPassantTarget s) v
    (isGameOver s) (gameEndMessage s) (awaitingPromotion s).
Definition set_isGameOver v (s : GameSnapshot) : GameSnapshot :=
  mkSnapshot (board s) (currentPlayer s) (gameTurnNumber s) (plyCount s)
    (spells s) (activeSpells s) (moveLog s) (enPassantTarget s)
    (castlingRights s) v (gameEndMessage s) (awaitingPromotion s).
Definition set_gameEndMessage v (s : GameSnapshot) : GameSnapshot :=
  mkSnapshot (board s) (currentPlayer s) (gameTurnNumber s) (plyCount s)
    (spells s) (activeSpells s) (moveLog s) (enPassantTarget s)
    (castlingRights s) (isGameOver s) v (awaitingPromotion s).
Definition set_awaitingPromotion v (s : GameSnapshot) : GameSnapshot :=
  mkSnapshot (board s) (currentPlayer s) (gameTurnNumber s) (plyCount s)
    (spells s) (activeSpells s) (moveLog s) (enPassantTarget s)
    (castlingRights s) (isGameOver s) (gameEndMessage s) v.

(** Assignment to a snapshot field of a full state. *)
Definition with_cur (f : GameSnapshot -> GameSnapshot) (st : GameState)
  : GameState :=
  mkState (f (cur st)) (history st) (repetitionCounter st).

(** ** Board access *)

(** [board[r][c]], with [undefined] read as [null].  Reading a column out of
    range gives [undefined] in the source as well; a row out of range would
    throw there, and is never read when the arguments of the public
    operations are board squares. *)
Definition cell (b : Board) (r c : Z) : option Piece :=
  if (0 <=? r) && (0 <=? c) then
    match b !! Z.to_nat r with
    | Some row =>
        match row !! Z.to_nat c with
        | Some p => p
        | None => None
        end
    | None => None
    end
  else None.

(** [board[r][c] = v] for a square of the board. *)
Definition setCell (b : Board) (r c : Z) (v : option Piece) : Board :=
  if (0 <=? r) && (0 <=? c) then
    alter (fun row => <[Z.to_nat c := v]> row) (Z.to_nat r) b
  else b.

(** The index range of [for (let r = 0; r < 8; r++)]. *)
Definition range8 : list Z := [0; 1; 2; 3; 4; 5; 6; 7].

(** The squares in the order of the nested loops over [r] then [c]. *)
Definition squares : list (Z * Z) :=
  r ← range8; c ← range8; [(r, c)].

(** A loop that returns [true] at the first element satisfying [f]. *)
Fixpoint anyb {A} (f : A -> bool) (l : list A) : bool :=
  match l with
  | [] => false
  | x :: l' => if f x then true else anyb f l'
  end.

(** A loop that stops at the first element satisfying [f]. *)
Fixpoint firstb {A} (f : A -> bool) (l : list A) : option A :=
  match l with
  | [] => None
  | x :: l' => if f x then Some x else firstb f l'
  end.

(** [p.type.toLowerCase()]. *)
Definition lowerType (p : Piece) : string := JS.toLowerCase (p_type p).

Definition set_isJumpable (v : bool) (p : Piece) : Piece :=
  mkPiece (p_type p) (p_color p) (p_id p) (p_isFrozen p) v (p_hasMoved p).
Definition set_hasMoved (v : bool) (p : Piece) : Piece :=
  mkPiece (p_type p) (p_color p) (p_id p) (p_isFrozen p) (p_isJumpable p) v.
Definition set_type (v : string) (p : Piece) : Piece :=
  mkPiece v (p_color p) (p_id p) (p_isFrozen p) (p_isJumpable p) (p_hasMoved p).

(** ** Constants and initialization *)

Definition INITIAL_BOARD_SETUP : list (list (option string)) :=
  [ [Some "r"; Some "n"; Some "b"; Some "q"; Some "k"; Some "b"; Some "n"; Some "r"];
    [Some "p"; Some "p"; Some "p"; Some "p"; Some "p"; Some "p"; Some "p"; Some "p"];
    [None; None; None; None; None; None; None; None];
    [None; None; None; None; None; None; None; None];
    [None; None; None; None; None; None; None; None];
    [None; None; None; None; None; None; None; None];
    [Some "P"; Some "P"; Some "P"; Some "P"; Some "P"; Some "P"; Some "P"; Some "P"];
    [Some "R"; Some "N"; Some "B"; Some "Q"; Some "K"; Some "B"; Some "N"; Some "R"] ].

Definition SPELL_COOLDOWN_TURNS : Z := 3.

(** [newPieceId r c] with the module counter [_pieceIdSeq] made explicit:
    [seq] is the value of the counter after its increment. *)
Definition newPieceId (r c seq : Z) : string :=
  "p-" +:+ JS.ofZ r +:+ "-" +:+ JS.ofZ c +:+ "-" +:+ JS.ofZ seq.

(** One row of [INITIAL_BOARD_SETUP.map], threading the id counter. *)
Fixpoint initialRow (r c : Z) (row : list (option string)) (seq : Z)
  : list (option Piece) * Z :=
  match row with
  | [] => ([], seq)
  | None :: rest =>
      let '(cells, seq') := initialRow r (c + 1) rest seq in
      (None :: cells, seq')
  | Some t :: rest =>
      let p := mkPiece t
                 (if String.eqb t (JS.toUpperCase t) then white else black)
                 (newPieceId r c (seq + 1)) false false false in
      let '(cells, seq') := initialRow r (c + 1) rest (seq + 1) in
      (Some p :: cells, seq')
  end.

Fixpoint initialRows (r : Z) (rows : list (list (option string))) (seq : Z)
  : Board * Z :=
  match rows with
  | [] => ([], seq)
  | row :: rest =>
      let '(cells, seq') := initialRow r 0 row seq in
      let '(b, seq'') := initialRows (r + 1) rest seq' in
      (cells :: b, seq'')
  end.

(** ** Deep copy helpers *)

(** [JSON.parse (JSON.stringify s)] is the identity on values. *)
Definition deepCopyState (s : GameState) : GameState := s.

(** The twelve copied fields are exactly [cur]. *)
Definition createSnapshot (s : GameState) : GameSnapshot := cur s.

(** ** Coordinate helpers *)

Definition algebraicFromCoords (r c : Z) : string :=
  JS.fromCharCode (97 + c) +:+ JS.ofZ (8 - r).

Definition parseAlgebraicToCoords (alg : string) : option Square :=
  match alg with
  | String a (String d EmptyString) =>
      let file := Z.of_N (N_of_ascii a) - 97 in
      match JS.parseDigit d with
      | None => None
      | Some n =>
          let rank := 8 - n in
          if (file <? 0) || (file >? 7) || (rank <? 0) || (rank >? 7)
          then None
          else Some (mkSquare rank file)
      end
  | _ => None
  end.

(** ** Spell helpers *)

Definition isSpellOnCooldown (spellState : SpellState) (spellType : SpellType)
    (currentTurn : Z) : bool :=
  let lastUsed :=
    match spellType with
    | jumpSpell => jumpLastUsedTurn spellState
    | freezeSpell => freezeLastUsedTurn spellState
    end in
  if lastUsed =? 0 then false
  else currentTurn <? lastUsed + SPELL_COOLDOWN_TURNS.

Definition canCastSpell (state : GameState) (spellType : SpellType) : bool :=
  let ps := spellsOf (spells (cur state)) (currentPlayer (cur state)) in
  let count := match spellType with jumpSpell => jump ps | freezeSpell => freeze ps end in
  if count <=? 0 then false
  else negb (isSpellOnCooldown ps spellType (gameTurnNumber (cur state))).

Fixpoint isSquareUnderActiveFreeze (sqR sqC : Z)
    (activeSpells : list ActiveSpell) (currentPly : Z) : bool :=
  match activeSpells with
  | [] => false
  | ActiveFreeze target _ expires :: rest =>
      let cr := sq_r target in
      let cc := sq_c target in
      if (currentPly <? expires)
         && (sqR >=? Z.max 0 (cr - 1)) && (sqR <=? Z.min 7 (cr + 1))
         && (sqC >=? Z.max 0 (cc - 1)) && (sqC <=? Z.min 7 (cc + 1))
      then true
      else isSquareUnderActiveFreeze sqR sqC rest currentPly
  | ActiveJump _ _ :: rest => isSquareUnderActiveFreeze sqR sqC rest currentPly
  end.

(** The square of the first piece, in loop order, whose id is [id]. *)
Definition findSquareById (b : Board) (id : string) : option (Z * Z) :=
  firstb (fun '(r, c) =>
            match cell b r c with
            | Some p => String.eqb (p_id p) id
            | None => false
            end) squares.

Definition findPieceById (b : Board) (id : string) : option Piece :=
  match findSquareById b id with
  | Some (r, c) => cell b r c
  | None => None
  end.

(** [const p = findPieceById (ns.board, id); if (p) p.isJumpable = false]:
    the assignment goes through the reference into the board. *)
Definition clearJumpable (b : Board) (id : string) : Board :=
  match findSquareById b id with
  | Some (r, c) =>
      match cell b r c with
      | Some p => setCell b r c (Some (set_isJumpable false p))
      | None => b
      end
  | None => b
  end.

(** The loop of [updateActiveSpells]: returns the board and the list
    [still]. *)
Fixpoint updateActiveSpells_loop (ply : Z) (spells : list ActiveSpell)
    (b : Board) : Board * list ActiveSpell :=
  match spells with
  | [] => (b, [])
  | spell :: rest =>
      if ply >=? expiresAtPly spell then
        let b' :=
          match spell with
          | ActiveJump targetId _ =>
              if JS.truthy targetId then clearJumpable b targetId else b
          | ActiveFreeze _ _ _ => b
          end in
        updateActiveSpells_loop ply rest b'
      else
        let '(b', still) := updateActiveSpells_loop ply rest b in
        (b', spell :: still)
  end.

Definition updateActiveSpells (state : GameState) : GameState :=
  let ns := deepCopyState state in
  let '(b, still) :=
    updateActiveSpells_loop (plyCount (cur ns)) (activeSpells (cur ns))
      (board (cur ns)) in
  with_cur (fun s => set_activeSpells still (set_board b s)) ns.

(** ** Move validation *)

(** The [while] loop of [isPathClear].  From a board square the loop leaves
    the board after at most eight steps, so nine iterations are enough
    (see [isPathClear_loop_fuel]). *)
Fixpoint isPathClear_loop (fuel : nat) (r c dr dc toR toC : Z) (b : Board)
  : bool :=
  match fuel with
  | O => false
  | S fuel' =>
      if negb ((r =? toR) && (c =? toC)) then
        if (r <? 0) || (r >=? 8) || (c <? 0) || (c >=? 8) then false
        else
          match cell b r c with
          | Some p =>
              if negb (p_isJumpable p) then false
              else isPathClear_loop fuel' (r + dr) (c + dc) dr dc toR toC b
          | None => isPathClear_loop fuel' (r + dr) (c + dc) dr dc toR toC b
          end
      else true
  end.

Definition isPathClear (fromR fromC toR toC : Z) (b : Board) : bool :=
  let dr := JS.sign (toR - fromR) in
  let dc := JS.sign (toC - fromC) in
  isPathClear_loop 9 (fromR + dr) (fromC + dc) dr dc toR toC b.

(** The attack test made on a piece of the attacker standing on [(r, c)];
    [isSquareAttacked] and [getAttackers] spell out the same cases. *)
Definition attacksSquare (piece : Piece) (r c targetR targetC : Z)
    (attackerColor : Color) (b : Board) : bool :=
  let t := lowerType piece in
  if String.eqb t "p" then
    let dir := match attackerColor with white => -1 | black => 1 end in
    (r + dir =? targetR) && (Z.abs (c - targetC) =? 1)
  else if String.eqb t "n" then
    let dr := Z.abs (targetR - r) in
    let dc := Z.abs (targetC - c) in
    ((dr =? 2) && (dc =? 1)) || ((dr =? 1) && (dc =? 2))
  else if String.eqb t "k" then
    (Z.abs (targetR - r) <=? 1) && (Z.abs (targetC - c) <=? 1)
  else
    if (String.eqb t "r" || String.eqb t "q")
       && ((r =? targetR) || (c =? targetC))
       && isPathClear r c targetR targetC b
    then true
    else
      (String.eqb t "b" || String.eqb t "q")
      && (Z.abs (targetR - r) =? Z.abs (targetC - c))
      && isPathClear r c targetR targetC b.

(** The body of the loops of [isSquareAttacked] and [getAttackers] for one
    square: skip empty squares, pieces of the other colour and frozen
    pieces other than kings, then test the attack. *)
Definition attackerAt (targetR targetC : Z) (attackerColor : Color)
    (b : Board) (activeSpells : list ActiveSpell) (currentPly : Z)
    (rc : Z * Z) : bool :=
  let '(r, c) := rc in
  match cell b r c with
  | None => false
  | Some piece =>
      if negb (Color_eqb (p_color piece) attackerColor) then false
      else
        let frozen :=
          p_isFrozen piece
          || isSquareUnderActiveFreeze r c activeSpells currentPly in
        if frozen && negb (String.eqb (lowerType piece) "k") then false
        else attacksSquare piece r c targetR targetC attackerColor b
  end.

Definition isSquareAttacked (targetR targetC : Z) (attackerColor : Color)
    (b : Board) (enPassantTarget : option Square)
    (activeSpells : list ActiveSpell) (currentPly : Z) : bool :=
  anyb (attackerAt targetR targetC attackerColor b activeSpells currentPly)
    squares.

(** The search for the first square holding a piece whose type is exactly
    [kingType]. *)
Definition findKing (kingType : string) (b : Board) : option (Z * Z) :=
  firstb (fun '(r, c) =>
            match cell b r c with
            | Some p => String.eqb (p_type p) kingType
            | None => false
            end) squares.

Definition kingTypeOf (c : Color) : string :=
  match c with white => "K" | black => "k" end.

Definition isKingInCheck (kingColor : Color) (b : Board)
    (enPassantTarget : option Square) (activeSpells : list ActiveSpell)
    (currentPly : Z) : bool :=
  let kingType := kingTypeOf kingColor in
  let attackerColor := opponent kingColor in
  match findKing kingType b with
  | None => false
  | Some (kr, kc) =>
      isSquareAttacked kr kc attackerColor b enPassantTarget activeSpells
        currentPly
  end.

(** [getAttackers]: the attackers of a square with their squares, in loop
    order. *)
Definition getAttackers (targetR targetC : Z) (attackerColor : Color)
    (b : Board) (enPassantTarget : option Square)
    (activeSpells : list ActiveSpell) (currentPly : Z) : list (Z * Z) :=
  filter (fun rc => attackerAt targetR targetC attackerColor b activeSpells
                      currentPly rc = true) squares.

Definition isSome {A} (o : option A) : bool :=
  match o with Some _ => true | None => false end.

Definition checkCastleConditions (kingFromR kingFromC kingToR kingToC : Z)
    (b : Board) (player : Color) (castlingRights : CastlingRights)
    (activeSpells : list ActiveSpell) (currentPly : Z)
    (enPassantTarget : option Square) : bool :=
  match cell b kingFromR kingFromC with
  | None => false
  | Some king =>
      if p_hasMoved king then false
      else if isKingInCheck player b enPassantTarget activeSpells currentPly
      then false
      else
        let opp := opponent player in
        let kingside := kingToC >? kingFromC in
        let rookOk (rook : option Piece) : bool :=
          match rook with
          | None => false
          | Some rk =>
              negb (negb (String.eqb (lowerType rk) "r") || p_hasMoved rk)
          end in
        let attacked (c : Z) : bool :=
          isSquareAttacked kingFromR c opp b enPassantTarget activeSpells
            currentPly in
        if kingside then
          if match player with
             | white => negb (white_K castlingRights)
             | black => negb (black_k castlingRights)
             end
          then false
          else if negb (rookOk (cell b kingFromR 7)) then false
          else if isSome (cell b kingFromR (kingFromC + 1))
                  || isSome (cell b kingFromR (kingFromC + 2))
          then false
          else if (if attacked (kingFromC + 1) then true
                   else attacked (kingFromC + 2))
          then false
          else true
        else
          if match player with
             | white => negb (white_Q castlingRights)
             | black => negb (black_q castlingRights)
             end
          then false
          else if negb (rookOk (cell b kingFromR 0)) then false
          else if isSome (cell b kingFromR (kingFromC - 1))
                  || isSome (cell b kingFromR (kingFromC - 2))
                  || isSome (cell b kingFromR (kingFromC - 3))
          then false
          else if (if attacked (kingFromC - 1) then true
                   else attacked (kingFromC - 2))
          then false
          else true
  end.

(** The piece geometry of [isValidMove] (the [switch] on the lower-cased
    type), given the moving piece and the content of the target square. *)
Definition geometryValid (moving : Piece) (target : option Piece)
    (fromR fromC toR toC : Z) (b : Board) (enPassantTarget : option Square)
  : bool :=
  let t := lowerType moving in
  if String.eqb t "p" then
    let dir := match p_color moving with white => -1 | black => 1 end in
    if (toR =? fromR + dir) && (toC =? fromC) && negb (isSome target) then true
    else if (toR =? fromR + 2 * dir) && (toC =? fromC)
            && negb (p_hasMoved moving) && negb (isSome target)
    then
      match cell b (fromR + dir) fromC with
      | None => true
      | Some mid => p_isJumpable mid
      end
    else if (toR =? fromR + dir) && (Z.abs (toC - fromC) =? 1)
            && match target with
               | Some tp => negb (Color_eqb (p_color tp) (p_color moving))
               | None => false
               end
    then true
    else if (toR =? fromR + dir) && (Z.abs (toC - fromC) =? 1)
            && negb (isSome target)
            && match enPassantTarget with
               | Some ep => (toR =? sq_r ep) && (toC =? sq_c ep)
               | None => false
               end
    then
      match cell b fromR toC with
      | Some epPawn =>
          String.eqb (lowerType epPawn) "p"
          && negb (Color_eqb (p_color epPawn) (p_color moving))
      | None => false
      end
    else false
  else if String.eqb t "n" then
    let dr := Z.abs (toR - fromR) in
    let dc := Z.abs (toC - fromC) in
    ((dr =? 2) && (dc =? 1)) || ((dr =? 1) && (dc =? 2))
  else if String.eqb t "b" then
    (Z.abs (toR - fromR) =? Z.abs (toC - fromC))
    && isPathClear fromR fromC toR toC b
  else if String.eqb t "r" then
    ((fromR =? toR) || (fromC =? toC)) && isPathClear fromR fromC toR toC b
  else if String.eqb t "q" then
    (((fromR =? toR) || (fromC =? toC))
     || (Z.abs (toR - fromR) =? Z.abs (toC - fromC)))
    && isPathClear fromR fromC toR toC b
  else if String.eqb t "k" then
    let dr := Z.abs (toR - fromR) in
    let dc := Z.abs (toC - fromC) in
    (dr <=? 1) && (dc <=? 1)
  else false.

(** The scratch board [tmp] on which [isValidMove] simulates the move. *)
Definition simulateMove (moving : Piece) (target : option Piece)
    (fromR fromC toR toC : Z) (b : Board) (enPassantTarget : option Square)
  : Board :=
  let tmp := setCell b toR toC (cell b fromR fromC) in
  let tmp := setCell tmp fromR fromC None in
  if String.eqb (lowerType moving) "p"
     && match enPassantTarget with
        | Some ep => (toR =? sq_r ep) && (toC =? sq_c ep)
        | None => false
        end
     && negb (isSome target)
  then setCell tmp fromR toC None
  else tmp.

Definition isValidMove (fromR fromC toR toC : Z) (b : Board)
    (currentPlayer : Color) (enPassantTarget : option Square)
    (castlingRights : CastlingRights) (activeSpells : list ActiveSpell)
    (currentPly : Z) : bool :=
  match cell b fromR fromC with
  | None => false
  | Some moving =>
      if negb (Color_eqb (p_color moving) currentPlayer) then false
      else
        let frozen :=
          p_isFrozen moving
          || isSquareUnderActiveFreeze fromR fromC activeSpells currentPly in
        if frozen then false
        else if (fromR =? toR) && (fromC =? toC) then false
        else
          let target := cell b toR toC in
          if match target with
             | Some tp => Color_eqb (p_color tp) (p_color moving)
             | None => false
             end
          then false
          else
            let t := lowerType moving in
            if String.eqb t "k" && (Z.abs (toC - fromC) =? 2)
               && (fromR =? toR)
            then
              checkCastleConditions fromR fromC toR toC b currentPlayer
                castlingRights activeSpells currentPly enPassantTarget
            else
              let valid :=
                geometryValid moving target fromR fromC toR toC b
                  enPassantTarget in
              if negb valid then false
              else if match target with
                      | Some tp => String.eqb (lowerType tp) "k"
                      | None => false
                      end
              then true
              else
                let tmp :=
                  simulateMove moving target fromR fromC toR toC b
                    enPassantTarget in
                let kingType := kingTypeOf currentPlayer in
                match findKing kingType tmp with
                | None => true
                | Some (kr, kc) =>
                    let opp := opponent currentPlayer in
                    negb (isSquareAttacked kr kc opp tmp None activeSpells
                            currentPly)
                end
  end.

(** [isValidMove] on the fields of a state. *)
Definition isValidMoveIn (s : GameSnapshot) (player : Color)
    (fromR fromC toR toC : Z) : bool :=
  isValidMove fromR fromC toR toC (board s) player (enPassantTarget s)
    (castlingRights s) (activeSpells s) (plyCount s).

Definition getValidMovesForPiece (r c : Z) (state : GameState)
  : list (Z * Z * Z * Z) :=
  omap (fun '(toR, toC) =>
          if isValidMoveIn (cur state) (currentPlayer (cur state)) r c toR toC
          then Some (r, c, toR, toC) else None) squares.

(** Part 1 of [hasLegalMoves]: some piece of the player that is not frozen
    has a valid move. *)
Definition hasStandardMove (playerColor : Color) (s : GameSnapshot) : bool :=
  anyb (fun '(r, c) =>
          match cell (board s) r c with
          | None => false
          | Some piece =>
              if negb (Color_eqb (p_color piece) playerColor) then false
              else if p_isFrozen piece
                      || isSquareUnderActiveFreeze r c (activeSpells s)
                           (plyCount s)
              then false
              else
                anyb (fun '(toR, toC) =>
                        isValidMoveIn s playerColor r c toR toC) squares
          end) squares.

(** The jump escape of [hasLegalMoves] for the single attacker on
    [(ar, ac)]: some piece made jumpable lets a piece of the player move
    onto the attacker's square. *)
Definition jumpEscape (playerColor : Color) (s : GameSnapshot) (ar ac : Z)
  : bool :=
  anyb (fun '(jr, jc) =>
          match cell (board s) jr jc with
          | None => false
          | Some jp =>
              let tmp :=
                setCell (board s) jr jc (Some (set_isJumpable true jp)) in
              anyb (fun '(mr, mc) =>
                      match cell tmp mr mc with
                      | Some mp =>
                          Color_eqb (p_color mp) playerColor
                          && isValidMove mr mc ar ac tmp playerColor
                               (enPassantTarget s) (castlingRights s)
                               (activeSpells s) (plyCount s)
                      | None => false
                      end) squares
          end) squares.

Definition hasLegalMoves (playerColor : Color) (state : GameState) : bool :=
  let s := cur state in
  let ps := spellsOf (spells s) playerColor in
  if hasStandardMove playerColor s then true
  else if negb (isKingInCheck playerColor (board s) (enPassantTarget s)
                  (activeSpells s) (plyCount s))
  then false
  else
    let canFreeze :=
      (freeze ps >? 0)
      && ((freezeLastUsedTurn ps =? 0)
          || (gameTurnNumber s >=? freezeLastUsedTurn ps + SPELL_COOLDOWN_TURNS)) in
    let canJump :=
      (jump ps >? 0)
      && ((jumpLastUsedTurn ps =? 0)
          || (gameTurnNumber s >=? jumpLastUsedTurn ps + SPELL_COOLDOWN_TURNS)) in
    if negb canFreeze && negb canJump then false
    else if canFreeze then true
    else if canJump then
      let opp := opponent playerColor in
      let kingType := kingTypeOf playerColor in
      match findKing kingType (board s) with
      | None => true
      | Some (kr, kc) =>
          let attackers :=
            getAttackers kr kc opp (board s) (enPassantTarget s)
              (activeSpells s) (plyCount s) in
          match attackers with
          | [] => false
          | [(ar, ac)] => jumpEscape playerColor s ar ac
          | _ :: _ :: _ => false
          end
      end
    else false.

(** ** Threefold-repetition state signature *)

(** The double-quote character of [JSON.stringify]. *)
Definition dq : string := String (ascii_of_N 34) EmptyString.

Definition jsonBool (b : bool) : string := if b then "true" else "false".

(** [JSON.stringify (castlingRights)]; the keys keep their creation order. *)
Definition jsonCastlingRights (cr : CastlingRights) : string :=
  "{" +:+ dq +:+ "white" +:+ dq +:+ ":{"
  +:+ dq +:+ "K" +:+ dq +:+ ":" +:+ jsonBool (white_K cr) +:+ ","
  +:+ dq +:+ "Q" +:+ dq +:+ ":" +:+ jsonBool (white_Q cr) +:+ "},"
  +:+ dq +:+ "black" +:+ dq +:+ ":{"
  +:+ dq +:+ "k" +:+ dq +:+ ":" +:+ jsonBool (black_k cr) +:+ ","
  +:+ dq +:+ "q" +:+ dq +:+ ":" +:+ jsonBool (black_q cr) +:+ "}}".

(** [JSON.stringify (enPassantTarget)]. *)
Definition jsonSquare (sq : option Square) : string :=
  match sq with
  | None => "null"
  | Some s =>
      "{" +:+ dq +:+ "r" +:+ dq +:+ ":" +:+ JS.ofZ (sq_r s) +:+ ","
      +:+ dq +:+ "c" +:+ dq +:+ ":" +:+ JS.ofZ (sq_c s) +:+ "}"
  end.

Definition generateStateSignature (s : GameSnapshot) : string :=
  let boardStr :=
    JS.join "/"
      (map (fun row =>
              JS.join ""
                (map (fun p : option Piece =>
                        match p with
                        | None => " "
                        | Some p => p_type p +:+ (if p_isJumpable p then "*" else "")
                        end) row))
         (board s)) in
  let ws := spells_white (spells s) in
  let bs := spells_black (spells s) in
  let cooldowns :=
    JS.ofZ (jumpLastUsedTurn ws) +:+ "," +:+ JS.ofZ (freezeLastUsedTurn ws)
    +:+ "," +:+ JS.ofZ (jumpLastUsedTurn bs) +:+ ","
    +:+ JS.ofZ (freezeLastUsedTurn bs) in
  boardStr +:+ "|" +:+ colorName (currentPlayer s) +:+ "|"
  +:+ jsonCastlingRights (castlingRights s) +:+ "|"
  +:+ jsonSquare (enPassantTarget s) +:+ "|" +:+ cooldowns.

Definition createInitialGameState (seq : Z) : GameState :=
  let '(b, _) := initialRows 0 INITIAL_BOARD_SETUP seq in
  let s :=
    mkSnapshot b white 1 0
      (mkSpells (mkSpellState 2 5 0 0) (mkSpellState 2 5 0 0))
      [] [] None (mkCastlingRights true true true true) false "" None in
  let state := mkState s [] ∅ in
  let snap := createSnapshot state in
  let sig := generateStateSignature snap in
  mkState s [snap] (<[sig := 1]> ∅).

(** ** Move notation *)

Definition generateMoveNotation (state : GameState) (piece : Piece)
    (fromR fromC toR toC : Z) (capturedPiece : option Piece)
    (isEnPassant : bool) : string :=
  let pieceTypeUpper := JS.toUpperCase (p_type piece) in
  let toAlg := algebraicFromCoords toR toC in
  if String.eqb pieceTypeUpper "P" then
    if isSome capturedPiece || isEnPassant
    then JS.fromCharCode (97 + fromC) +:+ "x" +:+ toAlg
    else toAlg
  else
    let s := cur state in
    let competitors :=
      filter (fun '(r, c) =>
                (if (r =? fromR) && (c =? fromC) then false
                 else
                   match cell (board s) r c with
                   | Some p =>
                       Color_eqb (p_color p) (p_color piece)
                       && String.eqb (p_type p) (p_type piece)
                       && isValidMoveIn s (currentPlayer s) r c toR toC
                   | None => false
                   end) = true) squares in
    let disambiguation :=
      match competitors with
      | [] => ""
      | _ :: _ =>
          let fromFile := JS.fromCharCode (97 + fromC) in
          let fromRank := JS.ofZ (8 - fromR) in
          let sameFile := anyb (fun '(_, c) => c =? fromC) competitors in
          let sameRank := anyb (fun '(r, _) => r =? fromR) competitors in
          if sameFile && sameRank then fromFile +:+ fromRank
          else if sameFile then fromRank
          else fromFile
      end in
    pieceTypeUpper +:+ disambiguation
    +:+ (if isSome capturedPiece then "x" else "") +:+ toAlg.

(** ** Apply spell (does not advance the turn) *)

Inductive SpellResult :=
| SpellOk (state : GameState) (notation : string)
| SpellError (error : string).

(** The ids of the pieces standing in the 3x3 zone around the target, in
    the order of the loops over [dr] and [dc]. *)
Definition affectedIds (b : Board) (targetR targetC : Z) : list string :=
  omap (fun '(dr, dc) =>
          let nr := targetR + dr in
          let nc := targetC + dc in
          if (nr >=? 0) && (nr <? 8) && (nc >=? 0) && (nc <? 8) then
            match cell b nr nc with
            | Some p => Some (p_id p)
            | None => None
            end
          else None)
    (dr ← [-1; 0; 1]; dc ← [-1; 0; 1]; [(dr, dc)]).

Definition applySpell (state : GameState) (spellType : SpellType)
    (targetR targetC : Z) : SpellResult :=
  if negb (canCastSpell state spellType) then
    SpellError ("Cannot cast " +:+ spellTypeName spellType
                +:+ " spell right now.")
  else
    let ns := deepCopyState state in
    let s := cur ns in
    let ps := spellsOf (spells s) (currentPlayer s) in
    let targetPiece := cell (board s) targetR targetC in
    match spellType with
    | jumpSpell =>
        match targetPiece with
        | None => SpellError "Jump must target a piece."
        | Some tp =>
            let ps' :=
              mkSpellState (jump ps - 1) (freeze ps) (gameTurnNumber s)
                (freezeLastUsedTurn ps) in
            let s1 := set_spells (setSpellsOf (spells s) (currentPlayer s) ps') s in
            let s2 :=
              set_activeSpells
                (activeSpells s1 ++ [ActiveJump (p_id tp) (plyCount s + 2)]) s1 in
            let s3 :=
              set_board
                (setCell (board s2) targetR targetC
                   (Some (set_isJumpable true tp))) s2 in
            SpellOk (with_cur (fun _ => s3) ns)
              ("jump@" +:+ algebraicFromCoords targetR targetC)
        end
    | freezeSpell =>
        let ps' :=
          mkSpellState (jump ps) (freeze ps - 1) (jumpLastUsedTurn ps)
            (gameTurnNumber s) in
        let s1 := set_spells (setSpellsOf (spells s) (currentPlayer s) ps') s in
        let s2 :=
          set_activeSpells
            (activeSpells s1
             ++ [ActiveFreeze (mkSquare targetR targetC)
                   (affectedIds (board s) targetR targetC) (plyCount s + 2)])
            s1 in
        SpellOk (with_cur (fun _ => s2) ns)
          ("freeze@" +:+ algebraicFromCoords targetR targetC)
    end.

(** ** Apply move (advances the turn) *)

Inductive MoveResult :=
| MoveDone (state : GameState)
| MoveAwaiting (state : GameState) (promotionContext : AwaitingPromotion)
| MoveError (error : string)
| MoveTypeError.
(** [MoveTypeError] stands for the [TypeError] the source throws when
    [applyPromotion] dereferences an empty square. *)

(** Truthiness of an optional string argument. *)
Definition truthyOpt (o : option string) : bool :=
  match o with Some s => JS.truthy s | None => false end.

(** [arr[1]] of a split, rendered inside a template literal. *)
Definition secondOrUndefined (l : list string) : string :=
  match l with
  | _ :: x :: _ => x
  | _ => "undefined"
  end.

(** [moveNotation.split("=")[1][0]] rendered inside a template literal. *)
Definition promoChar (moveNotation : string) : string :=
  match JS.split "=" moveNotation with
  | _ :: String a _ :: _ => String a EmptyString
  | _ => "undefined"
  end.

(** [_finalizeMove], "Build compact action list for this ply". *)
Definition compactActionsOf (spellNotation : option string)
    (moveNotation : string) (fromR toR fromC toC : Z) : list string :=
  let spellActions :=
    match spellNotation with
    | Some sn =>
        if JS.truthy sn then
          let parts := JS.split "@" sn in
          [JS.charAt0 (hd "" parts) +:+ "@" +:+ secondOrUndefined parts]
        else []
    | None => []
    end in
  let compactMove :=
    algebraicFromCoords fromR fromC +:+ "-" +:+ algebraicFromCoords toR toC
    +:+ (if JS.includes "=" moveNotation
         then "=" +:+ promoChar moveNotation else "") in
  (spellActions ++ [compactMove])%list.

(** [_finalizeMove], "Game-end detection": the new value of [isGameOver],
    the end message and the check symbol, computed on the state after the
    ply increment and the spell update. *)
Definition gameEndDetection (ns : GameState) (playerWhoMoved : Color)
  : bool * string * string :=
  let opp := opponent playerWhoMoved in
  let oppKingType := kingTypeOf opp in
  let oppKingOnBoard := isSome (findKing oppKingType (board (cur ns))) in
  let oppInCheck :=
    oppKingOnBoard
    && isKingInCheck opp (board (cur ns)) (enPassantTarget (cur ns))
         (activeSpells (cur ns)) (plyCount (cur ns)) in
  let oppHasMoves := oppKingOnBoard && hasLegalMoves opp ns in
  if negb oppKingOnBoard then
    (true, capitalized playerWhoMoved +:+ " wins by king capture!", "#")
  else if oppInCheck && negb oppHasMoves then
    (true, capitalized playerWhoMoved +:+ " wins by checkmate!", "#")
  else if negb oppInCheck && negb oppHasMoves then
    (true, "Draw by stalemate.", "")
  else if oppInCheck then (isGameOver (cur ns), "", "+")
  else (isGameOver (cur ns), "", "").

(** [_finalizeMove], "Threefold repetition", after [snap] was pushed. *)
Definition threefoldRepetition (snap : GameSnapshot) (ns : GameState)
  : GameState :=
  if negb (isGameOver (cur ns)) then
    let sig := generateStateSignature snap in
    let n := default 0 (repetitionCounter ns !! sig) + 1 in
    let ns := mkState (cur ns) (history ns) (<[sig := n]> (repetitionCounter ns)) in
    if n >=? 3 then
      with_cur (fun s => set_gameEndMessage "Draw by threefold repetition."
                           (set_isGameOver true s)) ns
    else ns
  else ns.

(** [_finalizeMove] up to "Advance turn counters": the state before the
    snapshot is pushed, and the local [gameEndMessage]. *)
Definition loggedState (ns : GameState) (moveNotation : string)
    (movedPiece : Piece) (fromR toR fromC toC : Z)
    (spellNotation : option string) : GameState * string :=
  let playerWhoMoved := currentPlayer (cur ns) in
  let compactActions :=
    compactActionsOf spellNotation moveNotation fromR toR fromC toC in
  let ns := with_cur (fun s => set_plyCount (plyCount s + 1) s) ns in
  let ns := updateActiveSpells ns in
  let opp := opponent playerWhoMoved in
  let ged := gameEndDetection ns playerWhoMoved in
  let over := fst (fst ged) in
  let gameEndMessage := snd (fst ged) in
  let checkSymbol := snd ged in
  let ns := with_cur (fun s => set_gameEndMessage gameEndMessage
                                 (set_isGameOver over s)) ns in
  (* Update en passant square *)
  let ep :=
    if String.eqb (lowerType movedPiece) "p" && (Z.abs (fromR - toR) =? 2)
    then Some (mkSquare ((fromR + toR) / 2) fromC)
    else None in
  let ns := with_cur (set_enPassantTarget ep) ns in
  (* Log the move *)
  let entry :=
    mkMoveLogEntry (gameTurnNumber (cur ns)) playerWhoMoved
      ((if truthyOpt spellNotation
        then default "" spellNotation +:+ " " else "")
       +:+ moveNotation +:+ checkSymbol)
      compactActions (Z.of_nat (List.length (history ns))) in
  let ns := with_cur (fun s => set_moveLog (moveLog s ++ [entry]) s) ns in
  (* Advance turn counters *)
  let ns :=
    if negb (isGameOver (cur ns)) then
      let ns :=
        match playerWhoMoved with
        | black => with_cur (fun s => set_gameTurnNumber (gameTurnNumber s + 1) s) ns
        | white => ns
        end in
      with_cur (set_currentPlayer opp) ns
    else ns in
  (ns, gameEndMessage).

(** The state returned by [_finalizeMove]: the snapshot is pushed, then
    the repetition is counted. *)
Definition finalizedState (ns : GameState) (moveNotation : string)
    (movedPiece : Piece) (fromR toR fromC toC : Z)
    (spellNotation : option string) : GameState :=
  let logged :=
    loggedState ns moveNotation movedPiece fromR toR fromC toC spellNotation in
  let ns := fst logged in
  let gameEndMessage := snd logged in
  (* Push snapshot *)
  let snap := set_gameEndMessage gameEndMessage (createSnapshot ns) in
  let ns := mkState (cur ns) (history ns ++ [snap]) (repetitionCounter ns) in
  threefoldRepetition snap ns.

Definition _finalizeMove (ns : GameState) (moveNotation : string)
    (movedPiece : Piece) (fromR toR fromC toC : Z)
    (spellNotation : option string) : MoveResult :=
  MoveDone
    (finalizedState ns moveNotation movedPiece fromR toR fromC toC
       spellNotation).

(** [promotionPiece] in the case of the moving colour. *)
Definition promotedType (c : Color) (promotionPiece : string) : string :=
  match c with
  | white => JS.toUpperCase promotionPiece
  | black => JS.toLowerCase promotionPiece
  end.

(** [applyMove], the test of "Castling: also move the rook". *)
Definition isCastleMove (moved : Piece) (fromC toC : Z) : bool :=
  String.eqb (lowerType moved) "k" && (Z.abs (fromC - toC) =? 2).

(** [applyMove], the test of "En passant: remove the captured pawn", made
    on the board after the castling step. *)
Definition isEnPassantMove (moved : Piece) (b : Board)
    (enPassantTarget : option Square) (fromC toR toC : Z) : bool :=
  String.eqb (lowerType moved) "p" && (Z.abs (fromC - toC) =? 1)
  && negb (isSome (cell b toR toC))
  && match enPassantTarget with
     | Some ep => (toR =? sq_r ep) && (toC =? sq_c ep)
     | None => false
     end.

(** [applyMove], the board after the rook of a castling move was moved. *)
Definition castleRookBoard (moved : Piece) (b : Board) (fromR fromC toC : Z)
  : Board :=
  if isCastleMove moved fromC toC then
    let rookFromC := if toC >? fromC then 7 else 0 in
    let rookToC := if toC >? fromC then toC - 1 else toC + 1 in
    match cell b fromR rookFromC with
    | Some rook =>
        setCell (setCell b fromR rookToC (Some (set_hasMoved true rook)))
          fromR rookFromC None
    | None => b
    end
  else b.

(** [applyMove], the board after "Apply the move": the rook of a castling
    move and the pawn captured en passant are handled first, then the
    moved piece, flagged [hasMoved], is put on its target square. *)
Definition movedBoard (moved : Piece) (b : Board)
    (enPassantTarget : option Square) (fromR fromC toR toC : Z) : Board :=
  let b := castleRookBoard moved b fromR fromC toC in
  let b :=
    if isEnPassantMove moved b enPassantTarget fromC toR toC
    then setCell b fromR toC None else b in
  setCell (setCell b toR toC (Some (set_hasMoved true moved))) fromR fromC None.

(** [applyMove], "Update castling rights". *)
Definition movedCastlingRights (moved : Piece) (cr : CastlingRights)
    (fromR fromC : Z) : CastlingRights :=
  if String.eqb (lowerType moved) "k" then
    match p_color moved with
    | white => mkCastlingRights false false (black_k cr) (black_q cr)
    | black => mkCastlingRights (white_K cr) (white_Q cr) false false
    end
  else if String.eqb (lowerType moved) "r" then
    match p_color moved with
    | white =>
        let cr :=
          if (fromR =? 7) && (fromC =? 0)
          then mkCastlingRights (white_K cr) false (black_k cr) (black_q cr)
          else cr in
        if (fromR =? 7) && (fromC =? 7)
        then mkCastlingRights false (white_Q cr) (black_k cr) (black_q cr)
        else cr
    | black =>
        let cr :=
          if (fromR =? 0) && (fromC =? 0)
          then mkCastlingRights (white_K cr) (white_Q cr) (black_k cr) false
          else cr in
        if (fromR =? 0) && (fromC =? 7)
        then mkCastlingRights (white_K cr) (white_Q cr) false (black_q cr)
        else cr
    end
  else cr.

(** [applyMove], the notation computed before the promotion step. *)
Definition moveNotationOf (state : GameState) (movingPiece : Piece)
    (fromR fromC toR toC : Z) : string :=
  let b := board (cur state) in
  let moveNotation :=
    generateMoveNotation state movingPiece fromR fromC toR toC
      (cell b toR toC) false in
  let moveNotation :=
    if isCastleMove movingPiece fromC toC
    then (if toC >? fromC then "O-O" else "O-O-O")
    else moveNotation in
  if isEnPassantMove movingPiece
       (castleRookBoard movingPiece b fromR fromC toC)
       (enPassantTarget (cur state)) fromC toR toC
  then
    generateMoveNotation state movingPiece fromR fromC toR toC
      (cell b fromR toC) true
  else moveNotation.

Definition applyMove (state : GameState) (fromR fromC toR toC : Z)
    (spellNotation : option string) (promotionPiece : option string)
  : MoveResult :=
  if negb (isValidMoveIn (cur state) (currentPlayer (cur state))
             fromR fromC toR toC)
  then MoveError "Invalid move."
  else
    match cell (board (cur state)) fromR fromC with
    | None => MoveTypeError (* excluded by [isValidMove] *)
    | Some movingPiece =>
        let moveNotation :=
          moveNotationOf state movingPiece fromR fromC toR toC in
        let ns := deepCopyState state in
        let b :=
          movedBoard movingPiece (board (cur ns)) (enPassantTarget (cur ns))
            fromR fromC toR toC in
        let moved := set_hasMoved true movingPiece in
        let cr := movedCastlingRights moved (castlingRights (cur ns)) fromR fromC in
        let ns := with_cur (fun s => set_castlingRights cr (set_board b s)) ns in
        (* Pawn promotion *)
        if negb (isCastleMove moved fromC toC)
           && String.eqb (lowerType moved) "p"
           && ((toR =? 0) || (toR =? 7))
        then
          if truthyOpt promotionPiece then
            let pp := default "" promotionPiece in
            let moved := set_type (promotedType (p_color moved) pp) moved in
            let ns :=
              with_cur (fun s => set_board
                                   (setCell (board s) toR toC (Some moved)) s)
                ns in
            let moveNotation := moveNotation +:+ "=" +:+ JS.toUpperCase pp in
            _finalizeMove ns moveNotation moved fromR toR fromC toC
              spellNotation
          else
            let ctx :=
              mkAwaitingPromotion toR toC (p_color moved) moveNotation
                moved fromR fromC in
            MoveAwaiting (with_cur (set_awaitingPromotion (Some ctx)) ns) ctx
        else
          _finalizeMove ns moveNotation moved fromR toR fromC toC spellNotation
    end.

(** Complete a previously pending promotion and finalize the turn. *)
Definition applyPromotion (state : GameState) (promotionPiece : string)
    (spellNotation : option string) : MoveResult :=
  match awaitingPromotion (cur state) with
  | None => MoveError "No promotion pending."
  | Some promo =>
      let ns := deepCopyState state in
      let pieceType := promotedType (ap_color promo) promotionPiece in
      match cell (board (cur ns)) (ap_r promo) (ap_c promo) with
      | None => MoveTypeError
      | Some p =>
          let p' := set_type pieceType p in
          let ns :=
            with_cur (fun s => set_board
                                 (setCell (board s) (ap_r promo) (ap_c promo)
                                    (Some p')) s) ns in
          let moveNotation :=
            originalMoveNotation promo +:+ "=" +:+ JS.toUpperCase promotionPiece in
          let ns := with_cur (set_awaitingPromotion None) ns in
          _finalizeMove ns moveNotation p' (ap_fromR promo) (ap_r promo)
            (ap_fromC promo) (ap_c promo) spellNotation
      end
  end.

(** ** Resign *)

Definition applyResign (state : GameState) : GameState :=
  let ns := deepCopyState state in
  let ns := with_cur (set_isGameOver true) ns in
  let player := currentPlayer (cur ns) in
  let winner := match player with white => "Black" | black => "White" end in
  let resigner := capitalized player in
  let ns :=
    with_cur (set_gameEndMessage (resigner +:+ " resigned. " +:+ winner +:+ " wins."))
      ns in
  let entry :=
    mkMoveLogEntry (gameTurnNumber (cur ns)) player "R" ["R"]
      (Z.of_nat (List.length (history ns))) in
  let ns := with_cur (fun s => set_moveLog (moveLog s ++ [entry]) s) ns in
  let snap := set_gameEndMessage (gameEndMessage (cur ns)) (createSnapshot ns) in
  mkState (cur ns) (history ns ++ [snap]) (repetitionCounter ns).

(** ** Replay of a compact action log *)

Inductive ReplayResult :=
| ReplayOk (state : GameState)
| ReplayThrow (message : string).

(** The outcome of one spell token of the replay loop on [state]: the new
    state and the pending notation, or the message of the error thrown. *)
Definition replaySpell (state : GameState) (action : string)
  : (GameState * string) + string :=
  let parts := JS.split "@" action in
  let prefix := hd "" parts in
  let targetAlg := secondOrUndefined parts in
  let spellType :=
    if String.eqb prefix "j" || String.eqb prefix "jump"
    then jumpSpell else freezeSpell in
  match parseAlgebraicToCoords targetAlg with
  | None => inr ("Invalid spell action: " +:+ action)
  | Some coords =>
      match applySpell state spellType (sq_r coords) (sq_c coords) with
      | SpellError error => inr ("Spell failed: " +:+ error)
      | SpellOk state' notation => inl (state', notation)
      end
  end.

(** The outcome of one move token of the replay loop. *)
Definition replayMove (state : GameState) (pendingSpellNotation : option string)
    (action : string) : GameState + string :=
  match JS.split "-" action with
  | fromAlg :: toAndPromo :: _ =>
      let toAlg := JS.substring02 toAndPromo in
      match parseAlgebraicToCoords fromAlg, parseAlgebraicToCoords toAlg with
      | Some from, Some to =>
          let promotionPiece :=
            if JS.includes "=" toAndPromo
            then Some (secondOrUndefined (JS.split "=" toAndPromo))
            else None in
          match applyMove state (sq_r from) (sq_c from) (sq_r to) (sq_c to)
                  pendingSpellNotation promotionPiece with
          | MoveError error => inr ("Move failed: " +:+ error)
          | MoveTypeError => inr "TypeError"
          | MoveAwaiting _ _ =>
              inr ("Promotion piece missing in action: " +:+ action)
          | MoveDone state' => inl state'
          end
      | _, _ => inr ("Invalid move action: " +:+ action)
      end
  | _ => inr "TypeError" (* [toAndPromo] is [undefined] *)
  end.

(** The [for] loop of [replayCompactActions] over the remaining actions. *)
Fixpoint replay_loop (state : GameState) (pendingSpellNotation : option string)
    (actions : list string) : ReplayResult :=
  match actions with
  | [] => ReplayOk state
  | action :: rest =>
      if isGameOver (cur state) then ReplayOk state
      else if String.eqb (JS.toUpperCase action) "R" then
        replay_loop (applyResign state) pendingSpellNotation rest
      else if JS.includes "@" action then
        match replaySpell state action with
        | inl (state', notation) => replay_loop state' (Some notation) rest
        | inr message => ReplayThrow message
        end
      else
        match replayMove state pendingSpellNotation action with
        | inl state' => replay_loop state' None rest
        | inr message => ReplayThrow message
        end
  end.

(** [replayCompactActions], with the value [seq] of the piece-id counter at
    the call. *)
Definition replayCompactActions (seq : Z) (actions : list string)
  : ReplayResult :=
  replay_loop (createInitialGameState seq) None actions.

Definition buildCompactActionLog (moveLog : list MoveLogEntry) : string :=
  JS.join "," (flat_map actions moveLog).

(** The callers' decoding of a stored log:
    [log ? log.split(",").filter(Boolean) : []]. *)
Definition splitCompactActionLog (log : string) : list string :=
  if JS.truthy log
  then filter (fun t => JS.truthy t = true) (JS.split "," log)
  else [].

(** * The callers of the engine *)

(** ** History navigation ([hooks/useSpellChess.ts]) *)

(** The new value of [currentHistoryViewIndex] set by [onHistoryBack],
    [onHistoryForward] and [onHistoryJump]; [historyLength] is
    [gameState.history.length]. *)
Definition onHistoryBack (currentHistoryViewIndex : Z) : Z :=
  Z.max 0 (currentHistoryViewIndex - 1).

Definition onHistoryForward (historyLength currentHistoryViewIndex : Z) : Z :=
  Z.min (historyLength - 1) (currentHistoryViewIndex + 1).

Definition onHistoryJump (historyLength index : Z) : Z :=
  Z.max 0 (Z.min (historyLength - 1) index).

(** ** The move endpoint ([app/api/game/[id]/route.ts], [PATCH]) *)

(** [GameRow["status"]]. *)
Inductive RowStatus := statusWaiting | statusActive | statusFinished.

(** The columns of a [games] row that the endpoint reads and writes back
    from its own computation (the other columns it writes are fields of
    the replayed state). *)
Record GameRow := mkGameRow {
  compact_action_log : string;
  is_game_over : bool;
  status : RowStatus
}.

(** The request body: not JSON, JSON without an [actions] array, or the
    array (the empty array is refused like a missing one). *)
Inductive PatchBody :=
| BodyNotJson
| BodyWithoutActions
| BodyActions (actions : list string).

(** The JSON response: an error with its HTTP status, or the new state,
    log and status. *)
Inductive PatchResponse :=
| PatchError (httpStatus : Z) (error : string)
| PatchOk (state : GameState) (compactActionLog : string)
    (newStatus : RowStatus).

(** The handler on the body, the row found for the id ([None] if the read
    fails) and the outcome of the final update; it returns the response
    and the row as it is afterwards.  [seq] is the value of the piece-id
    counter of the server process; the message of a [TypeError] thrown by
    the replay is the one of the embedding. *)
Definition PATCH (seq : Z) (body : PatchBody) (row : option GameRow)
    (updateFails : bool) : PatchResponse * option GameRow :=
  match body with
  | BodyNotJson => (PatchError 400 "Invalid JSON", row)
  | BodyWithoutActions | BodyActions [] =>
      (PatchError 400 "actions array is required", row)
  | BodyActions actions =>
      match row with
      | None => (PatchError 404 "Game not found", row)
      | Some gameRow =>
          if is_game_over gameRow then
            (PatchError 409 "Game is already over", row)
          else
            let existingActions :=
              splitCompactActionLog (compact_action_log gameRow) in
            let allActions := (existingActions ++ actions)%list in
            let newLog := JS.join "," allActions in
            match replayCompactActions seq allActions with
            | ReplayThrow message =>
                (PatchError 422 ("Invalid action: " +:+ message), row)
            | ReplayOk newState =>
                let newStatus :=
                  if isGameOver (cur newState) then statusFinished
                  else
                    match status gameRow with
                    | statusWaiting =>
                        if plyCount (cur newState) >? 0 then statusActive
                        else statusWaiting
                    | s => s
                    end in
                if updateFails then
                  (PatchError 500 "Failed to save move", row)
                else
                  (PatchOk newState newLog newStatus,
                   Some (mkGameRow newLog (isGameOver (cur newState))
                           newStatus))
            end
      end
  end.

(** ** The board component ([ChessBoard]) *)

(** [historyHighlightSquares]: the names of the squares of the last move
    of a snapshot, in the order in which they are added to the set. *)
Definition historyHighlightSquares (historySnapshot : option GameSnapshot)
  : list string :=
  match historySnapshot with
  | None => []
  | Some snap =>
      match last (moveLog snap) with
      | None => []
      | Some lastEntry =>
          flat_map
            (fun action =>
               if negb (JS.includes "@" action)
                  && negb (String.eqb action "R")
               then
                 match JS.split "-" action with
                 | fromAlg :: toAndPromo :: _ =>
                     if JS.truthy fromAlg && JS.truthy toAndPromo
                     then [fromAlg; JS.substring02 toAndPromo]
                     else []
                 | _ => []
                 end
               else [])
            (actions lastEntry)
      end
  end.

(** The classes that [getFreezeIndicatorClasses] pushes for one spell. *)
Definition freezeIndicatorClassesOf (sqR sqC : Z) (currentPly : Z)
    (spell : ActiveSpell) : list string :=
  match spell with
  | ActiveJump _ _ => []
  | ActiveFreeze target _ expires =>
      if currentPly >=? expires then []
      else
        let cr := sq_r target in
        let cc := sq_c target in
        let inZone :=
          (sqR >=? Z.max 0 (cr - 1)) && (sqR <=? Z.min 7 (cr + 1))
          && (sqC >=? Z.max 0 (cc - 1)) && (sqC <=? Z.min 7 (cc + 1)) in
        if negb inZone then []
        else
          ((if sqR =? Z.max 0 (cr - 1) then ["sq-freeze-top"] else [])
           ++ (if sqR =? Z.min 7 (cr + 1) then ["sq-freeze-bottom"] else [])
           ++ (if sqC =? Z.max 0 (cc - 1) then ["sq-freeze-left"] else [])
           ++ (if sqC =? Z.min 7 (cc + 1) then ["sq-freeze-right"] else []))%list
  end.

Definition getFreezeIndicatorClasses (sqR sqC : Z)
    (activeSpells : list ActiveSpell) (currentPly : Z) : string :=
  JS.join " " (flat_map (freezeIndicatorClassesOf sqR sqC currentPly)
                 activeSpells).

(** ** Casting a spell from the panel ([hooks/useSpellChess.ts]) *)

(** [playerColor]: a player's own page or the moderator's. *)
Inductive PlayerColor := asWhite | asBlack | asModerator.

Definition isPlayer (playerColor : PlayerColor) (c : Color) : bool :=
  match playerColor, c with
  | asWhite, white | asBlack, black => true
  | _, _ => false
  end.

(** What [onCastSpell] does: nothing, a status message only, or an update
    of [spellMode] and [spellCaster] (with its status message, if any). *)
Inductive CastOutcome :=
| CastIgnored
| CastRefused (message : string)
| CastUi (spellMode : option SpellType) (spellCaster : option Color)
    (message : option string).

Definition SpellType_eqb (a b : SpellType) : bool :=
  match a, b with
  | jumpSpell, jumpSpell | freezeSpell, freezeSpell => true
  | _, _ => false
  end.

Definition onCastSpell (playerColor : PlayerColor) (gameState : GameState)
    (pendingSpellNotation : option string) (spellMode : option SpellType)
    (spellCaster : option Color) (spellType : SpellType) : CastOutcome :=
  let s := cur gameState in
  if match playerColor with
     | asModerator => false
     | _ => negb (isPlayer playerColor (currentPlayer s))
     end
  then CastIgnored
  else if isGameOver s || isSome (awaitingPromotion s) then CastIgnored
  else if truthyOpt pendingSpellNotation then
    CastRefused "You already cast a spell this turn. Make your move or cancel."
  else if negb (canCastSpell gameState spellType) then
    let ps := spellsOf (spells s) (currentPlayer s) in
    let lastUsed :=
      match spellType with
      | jumpSpell => jumpLastUsedTurn ps
      | freezeSpell => freezeLastUsedTurn ps
      end in
    let remaining := lastUsed + SPELL_COOLDOWN_TURNS - gameTurnNumber s in
    CastRefused
      (if remaining >? 0
       then spellTypeName spellType +:+ " is on cooldown for "
            +:+ JS.ofZ remaining +:+ " more turn(s)."
       else "No " +:+ spellTypeName spellType +:+ " spells remaining.")
  else if match spellMode, spellCaster with
          | Some mode, Some caster =>
              SpellType_eqb mode spellType
              && Color_eqb caster (currentPlayer s)
          | _, _ => false
          end
  then CastUi None None None
  else
    CastUi (Some spellType) (Some (currentPlayer s))
      (Some (match spellType with
             | jumpSpell =>
                 "Jump spell active. Click a piece to make it jumpable."
             | freezeSpell =>
                 "Freeze spell active. Click a square to freeze the area."
             end)).

(** ** Notions used in the statements *)

(** A square of the board. *)
Definition onBoard (r c : Z) : Prop := 0 <= r < 8 /\ 0 <= c < 8.

(** Eight rows of eight cells. *)
Definition wfBoard (b : Board) : Prop :=
  List.length b = 8%nat /\ Forall (fun row => List.length row = 8%nat) b.


Definition isSpellError (r : SpellResult) : bool :=
  match r with SpellError _ => true | SpellOk _ _ => false end.

Definition isReplayThrow (r : ReplayResult) : bool :=
  match r with ReplayThrow _ => true | ReplayOk _ => false end.

(** The states produced from an initial state by successful public
    operations applied to squares of the board. *)
Inductive reachable : GameState -> Prop :=
| reach_init (seq : Z) : reachable (createInitialGameState seq)
| reach_spell st ty r c st' n :
    reachable st -> onBoard r c ->
    applySpell st ty r c = SpellOk st' n -> reachable st'
| reach_move st fr fc tr tc sn pp st' :
    reachable st -> onBoard fr fc -> onBoard tr tc ->
    applyMove st fr fc tr tc sn pp = MoveDone st' -> reachable st'
| reach_move_awaiting st fr fc tr tc sn pp st' ctx :
    reachable st -> onBoard fr fc -> onBoard tr tc ->
    applyMove st fr fc tr tc sn pp = MoveAwaiting st' ctx -> reachable st'
| reach_promotion st pp sn st' :
    reachable st ->
    applyPromotion st pp sn = MoveDone st' -> reachable st'
| reach_resign st :
    reachable st -> reachable (applyResign st).

(** The other kind of spell. *)
Definition otherSpell (ty : SpellType) : SpellType :=
  match ty with jumpSpell => freezeSpell | freezeSpell => jumpSpell end.

(** [f] applied to the last element of a list. *)
Fixpoint mapLast {A} (f : A -> A) (l : list A) : list A :=
  match l with
  | [] => []
  | [x] => [f x]
  | x :: l' => x :: mapLast f l'
  end.

(** A state whose [awaitingPromotion] field is [ap]. *)
Definition withPending (ap : option AwaitingPromotion) (st : GameState)
  : GameState :=
  with_cur (set_awaitingPromotion ap) st.

(** The result of a move with the field [awaitingPromotion] of a finalized
    state, and of the snapshot it pushed last, set to [ap]. *)
Definition carryPending (ap : option AwaitingPromotion) (r : MoveResult)
  : MoveResult :=
  match r with
  | MoveDone st =>
      MoveDone
        (mkState (set_awaitingPromotion ap (cur st))
           (mapLast (set_awaitingPromotion ap) (history st))
           (repetitionCounter st))
  | _ => r
  end.

(** The last rank of a pawn of colour [col]. *)
Definition lastRank (col : Color) : Z :=
  match col with white => 0 | black => 7 end.

(** Clearing flags: every cell of [b'] is the cell of [b], possibly with
    [isJumpable] cleared. *)
Definition flagsCleared (b b' : Board) : Prop :=
  forall r c,
    cell b' r c = cell b r c
    \/ exists p, cell b r c = Some p
                 /\ cell b' r c = Some (set_isJumpable false p).

(** The test of the castling branch of [isValidMove]. *)
Definition isCastleAttempt (moving : Piece) (fromR fromC toR toC : Z) : bool :=
  String.eqb (lowerType moving) "k" && (Z.abs (toC - fromC) =? 2)
  && (fromR =? toR).

(** The piece on the corner is an unmoved rook (of either colour: the
    source does not look at the colour). *)
Definition unmovedRook (rook : option Piece) : bool :=
  match rook with
  | Some rk => String.eqb (lowerType rk) "r" && negb (p_hasMoved rk)
  | None => false
  end.

(** The conjunction tested by [checkCastleConditions] for the side given
    by [kingside]. *)
Definition castleConditions (kingFromR kingFromC : Z) (kingside : bool)
    (b : Board) (player : Color) (cr : CastlingRights)
    (spells : list ActiveSpell) (ply : Z) (ep : option Square) : bool :=
  let attacked c :=
    isSquareAttacked kingFromR c (opponent player) b ep spells ply in
  match cell b kingFromR kingFromC with
  | None => false
  | Some king =>
      negb (p_hasMoved king)
      && negb (isKingInCheck player b ep spells ply)
      && if kingside then
           match player with white => white_K cr | black => black_k cr end
           && unmovedRook (cell b kingFromR 7)
           && negb (isSome (cell b kingFromR (kingFromC + 1)))
           && negb (isSome (cell b kingFromR (kingFromC + 2)))
           && negb (attacked (kingFromC + 1))
           && negb (attacked (kingFromC + 2))
         else
           match player with white => white_Q cr | black => black_q cr end
           && unmovedRook (cell b kingFromR 0)
           && negb (isSome (cell b kingFromR (kingFromC - 1)))
           && negb (isSome (cell b kingFromR (kingFromC - 2)))
           && negb (isSome (cell b kingFromR (kingFromC - 3)))
           && negb (attacked (kingFromC - 1))
           && negb (attacked (kingFromC - 2))
  end.

(** The state a log replays to (the initial state if replay throws). *)
Definition replayedState (seq : Z) (actions : list string) : GameState :=
  match replayCompactActions seq actions with
  | ReplayOk st => st
  | ReplayThrow _ => createInitialGameState seq
  end.

(** The state of a move result, [d] for an error. *)
Definition resultState (d : GameState) (r : MoveResult) : GameState :=
  match r with
  | MoveDone st | MoveAwaiting st _ => st
  | _ => d
  end.

(** A game in which White's a-pawn reaches b7: its capture on a8 promotes. *)
Definition pawnToB7 : list string :=
  ["a2-a4"; "b7-b5"; "a4-b5"; "h7-h6"; "b5-b6"; "h6-h5"; "b6-b7"; "h5-h4"].

(** The state after b7xa8 played without a promotion piece. *)
Definition pendingPromotionState : GameState :=
  let st := replayedState 0 pawnToB7 in
  resultState st (applyMove st 1 1 0 0 None None).

Definition isMoveDone (r : MoveResult) : bool :=
  match r with MoveDone _ => true | _ => false end.

Definition isMoveAwaiting (r : MoveResult) : bool :=
  match r with MoveAwaiting _ _ => true | _ => false end.

(** The snapshot [_finalizeMove] pushes on the history, in closed form. *)
Definition finalizedSnapshot (ns : GameState) (moveNotation : string)
    (movedPiece : Piece) (fromR toR fromC toC : Z)
    (spellNotation : option string) : GameSnapshot :=
  let s := cur ns in
  let playerWhoMoved := currentPlayer s in
  let upd :=
    updateActiveSpells_loop (plyCount s + 1) (activeSpells s) (board s) in
  let ged :=
    gameEndDetection
      (updateActiveSpells
         (with_cur (fun s => set_plyCount (plyCount s + 1) s) ns))
      playerWhoMoved in
  let over := ged.1.1 in
  mkSnapshot upd.1
    (if over then playerWhoMoved else opponent playerWhoMoved)
    (if over then gameTurnNumber s
     else match playerWhoMoved with
          | black => gameTurnNumber s + 1
          | white => gameTurnNumber s
          end)
    (plyCount s + 1) (spells s) upd.2
    (moveLog s
     ++ [mkMoveLogEntry (gameTurnNumber s) playerWhoMoved
           ((if truthyOpt spellNotation
             then default "" spellNotation +:+ " " else "")
            +:+ moveNotation +:+ ged.2)
           (compactActionsOf spellNotation moveNotation fromR toR fromC toC)
           (Z.of_nat (List.length (history ns)))])%list
    (if String.eqb (lowerType movedPiece) "p" && (Z.abs (fromR - toR) =? 2)
     then Some (mkSquare ((fromR + toR) / 2) fromC)
     else None)
    (castlingRights s) over ged.1.2 (awaitingPromotion s).

(** [ns] differs from [st] at most in the board, the castling rights and
    the pending promotion: what [applyMove] and [applyPromotion] change
    before they finalize. *)
Definition sameBookkeeping (st ns : GameState) : Prop :=
  history ns = history st
  /\ repetitionCounter ns = repetitionCounter st
  /\ plyCount (cur ns) = plyCount (cur st)
  /\ activeSpells (cur ns) = activeSpells (cur st)
  /\ isGameOver (cur ns) = isGameOver (cur st)
  /\ gameEndMessage (cur ns) = gameEndMessage (cur st)
  /\ moveLog (cur ns) = moveLog (cur st)
  /\ currentPlayer (cur ns) = currentPlayer (cur st)
  /\ gameTurnNumber (cur ns) = gameTurnNumber (cur st)
  /\ spells (cur ns) = spells (cur st).

(** The piece found under [id], if any, is not jumpable. *)
Definition jumpCleared (b : Board) (id : string) : Prop :=
  forall p, findPieceById b id = Some p -> p_isJumpable p = false.

(** Calls of the public operations, for the construction of reachable
    states. *)
Inductive Op :=
| OpSpell (ty : SpellType) (r c : Z)
| OpMove (fromR fromC toR toC : Z) (spellNotation promotionPiece : option string)
| OpPromotion (promotionPiece : string) (spellNotation : option string)
| OpResign.

Definition onBoardb (r c : Z) : bool :=
  (0 <=? r) && (r <? 8) && (0 <=? c) && (c <? 8).

(** One successful call, [None] if the operation fails. *)
Definition playOp (st : GameState) (op : Op) : option GameState :=
  match op with
  | OpSpell ty r c =>
      if onBoardb r c then
        match applySpell st ty r c with
        | SpellOk st' _ => Some st'
        | SpellError _ => None
        end
      else None
  | OpMove fr fc tr tc sn pp =>
      if onBoardb fr fc && onBoardb tr tc then
        match applyMove st fr fc tr tc sn pp with
        | MoveDone st' | MoveAwaiting st' _ => Some st'
        | _ => None
        end
      else None
  | OpPromotion pp sn =>
      match applyPromotion st pp sn with
      | MoveDone st' => Some st'
      | _ => None
      end
  | OpResign => Some (applyResign st)
  end.

Fixpoint playOps (st : GameState) (ops : list Op) : option GameState :=
  match ops with
  | [] => Some st
  | op :: rest =>
      match playOp st op with
      | Some st' => playOps st' rest
      | None => None
      end
  end.

(** The state reached from the initial state by [ops] (the initial state
    if some call fails). *)
Definition played (seq : Z) (ops : list Op) : GameState :=
  default (createInitialGameState seq) (playOps (createInitialGameState seq) ops).

(** A game in which Black freezes the zone of e1 on the first move: White
    is to move with the king inside the zone. *)
Definition frozenKingGame : list Op :=
  [OpMove 6 4 4 4 None None;
   OpSpell freezeSpell 7 4; OpMove 1 4 3 4 (Some "freeze@e1") None].

(** A game in which White is ready to castle kingside when Black freezes
    the zone of e1. *)
Definition frozenCastleGame : list Op :=
  [OpMove 6 4 4 4 None None; OpMove 1 4 3 4 None None;
   OpMove 7 6 5 5 None None; OpMove 0 6 2 5 None None;
   OpMove 7 5 4 2 None None;
   OpSpell freezeSpell 7 4; OpMove 0 5 3 2 (Some "freeze@e1") None].

(** The number of snapshots of a history that have signature [sig] and do
    not record the end of the game. *)
Fixpoint occurrences (sig : string) (hist : list GameSnapshot) : Z :=
  match hist with
  | [] => 0
  | h :: rest =>
      (if negb (isGameOver h) && String.eqb (generateStateSignature h) sig
       then 1 else 0)
      + occurrences sig rest
  end.

(** The number of all snapshots of a history that have signature [sig]. *)
Fixpoint allOccurrences (sig : string) (hist : list GameSnapshot) : Z :=
  match hist with
  | [] => 0
  | h :: rest =>
      (if String.eqb (generateStateSignature h) sig then 1 else 0)
      + allOccurrences sig rest
  end.

(** The knights go out and back once, then White resigns. *)
Definition resignAfterRepetition : list Op :=
  [OpMove 7 6 5 5 None None; OpMove 0 6 2 5 None None;
   OpMove 5 5 7 6 None None; OpMove 2 5 0 6 None None; OpResign].

(** Black answers Qxf7+ with a freeze on f7 and a6; after a3 the freeze has
    expired and Black, whose freeze is on cooldown, is checkmated. *)
Definition checkmateGame : list Op :=
  [OpMove 6 4 4 4 None None; OpMove 1 4 3 4 None None;
   OpMove 7 5 4 2 None None; OpMove 0 1 2 2 None None;
   OpMove 7 3 3 7 None None; OpMove 0 6 2 5 None None;
   OpMove 3 7 1 5 None None;
   OpSpell freezeSpell 1 5; OpMove 1 0 2 0 (Some "freeze@f7") None;
   OpMove 6 0 5 0 None None].

(** The signature of the last snapshot of the history. *)
Definition lastSignature (st : GameState) : string :=
  match last (history st) with
  | Some snap => generateStateSignature snap
  | None => ""
  end.

(** The repetition counter counts the snapshots that did not end the
    game. *)
Definition counterAgrees (st : GameState) : Prop :=
  forall sig,
    default 0 (repetitionCounter st !! sig) = occurrences sig (history st).

(** A third occurrence of the last snapshot's signature has ended the
    game as a draw. *)
Definition thirdOccurrenceDraws (st : GameState) : Prop :=
  forall snap,
    last (history st) = Some snap -> isGameOver snap = false ->
    3 <= occurrences (generateStateSignature snap) (history st) ->
    isGameOver (cur st) = true
    /\ gameEndMessage (cur st) = "Draw by threefold repetition.".

(** The knights go out and back twice: the initial position a third time. *)
Definition threefoldGame : list Op :=
  [OpMove 7 6 5 5 None None; OpMove 0 6 2 5 None None;
   OpMove 5 5 7 6 None None; OpMove 2 5 0 6 None None;
   OpMove 7 6 5 5 None None; OpMove 0 6 2 5 None None;
   OpMove 5 5 7 6 None None; OpMove 2 5 0 6 None None].



(** White has played f4 and freezes f7 while taking it with the queen;
    Black answers with the queen's check from h4. *)
Definition kingCaptureGame : list Op :=
  [OpMove 6 4 4 4 None None; OpMove 1 4 3 4 None None;
   OpMove 7 3 3 7 None None; OpMove 0 1 2 2 None None;
   OpMove 6 5 4 5 None None; OpMove 1 0 2 0 None None;
   OpSpell freezeSpell 1 5; OpMove 3 7 1 5 (Some "freeze@f7") None;
   OpMove 0 3 4 7 None None].

(** *** The caller protocol of a half-move *)

(** The promotion letters of the token grammar. *)
Definition promoLetters : list ascii :=
  ["Q"; "R"; "B"; "N"; "q"; "r"; "b"; "n"]%char.

(** An optional promotion piece that is one letter of the grammar. *)
Definition promoOk (pp : option string) : Prop :=
  match pp with
  | None => True
  | Some s => exists ch, ch ∈ promoLetters /\ s = String ch EmptyString
  end.

(** The states of games played by the protocol of the client: every
    half-move of an unfinished game is a move, a spell followed by a move
    that carries the notation of the spell, either of them completed by
    [applyPromotion] when the move awaits a promotion, or a resignation
    with no spell pending. *)
Inductive protocol (seq : Z) : GameState -> Prop :=
| proto_init : protocol seq (createInitialGameState seq)
| proto_move st fr fc tr tc pp st' :
    protocol seq st -> isGameOver (cur st) = false ->
    onBoard fr fc -> onBoard tr tc -> promoOk pp ->
    applyMove st fr fc tr tc None pp = MoveDone st' ->
    protocol seq st'
| proto_spell_move st ty r c st1 n fr fc tr tc pp st' :
    protocol seq st -> isGameOver (cur st) = false ->
    onBoard r c -> applySpell st ty r c = SpellOk st1 n ->
    onBoard fr fc -> onBoard tr tc -> promoOk pp ->
    applyMove st1 fr fc tr tc (Some n) pp = MoveDone st' ->
    protocol seq st'
| proto_promotion st fr fc tr tc sn st1 ctx pp st' :
    protocol seq st -> isGameOver (cur st) = false ->
    onBoard fr fc -> onBoard tr tc ->
    applyMove st fr fc tr tc sn None = MoveAwaiting st1 ctx ->
    promoOk (Some pp) ->
    applyPromotion st1 pp None = MoveDone st' ->
    protocol seq st'
| proto_spell_promotion st ty r c st1 n fr fc tr tc sn st2 ctx pp st' :
    protocol seq st -> isGameOver (cur st) = false ->
    onBoard r c -> applySpell st ty r c = SpellOk st1 n ->
    onBoard fr fc -> onBoard tr tc ->
    applyMove st1 fr fc tr tc sn None = MoveAwaiting st2 ctx ->
    promoOk (Some pp) ->
    applyPromotion st2 pp (Some n) = MoveDone st' ->
    protocol seq st'
| proto_resign st :
    protocol seq st -> isGameOver (cur st) = false ->
    protocol seq (applyResign st).

(** The replay loop, returning the pending spell notation as well. *)
Fixpoint replay_run (state : GameState) (pending : option string)
    (actions : list string) : (GameState * option string) + string :=
  match actions with
  | [] => inl (state, pending)
  | action :: rest =>
      if isGameOver (cur state) then inl (state, pending)
      else if String.eqb (JS.toUpperCase action) "R" then
        replay_run (applyResign state) pending rest
      else if JS.includes "@" action then
        match replaySpell state action with
        | inl (state', notation) => replay_run state' (Some notation) rest
        | inr message => inr message
        end
      else
        match replayMove state pending action with
        | inl state' => replay_run state' None rest
        | inr message => inr message
        end
  end.

(** The compact token of a move. *)
Definition moveToken (fromR fromC toR toC : Z) (promo : option ascii)
  : string :=
  algebraicFromCoords fromR fromC +:+ "-" +:+ algebraicFromCoords toR toC
  +:+ match promo with
      | Some ch => "=" +:+ String ch EmptyString
      | None => ""
      end.

(** The compact token of a spell cast. *)
Definition spellToken (ty : SpellType) (r c : Z) : string :=
  match ty with jumpSpell => "j" | freezeSpell => "f" end
  +:+ "@" +:+ algebraicFromCoords r c.

(** No piece type contains the promotion mark. *)
Definition goodType (o : option Piece) : Prop :=
  match o with
  | Some p => JS.includes "=" (JS.toUpperCase (p_type p)) = false
  | None => True
  end.

Definition goodTypes (b : Board) : Prop := Forall (Forall goodType) b.

(** What the protocol keeps true between two half-moves. *)
Definition settled (st : GameState) : Prop :=
  wfBoard (board (cur st)) /\ goodTypes (board (cur st))
  /\ awaitingPromotion (cur st) = None.

(** A token that survives the comma-joined log: not empty, no comma. *)
Definition goodToken (t : string) : Prop :=
  JS.truthy t = true /\ JS.includes "," t = false.

(** The promotion argument that a move token with letter [promo] gives to
    [applyMove] on replay. *)
Definition promoArg (promo : option ascii) : option string :=
  match promo with
  | Some ch => Some (String ch EmptyString)
  | None => None
  end.

(** The half-moves of the protocol, for the construction of its games. *)
Inductive HalfMove :=
| HMove (fromR fromC toR toC : Z) (promotionPiece : option string)
| HSpellMove (ty : SpellType) (r c : Z) (fromR fromC toR toC : Z)
    (promotionPiece : option string)
| HPromotion (fromR fromC toR toC : Z) (promotionPiece : string)
| HSpellPromotion (ty : SpellType) (r c : Z) (fromR fromC toR toC : Z)
    (promotionPiece : string)
| HResign.

Definition promoOkb (pp : option string) : bool :=
  match pp with
  | None => true
  | Some (String ch EmptyString) => bool_decide (ch ∈ promoLetters)
  | Some _ => false
  end.

(** [applyMove] completed by [applyPromotion] when it awaits a piece. *)
Definition moveThenPromote (st : GameState) (fromR fromC toR toC : Z)
    (promotionPiece : string) (spellNotation : option string)
  : option GameState :=
  match applyMove st fromR fromC toR toC None None with
  | MoveAwaiting st1 _ =>
      match applyPromotion st1 promotionPiece spellNotation with
      | MoveDone st' => Some st'
      | _ => None
      end
  | _ => None
  end.

(** One half-move of the protocol, [None] if it is refused. *)
Definition playHalf (st : GameState) (h : HalfMove) : option GameState :=
  if isGameOver (cur st) then None
  else
    match h with
    | HMove fr fc tr tc pp =>
        if onBoardb fr fc && onBoardb tr tc && promoOkb pp then
          match applyMove st fr fc tr tc None pp with
          | MoveDone st' => Some st'
          | _ => None
          end
        else None
    | HSpellMove ty r c fr fc tr tc pp =>
        if onBoardb r c && onBoardb fr fc && onBoardb tr tc && promoOkb pp then
          match applySpell st ty r c with
          | SpellOk st1 n =>
              match applyMove st1 fr fc tr tc (Some n) pp with
              | MoveDone st' => Some st'
              | _ => None
              end
          | SpellError _ => None
          end
        else None
    | HPromotion fr fc tr tc pp =>
        if onBoardb fr fc && onBoardb tr tc && promoOkb (Some pp) then
          moveThenPromote st fr fc tr tc pp None
        else None
    | HSpellPromotion ty r c fr fc tr tc pp =>
        if onBoardb r c && onBoardb fr fc && onBoardb tr tc
           && promoOkb (Some pp) then
          match applySpell st ty r c with
          | SpellOk st1 n => moveThenPromote st1 fr fc tr tc pp (Some n)
          | SpellError _ => None
          end
        else None
    | HResign => Some (applyResign st)
    end.

Fixpoint playHalves (st : GameState) (hs : list HalfMove)
  : option GameState :=
  match hs with
  | [] => Some st
  | h :: rest =>
      match playHalf st h with
      | Some st' => playHalves st' rest
      | None => None
      end
  end.

(** The state of the protocol game [hs] (the initial state if a half-move
    is refused). *)
Definition playedByProtocol (seq : Z) (hs : list HalfMove) : GameState :=
  default (createInitialGameState seq)
    (playHalves (createInitialGameState seq) hs).

(** A protocol game with a jump, a freeze, a promotion in two steps and a
    resignation. *)
Definition protocolGame : list HalfMove :=
  [HMove 6 0 4 0 None; HMove 1 1 3 1 None;
   HMove 4 0 3 1 None; HMove 1 7 2 7 None;
   HSpellMove jumpSpell 6 4 3 1 2 1 None; HMove 2 7 3 7 (Some "q");
   HMove 2 1 1 1 None; HSpellMove freezeSpell 7 4 3 7 4 7 None;
   HPromotion 1 1 0 0 "Q"; HResign].

(** The notation and the compact token of the cast of a half-move, if it
    has one. *)
Definition castNotation (cast : option (SpellType * Z * Z)) : option string :=
  match cast with
  | Some (ty, r, c) =>
      Some (spellTypeName ty +:+ "@" +:+ algebraicFromCoords r c)
  | None => None
  end.

Definition castTokens (cast : option (SpellType * Z * Z)) : list string :=
  match cast with
  | Some (ty, r, c) => [spellToken ty r c]
  | None => []
  end.


(** *** Notions used in the properties of the engine *)

(** A square that a sliding piece passes: empty, or its piece jumpable. *)
Definition passable (o : option Piece) : bool :=
  match o with
  | Some p => p_isJumpable p
  | None => true
  end.

(** The two squares are on one rank, one file or one diagonal. *)
Definition aligned (fromR fromC toR toC : Z) : Prop :=
  fromR = toR \/ fromC = toC \/ Z.abs (toR - fromR) = Z.abs (toC - fromC).

(** The move was made: finalized, or waiting for the promotion piece. *)
Definition isAccepted (r : MoveResult) : bool :=
  match r with
  | MoveDone _ | MoveAwaiting _ _ => true
  | MoveError _ | MoveTypeError => false
  end.

(** The charges and cooldown markers of one player at turn [turnNumber]:
    within their bounds, and a marker is 0 exactly while the charges of
    that spell are untouched. *)
Definition chargesOk (turnNumber : Z) (ps : SpellState) : Prop :=
  0 <= jump ps <= 2 /\ 0 <= freeze ps <= 5
  /\ 0 <= jumpLastUsedTurn ps <= turnNumber
  /\ 0 <= freezeLastUsedTurn ps <= turnNumber
  /\ (jumpLastUsedTurn ps = 0 <-> jump ps = 2)
  /\ (freezeLastUsedTurn ps = 0 <-> freeze ps = 5).

(** The history and the move log agree: one snapshot more than entries,
    snapshot [k] was taken when the log had [k] entries, and entry [i]
    points at snapshot [i + 1]. *)
Definition historyAgrees (st : GameState) : Prop :=
  List.length (history st) = S (List.length (moveLog (cur st)))
  /\ (forall k snap,
        history st !! k = Some snap ->
        moveLog snap = take k (moveLog (cur st)))
  /\ (forall i e,
        moveLog (cur st) !! i = Some e ->
        plySnapshotIndex e = Z.of_nat i + 1).

(** The ply on which [player] moves in turn [turnNumber]. *)
Definition plyOf (turnNumber : Z) (player : Color) : Z :=
  2 * (turnNumber - 1) + match player with white => 0 | black => 1 end.

(** Entry [i] of the log was made on ply [i], and while the game is not
    over the state is at the ply of its counters, with one entry per
    ply. *)
Definition turnsAgree (st : GameState) : Prop :=
  (forall i e,
      moveLog (cur st) !! i = Some e -> Z.of_nat i = plyOf (turn e) (player e))
  /\ (isGameOver (cur st) = false ->
      plyCount (cur st)
      = plyOf (gameTurnNumber (cur st)) (currentPlayer (cur st))
      /\ Z.of_nat (List.length (moveLog (cur st))) = plyCount (cur st)
      /\ 1 <= gameTurnNumber (cur st)).

(** The player [opp] has no valid move between two squares of the board,
    in the position and with the en-passant target given. *)
Definition noValidMove (opp : Color) (s : GameSnapshot)
    (enPassantTarget : option Square) : Prop :=
  forall r c r' c',
    onBoard r c -> onBoard r' c' ->
    isValidMove r c r' c' (board s) opp enPassantTarget (castlingRights s)
      (activeSpells s) (plyCount s) = false.

(** The freeze of [ps] cannot be cast at turn [turnNumber]: no charge
    left, or still cooling down. *)
Definition freezeUnavailable (ps : SpellState) (turnNumber : Z) : Prop :=
  freeze ps <= 0
  \/ (freezeLastUsedTurn ps <> 0
      /\ turnNumber < freezeLastUsedTurn ps + SPELL_COOLDOWN_TURNS).

(** *** Notions used in the properties of the callers *)

(** The row stores the log and the end flag of the state. *)
Definition rowOf (st : GameState) (row : GameRow) : Prop :=
  compact_action_log row = buildCompactActionLog (moveLog (cur st))
  /\ is_game_over row = isGameOver (cur st).

(** The status written by the endpoint for the new state. *)
Definition statusAfter (old : RowStatus) (st : GameState) : RowStatus :=
  if isGameOver (cur st) then statusFinished
  else
    match old with
    | statusWaiting =>
        if plyCount (cur st) >? 0 then statusActive else statusWaiting
    | s => s
    end.

(** The zone of a freeze cast on [target], cut at the edges of the board. *)
Definition inFreezeZone (target : Square) (r c : Z) : Prop :=
  Z.max 0 (sq_r target - 1) <= r <= Z.min 7 (sq_r target + 1)
  /\ Z.max 0 (sq_c target - 1) <= c <= Z.min 7 (sq_c target + 1).

(** *** Invariants of the board *)

(** Every piece of the board satisfies [Q]. *)
Definition cellsAll (Q : Piece -> Prop) (b : Board) : Prop :=
  Forall (Forall (fun o => match o with Some p => Q p | None => True end)) b.

(** No two squares of the board hold pieces with the same id. *)
Definition idsUnique (b : Board) : Prop :=
  forall r c r' c' p p',
    cell b r c = Some p -> cell b r' c' = Some p' ->
    p_id p = p_id p' -> (r, c) = (r', c').

(** *** Active spells *)

(** Every active spell of the snapshot is still in force at its ply and
    expires at most two plies later. *)
Definition liveSpells (s : GameSnapshot) : Prop :=
  Forall (fun spell => plyCount s < expiresAtPly spell <= plyCount s + 2)
    (activeSpells s).

(** No move from [r],[c] is accepted in the snapshot, whoever is to move. *)
Definition blocked (s : GameSnapshot) (r c : Z) : Prop :=
  forall player toR toC, isValidMoveIn s player r c toR toC = false.

(** * Properties of the engine *)

Local Open Scope list_scope.

(** The large functions of the engine are unfolded on demand only. *)
Arguments isValidMove : simpl never.
Arguments isSquareAttacked : simpl never.
Arguments isKingInCheck : simpl never.
Arguments hasLegalMoves : simpl never.
Arguments gameEndDetection : simpl never.
Arguments generateStateSignature : simpl never.
Arguments generateMoveNotation : simpl never.
Arguments moveNotationOf : simpl never.
Arguments compactActionsOf : simpl never.
Arguments movedBoard : simpl never.
Arguments movedCastlingRights : simpl never.
Arguments algebraicFromCoords : simpl never.
Arguments parseAlgebraicToCoords : simpl never.
Arguments affectedIds : simpl never.

(** Splits every hypothesis that is a true boolean conjunction. *)
Ltac split_andb :=
  repeat match goal with
    | H : _ && _ = true |- _ => apply andb_true_iff in H as [? ?]
    end.

(** ** Loops, squares and board updates *)

Section Loops.
Context {A : Type}.
Implicit Types (f g : A -> bool) (l : list A).

Lemma anyb_true f l : anyb f l = true <-> exists x, x ∈ l /\ f x = true.
Proof.
  induction l as [|a l IH]; simpl.
  - split; [discriminate | intros (x & Hx & _); inversion Hx].
  - destruct (f a) eqn:Ha.
    + split; [|done]. intros _. exists a. split; [left | done].
    + rewrite IH. split.
      * intros (x & Hx & Hfx). exists x. split; [by right | done].
      * intros (x & Hx & Hfx). inversion Hx; subst; [congruence | eauto].
Qed.

Lemma anyb_false f l : anyb f l = false <-> forall x, x ∈ l -> f x = false.
Proof.
  split.
  - intros H x Hx. destruct (f x) eqn:Hfx; [|done].
    assert (anyb f l = true) by (apply anyb_true; eauto). congruence.
  - intros H. destruct (anyb f l) eqn:E; [|done].
    apply anyb_true in E as (x & Hx & Hfx). rewrite H in Hfx; done.
Qed.

Lemma anyb_ext f g l : (forall x, x ∈ l -> f x = g x) -> anyb f l = anyb g l.
Proof.
  induction l as [|a l IH]; simpl; intros H; [done|].
  rewrite (H a) by left. rewrite IH; [done|]. intros x Hx. apply H. by right.
Qed.


Lemma firstb_ext f g l :
  (forall x, x ∈ l -> f x = g x) -> firstb f l = firstb g l.
Proof.
  induction l as [|a l IH]; simpl; intros H; [done|].
  rewrite (H a) by left. rewrite IH; [done|]. intros x Hx. apply H. by right.
Qed.

Lemma firstb_Some f l x : firstb f l = Some x -> x ∈ l /\ f x = true.
Proof.
  induction l as [|a l IH]; simpl; [discriminate|].
  destruct (f a) eqn:Ha.
  - intros [= <-]. split; [left | done].
  - intros H. destruct (IH H). split; [by right | done].
Qed.

Lemma firstb_None f l : firstb f l = None <-> forall x, x ∈ l -> f x = false.
Proof.
  induction l as [|a l IH]; simpl.
  - split; [intros _ x Hx; inversion Hx | done].
  - destruct (f a) eqn:Ha.
    + split; [discriminate|]. intros H. rewrite H in Ha by left. done.
    + rewrite IH. split.
      * intros H x Hx. inversion Hx; subst; eauto.
      * intros H x Hx. apply H. by right.
Qed.

Lemma firstb_isSome f l : isSome (firstb f l) = anyb f l.
Proof. induction l as [|a l IH]; simpl; [done|]. by destruct (f a). Qed.
End Loops.

Lemma elem_of_range8 r : r ∈ range8 <-> 0 <= r < 8.
Proof.
  unfold range8. rewrite !elem_of_cons, elem_of_nil. lia.
Qed.

Lemma elem_of_squares r c : (r, c) ∈ squares <-> onBoard r c.
Proof.
  unfold squares, onBoard. rewrite list_elem_of_bind. split.
  - intros (r' & H & Hr). apply list_elem_of_bind in H as (c' & H & Hc).
    apply list_elem_of_singleton in H. injection H as -> ->.
    by rewrite <- !elem_of_range8.
  - intros [Hr Hc]. exists r. rewrite elem_of_range8. split; [|done].
    apply list_elem_of_bind. exists c. rewrite elem_of_range8.
    split; [|done]. by apply list_elem_of_singleton.
Qed.

Lemma cell_setCell_ne b r c v r' c' :
  (r, c) <> (r', c') -> cell (setCell b r c v) r' c' = cell b r' c'.
Proof.
  intros Hne. unfold cell, setCell.
  destruct ((0 <=? r) && (0 <=? c)) eqn:Hrc; [|done].
  destruct ((0 <=? r') && (0 <=? c')) eqn:Hrc'; [|done].
  apply andb_true_iff in Hrc as [Hr Hc], Hrc' as [Hr' Hc'].
  destruct (decide (r = r')) as [->|Hr''].
  - rewrite list_lookup_alter_eq. destruct (b !! Z.to_nat r') as [row|]; simpl; [|done].
    rewrite list_lookup_insert_ne; [done|]. intros E. apply Hne. f_equal. lia.
  - rewrite list_lookup_alter_ne; [done|]. lia.
Qed.

Lemma cell_setCell_eq b r c v :
  wfBoard b -> onBoard r c -> cell (setCell b r c v) r c = v.
Proof.
  intros [Hlen Hrows] [Hr Hc]. unfold cell, setCell.
  assert ((0 <=? r) && (0 <=? c) = true) as -> by lia.
  rewrite list_lookup_alter_eq.
  destruct (b !! Z.to_nat r) as [row|] eqn:Hrow; simpl.
  - assert (List.length row = 8%nat) as Hl.
    { eapply Forall_lookup_1 in Hrows; eauto. }
    rewrite list_lookup_insert_eq; [done | lia].
  - apply lookup_ge_None in Hrow. lia.
Qed.

Lemma wfBoard_setCell b r c v : wfBoard b -> wfBoard (setCell b r c v).
Proof.
  intros [Hlen Hrows]. unfold setCell.
  destruct ((0 <=? r) && (0 <=? c)); [|done]. split.
  - by rewrite length_alter.
  - apply Forall_alter; [done|]. intros row _ Hl. by rewrite length_insert.
Qed.

(** ** The shape of a finalized state *)

Lemma loggedState_eq ns mn mp fromR toR fromC toC sn :
  loggedState ns mn mp fromR toR fromC toC sn
  = let snap := finalizedSnapshot ns mn mp fromR toR fromC toC sn in
    (mkState snap (history ns) (repetitionCounter ns), gameEndMessage snap).
Proof.
  cbv beta zeta delta [loggedState finalizedSnapshot updateActiveSpells
                         deepCopyState].
  set (ns0 := with_cur (fun s => set_plyCount (plyCount s + 1) s) ns).
  change (plyCount (cur ns0)) with (plyCount (cur ns) + 1).
  change (activeSpells (cur ns0)) with (activeSpells (cur ns)).
  change (board (cur ns0)) with (board (cur ns)).
  destruct (updateActiveSpells_loop _ _ _) as [b still].
  set (ns1 := with_cur _ ns0).
  destruct (gameEndDetection ns1 (currentPlayer (cur ns))) as [[over msg] sym].
  cbn [fst snd]. destruct over; [reflexivity|].
  cbn [cur isGameOver with_cur set_isGameOver set_gameEndMessage
         set_enPassantTarget set_moveLog negb].
  destruct (currentPlayer (cur ns)); reflexivity.
Qed.

(** [_finalizeMove] pushes [finalizedSnapshot]; if the move did not end the
    game it counts the signature of that snapshot and declares the draw at
    the third occurrence. *)
Lemma finalizedState_eq ns mn mp fromR toR fromC toC sn :
  finalizedState ns mn mp fromR toR fromC toC sn
  = let snap := finalizedSnapshot ns mn mp fromR toR fromC toC sn in
    if isGameOver snap then
      mkState snap (history ns ++ [snap]) (repetitionCounter ns)
    else
      let sig := generateStateSignature snap in
      let n := default 0 (repetitionCounter ns !! sig) + 1 in
      mkState
        (if n >=? 3
         then set_gameEndMessage "Draw by threefold repetition."
                (set_isGameOver true snap)
         else snap)
        (history ns ++ [snap]) (<[sig := n]> (repetitionCounter ns)).
Proof.
  unfold finalizedState. rewrite loggedState_eq.
  cbv beta zeta. cbn [fst snd cur history repetitionCounter].
  set (snap := finalizedSnapshot ns mn mp fromR toR fromC toC sn).
  change (set_gameEndMessage (gameEndMessage snap) (createSnapshot _))
    with snap.
  unfold threefoldRepetition. cbn [cur history repetitionCounter].
  destruct (isGameOver snap); [reflexivity|]. cbn [negb].
  cbv zeta. by destruct (_ >=? 3).
Qed.

(** The fields of a finalized state that the spell update decides. *)
Lemma finalizedState_board ns mn mp fromR toR fromC toC sn :
  board (cur (finalizedState ns mn mp fromR toR fromC toC sn))
  = (updateActiveSpells_loop (plyCount (cur ns) + 1) (activeSpells (cur ns))
       (board (cur ns))).1
  /\ activeSpells (cur (finalizedState ns mn mp fromR toR fromC toC sn))
     = (updateActiveSpells_loop (plyCount (cur ns) + 1) (activeSpells (cur ns))
          (board (cur ns))).2
  /\ plyCount (cur (finalizedState ns mn mp fromR toR fromC toC sn))
     = plyCount (cur ns) + 1.
Proof.
  rewrite finalizedState_eq. cbv zeta.
  destruct (isGameOver _); [done|]. by destruct (_ >=? 3).
Qed.

(** ** Boards after a move and after the spell update *)


(** A found piece stands on a square of the board. *)
Lemma findSquareById_Some b id r c :
  findSquareById b id = Some (r, c) ->
  onBoard r c /\ exists p, cell b r c = Some p /\ p_id p = id.
Proof.
  unfold findSquareById. intros H. apply firstb_Some in H as [Hin H].
  apply elem_of_squares in Hin. split; [done|].
  destruct (cell b r c) as [p|]; [|done]. exists p. split; [done|].
  by apply String.eqb_eq.
Qed.

Lemma flagsCleared_refl b : flagsCleared b b.
Proof. intros r c. by left. Qed.

Lemma flagsCleared_trans b1 b2 b3 :
  flagsCleared b1 b2 -> flagsCleared b2 b3 -> flagsCleared b1 b3.
Proof.
  intros H12 H23 r c.
  destruct (H12 r c) as [E12|(p & Hp & E12)], (H23 r c) as [E23|(q & Hq & E23)].
  - left. congruence.
  - right. exists q. split; congruence.
  - right. exists p. split; congruence.
  - right. exists p. split; [done|]. rewrite E23.
    rewrite E12 in Hq. injection Hq as <-. done.
Qed.

Lemma clearJumpable_flagsCleared b id : flagsCleared b (clearJumpable b id).
Proof.
  unfold clearJumpable.
  destruct (findSquareById b id) as [[r c]|] eqn:Hf; [|apply flagsCleared_refl].
  destruct (cell b r c) as [p|] eqn:Hp; [|apply flagsCleared_refl].
  intros r' c'. destruct (decide ((r, c) = (r', c'))) as [E|E].
  - injection E as <- <-. right. exists p. split; [done|].
    unfold cell, setCell in *.
    apply findSquareById_Some in Hf as [[Hr Hc] _].
    assert ((0 <=? r) && (0 <=? c) = true) as Hnn by lia.
    rewrite Hnn in *. rewrite list_lookup_alter_eq.
    destruct (b !! Z.to_nat r) as [row|]; simpl; [|done].
    destruct (row !! Z.to_nat c) as [x|] eqn:Hx; [|done].
    rewrite list_lookup_insert_eq; [done|]. by eapply lookup_lt_Some.
  - left. by apply cell_setCell_ne.
Qed.

Lemma updateActiveSpells_loop_flagsCleared ply spells b :
  flagsCleared b (updateActiveSpells_loop ply spells b).1.
Proof.
  revert b. induction spells as [|spell rest IH]; intros b; simpl.
  - apply flagsCleared_refl.
  - destruct (ply >=? expiresAtPly spell).
    + eapply flagsCleared_trans; [|apply IH].
      destruct spell as [tid e|]; [|apply flagsCleared_refl].
      destruct (JS.truthy tid); [|apply flagsCleared_refl].
      apply clearJumpable_flagsCleared.
    + specialize (IH b).
      by destruct (updateActiveSpells_loop ply rest b).
Qed.

Lemma flagsCleared_type b b' r c p :
  flagsCleared b b' -> cell b r c = Some p ->
  exists p', cell b' r c = Some p'
             /\ p_type p' = p_type p /\ p_color p' = p_color p
             /\ p_id p' = p_id p /\ p_hasMoved p' = p_hasMoved p
             /\ p_isFrozen p' = p_isFrozen p.
Proof.
  intros H Hp. destruct (H r c) as [E|(q & Hq & E)].
  - exists p. by rewrite E.
  - rewrite Hp in Hq. injection Hq as <-. eauto 10.
Qed.


(** ** What [isValidMove] accepts *)

Lemma checkCastleConditions_eq kr kc tr tc b player cr spells ply ep :
  checkCastleConditions kr kc tr tc b player cr spells ply ep
  = castleConditions kr kc (tc >? kc) b player cr spells ply ep.
Proof.
  unfold checkCastleConditions, castleConditions, unmovedRook.
  destruct (cell b kr kc) as [king|]; [|done].
  destruct (p_hasMoved king); [done|].
  destruct (isKingInCheck player b ep spells ply); [done|]. simpl.
  destruct (tc >? kc).
  - destruct player; simpl;
      [destruct (white_K cr) | destruct (black_k cr)]; simpl; try done;
      (destruct (cell b kr 7) as [rk|]; simpl; [|done]);
      destruct (String.eqb (lowerType rk) "r"), (p_hasMoved rk); simpl; try done;
      destruct (cell b kr (kc + 1)), (cell b kr (kc + 2)); simpl; try done;
      destruct (isSquareAttacked kr (kc + 1) _ b ep spells ply); simpl; try done;
      by destruct (isSquareAttacked kr (kc + 2) _ b ep spells ply).
  - destruct player; simpl;
      [destruct (white_Q cr) | destruct (black_q cr)]; simpl; try done;
      (destruct (cell b kr 0) as [rk|]; simpl; [|done]);
      destruct (String.eqb (lowerType rk) "r"), (p_hasMoved rk); simpl; try done;
      destruct (cell b kr (kc - 1)), (cell b kr (kc - 2)), (cell b kr (kc - 3));
      simpl; try done;
      destruct (isSquareAttacked kr (kc - 1) _ b ep spells ply); simpl; try done;
      by destruct (isSquareAttacked kr (kc - 2) _ b ep spells ply).
Qed.

(** The structure of an accepted move: the moving piece belongs to the
    player and is not frozen, the target is not an own piece, and either
    the castling conditions hold, or the geometry is right and the move
    captures a king or passes the king-safety simulation. *)
Lemma isValidMove_eq fromR fromC toR toC b player ep cr spells ply :
  isValidMove fromR fromC toR toC b player ep cr spells ply
  = match cell b fromR fromC with
    | None => false
    | Some moving =>
        Color_eqb (p_color moving) player
        && negb (p_isFrozen moving)
        && negb (isSquareUnderActiveFreeze fromR fromC spells ply)
        && negb ((fromR =? toR) && (fromC =? toC))
        && negb match cell b toR toC with
                | Some tp => Color_eqb (p_color tp) (p_color moving)
                | None => false
                end
        && if isCastleAttempt moving fromR fromC toR toC then
             checkCastleConditions fromR fromC toR toC b player cr spells ply ep
           else
             geometryValid moving (cell b toR toC) fromR fromC toR toC b ep
             && (match cell b toR toC with
                 | Some tp => String.eqb (lowerType tp) "k"
                 | None => false
                 end
                 || match findKing (kingTypeOf player)
                            (simulateMove moving (cell b toR toC) fromR fromC
                               toR toC b ep) with
                    | None => true
                    | Some (kr, kc) =>
                        negb (isSquareAttacked kr kc (opponent player)
                                (simulateMove moving (cell b toR toC) fromR
                                   fromC toR toC b ep) None spells ply)
                    end)
    end.
Proof.
  unfold isValidMove, isCastleAttempt.
  destruct (cell b fromR fromC) as [moving|]; [|done].
  destruct (Color_eqb (p_color moving) player); simpl; [|done].
  destruct (p_isFrozen moving); simpl; [done|].
  destruct (isSquareUnderActiveFreeze fromR fromC spells ply); simpl; [done|].
  destruct ((fromR =? toR) && (fromC =? toC)); simpl; [done|].
  destruct (match cell b toR toC with Some _ => _ | None => _ end); simpl;
    [done|].
  destruct (_ && _ && _); [done|].
  destruct (geometryValid _ _ _ _ _ _ _ _); simpl; [|done].
  destruct (match cell b toR toC with Some _ => _ | None => _ end); simpl;
    [done|].
  destruct (findKing _ _) as [[kr kc]|]; done.
Qed.

(** ** What the public operations leave unchanged *)

Lemma sameBookkeeping_refl st : sameBookkeeping st st.
Proof. by repeat split. Qed.

Lemma applyMove_Done st fr fc tr tc sn pp st' :
  applyMove st fr fc tr tc sn pp = MoveDone st' ->
  isValidMoveIn (cur st) (currentPlayer (cur st)) fr fc tr tc = true
  /\ exists m b mn mp,
      cell (board (cur st)) fr fc = Some m
      /\ (b = movedBoard m (board (cur st)) (enPassantTarget (cur st)) fr fc tr tc
          \/ exists m', b = setCell (movedBoard m (board (cur st))
                                      (enPassantTarget (cur st)) fr fc tr tc)
                              tr tc (Some m'))
      /\ st' = finalizedState
                 (with_cur (fun s =>
                    set_board b
                      (set_castlingRights
                         (movedCastlingRights (set_hasMoved true m)
                            (castlingRights (cur st)) fr fc) s)) st)
                 mn mp fr tr fc tc sn.
Proof.
  unfold applyMove, deepCopyState, _finalizeMove. intros H.
  destruct (isValidMoveIn _ _ _ _ _ _) eqn:Hv; simpl in H; [|done].
  split; [done|].
  destruct (cell (board (cur st)) fr fc) as [m|]; [|done].
  destruct (_ && _ && _) in H.
  - destruct (truthyOpt pp); [|done]. injection H as <-.
    eexists m, _, _, _. split; [done|]. split; [right; eauto|]. done.
  - injection H as <-. eexists m, _, _, _. split; [done|]. split; [by left|]. done.
Qed.

Lemma applyMove_finalized st fr fc tr tc sn pp st' :
  applyMove st fr fc tr tc sn pp = MoveDone st' ->
  exists ns mn mp,
    sameBookkeeping st ns
    /\ st' = finalizedState ns mn mp fr tr fc tc sn.
Proof.
  intros H. apply applyMove_Done in H as (_ & m & b & mn & mp & _ & _ & ->).
  eexists _, mn, mp. split; [|reflexivity]. by repeat split.
Qed.

Lemma applyMove_Awaiting st fr fc tr tc sn pp st' ctx :
  applyMove st fr fc tr tc sn pp = MoveAwaiting st' ctx ->
  sameBookkeeping st st' /\ awaitingPromotion (cur st') = Some ctx.
Proof.
  unfold applyMove, deepCopyState, _finalizeMove. intros H.
  destruct (isValidMoveIn _ _ _ _ _ _); simpl in H; [|done].
  destruct (cell (board (cur st)) fr fc) as [m|]; [|done].
  destruct (_ && _ && _) in H; [|done].
  destruct (truthyOpt pp); [done|]. injection H as <- <-.
  split; [by repeat split | done].
Qed.

Lemma applyPromotion_finalized st pp sn st' :
  applyPromotion st pp sn = MoveDone st' ->
  exists ns mn mp fr tr fc tc,
    sameBookkeeping st ns
    /\ st' = finalizedState ns mn mp fr tr fc tc sn.
Proof.
  unfold applyPromotion, deepCopyState, _finalizeMove. intros H.
  destruct (awaitingPromotion (cur st)) as [promo|]; [|done].
  destruct (cell (board (cur st)) (ap_r promo) (ap_c promo)) as [p|]; [|done].
  injection H as <-. eexists _, _, _, _, _, _, _.
  split; [|reflexivity]. by repeat split.
Qed.

Lemma applySpell_Ok st ty r c st' n :
  applySpell st ty r c = SpellOk st' n ->
  canCastSpell st ty = true
  /\ currentPlayer (cur st') = currentPlayer (cur st)
  /\ gameTurnNumber (cur st') = gameTurnNumber (cur st)
  /\ plyCount (cur st') = plyCount (cur st)
  /\ isGameOver (cur st') = isGameOver (cur st)
  /\ gameEndMessage (cur st') = gameEndMessage (cur st)
  /\ history st' = history st
  /\ repetitionCounter st' = repetitionCounter st
  /\ moveLog (cur st') = moveLog (cur st)
  /\ let ps := spellsOf (spells (cur st)) (currentPlayer (cur st)) in
     let ps' := spellsOf (spells (cur st')) (currentPlayer (cur st)) in
     match ty with
     | jumpSpell =>
         jumpLastUsedTurn ps' = gameTurnNumber (cur st)
         /\ freeze ps' = freeze ps
         /\ freezeLastUsedTurn ps' = freezeLastUsedTurn ps
     | freezeSpell =>
         freezeLastUsedTurn ps' = gameTurnNumber (cur st)
         /\ jump ps' = jump ps
         /\ jumpLastUsedTurn ps' = jumpLastUsedTurn ps
     end.
Proof.
  unfold applySpell. destruct (canCastSpell st ty) eqn:Hc; simpl; [|done].
  unfold deepCopyState. destruct ty.
  - destruct (cell (board (cur st)) r c); [|done]. intros [= <- <-]. simpl.
    by destruct (currentPlayer (cur st)).
  - intros [= <- <-]. simpl. by destruct (currentPlayer (cur st)).
Qed.

Lemma applySpell_activeSpells st ty r c st' n :
  applySpell st ty r c = SpellOk st' n ->
  exists spell,
    activeSpells (cur st') = activeSpells (cur st) ++ [spell]
    /\ expiresAtPly spell = plyCount (cur st) + 2.
Proof.
  unfold applySpell, deepCopyState.
  destruct (canCastSpell st ty); simpl; [|done]. destruct ty.
  - destruct (cell (board (cur st)) r c); [|done]. intros [= <- <-].
    eexists. split; reflexivity.
  - intros [= <- <-]. eexists. split; reflexivity.
Qed.

(** ** Tokens *)

Lemma includes_append_false ch p s :
  JS.includes ch (p +:+ s) = false <->
  JS.includes ch p = false /\ JS.includes ch s = false.
Proof.
  induction p as [|a p IH]; simpl; [tauto|].
  destruct (Ascii.eqb a ch); [|done]. split; [done | by intros []].
Qed.

Lemma split_no_separator ch s : JS.includes ch s = false -> JS.split ch s = [s].
Proof.
  induction s as [|a s IH]; simpl; [done|].
  destruct (Ascii.eqb a ch); [done|]. intros H. by rewrite IH.
Qed.

Lemma split_at_separator ch p s :
  JS.includes ch p = false ->
  JS.split ch (p +:+ String ch s) = p :: JS.split ch s.
Proof.
  induction p as [|a p IH]; simpl.
  - by rewrite Ascii.eqb_refl.
  - destruct (Ascii.eqb a ch); [done|]. intros H. by rewrite IH.
Qed.

Lemma includes_append_separator ch p s :
  JS.includes ch (p +:+ String ch s) = true.
Proof.
  induction p as [|a p IH]; simpl; [by rewrite Ascii.eqb_refl|].
  by destruct (Ascii.eqb a ch).
Qed.

Lemma length_toUpperCase s : String.length (JS.toUpperCase s) = String.length s.
Proof. induction s; simpl; congruence. Qed.

(** A token containing the character at is not the resign token. *)
Lemma spell_token_not_resign action :
  JS.includes "@" action = true ->
  String.eqb (JS.toUpperCase action) "R" = false.
Proof.
  intros H. apply String.eqb_neq. intros E.
  assert (String.length action = 1%nat) as Hlen.
  { by rewrite <- length_toUpperCase, E. }
  destruct action as [|a [|? ?]]; try done.
  simpl in H. destruct (Ascii.eqb a "@") eqn:Ha; [|done].
  apply Ascii.eqb_eq in Ha. subst a. done.
Qed.

Lemma parseDigit_Some d n :
  JS.parseDigit d = Some n -> 0 <= n <= 9 /\ d = ascii_of_N (Z.to_N (48 + n)).
Proof.
  unfold JS.parseDigit.
  destruct ((48 <=? N_of_ascii d)%N && (N_of_ascii d <=? 57)%N) eqn:H; [|done].
  intros [= <-]. apply andb_true_iff in H as [H1 H2].
  apply N.leb_le in H1, H2. split; [lia|].
  replace (Z.to_N (48 + Z.of_N (N_of_ascii d - 48))) with (N_of_ascii d) by lia.
  by rewrite ascii_N_embedding.
Qed.

Lemma below_forall (P : Z -> Prop) k :
  Forall P (seqZ 0 k) -> forall n, 0 <= n < k -> P n.
Proof.
  intros H n Hn. rewrite Forall_forall in H. apply H, elem_of_seqZ. lia.
Qed.

Lemma onBoard_forall (P : Z -> Z -> Prop) :
  Forall (fun rc => P rc.1 rc.2) squares -> forall r c, onBoard r c -> P r c.
Proof.
  intros H r c Hrc. rewrite Forall_forall in H.
  apply (H (r, c)), elem_of_squares, Hrc.
Qed.

Lemma ofZ_digit n :
  0 <= n <= 9 -> JS.ofZ n = String (ascii_of_N (Z.to_N (48 + n))) EmptyString.
Proof.
  intros H. assert (0 <= n < 10) as H' by lia. clear H. revert n H'.
  apply (below_forall _ 10). by repeat constructor.
Qed.

(** [parseAlgebraicToCoords] accepts exactly the names of the squares of
    the board, and inverts [algebraicFromCoords]. *)
Lemma parseAlgebraicToCoords_Some alg sq :
  parseAlgebraicToCoords alg = Some sq <->
  onBoard (sq_r sq) (sq_c sq) /\ alg = algebraicFromCoords (sq_r sq) (sq_c sq).
Proof.
  split.
  - unfold parseAlgebraicToCoords.
    destruct alg as [|a [|d [|? ?]]]; try done.
    destruct (JS.parseDigit d) as [n|] eqn:Hd; [|done].
    apply parseDigit_Some in Hd as [Hn ->].
    destruct ((Z.of_N (N_of_ascii a) - 97 <? 0) || _ || _ || _) eqn:Hr; [done|].
    intros [= <-]. simpl. unfold onBoard, algebraicFromCoords, JS.fromCharCode.
    split; [lia|].
    replace (Z.to_N (97 + (Z.of_N (N_of_ascii a) - 97))) with (N_of_ascii a) by lia.
    rewrite ascii_N_embedding.
    replace (8 - (8 - n)) with n by lia. rewrite ofZ_digit by lia. done.
  - intros [[Hr Hc] ->]. destruct sq as [r c]. simpl in *.
    assert (onBoard r c) as Hrc by done. clear Hr Hc. revert r c Hrc.
    apply onBoard_forall. by repeat constructor.
Qed.

Lemma algebraicFromCoords_chars r c :
  onBoard r c ->
  algebraicFromCoords r c
  = String (ascii_of_N (Z.to_N (97 + c)))
      (String (ascii_of_N (Z.to_N (48 + (8 - r)))) EmptyString).
Proof.
  intros [Hr Hc]. unfold algebraicFromCoords, JS.fromCharCode.
  by rewrite ofZ_digit by lia.
Qed.

Lemma includes_algebraic ch r c :
  onBoard r c ->
  (N_of_ascii ch < 49 \/ 56 < N_of_ascii ch < 97 \/ 104 < N_of_ascii ch)%N ->
  JS.includes ch (algebraicFromCoords r c) = false.
Proof.
  intros Hrc Hch. rewrite algebraicFromCoords_chars by done.
  destruct Hrc as [Hr Hc].
  assert (forall n, (n < 256)%N -> n <> N_of_ascii ch ->
                    Ascii.eqb (ascii_of_N n) ch = false) as Hne.
  { intros n Hn Hneq. apply Ascii.eqb_neq. intros <-.
    by rewrite N_ascii_embedding in Hneq. }
  simpl. rewrite !Hne by lia. done.
Qed.

(** ** Reachable states by execution *)

Lemma onBoardb_true r c : onBoardb r c = true -> onBoard r c.
Proof. unfold onBoardb, onBoard. lia. Qed.

Lemma playOp_reachable st op st' :
  reachable st -> playOp st op = Some st' -> reachable st'.
Proof.
  intros Hr. destruct op as [ty r c|fr fc tr tc sn pp|pp sn|]; simpl.
  - destruct (onBoardb r c) eqn:Hb; [|done]. apply onBoardb_true in Hb.
    destruct (applySpell st ty r c) as [s n|] eqn:Hs; [|done].
    intros [= <-]. exact (reach_spell st ty r c s n Hr Hb Hs).
  - destruct (onBoardb fr fc && onBoardb tr tc) eqn:Hb; [|done].
    apply andb_true_iff in Hb as [Hf Ht].
    apply onBoardb_true in Hf, Ht.
    destruct (applyMove st fr fc tr tc sn pp) as [s|s ctx| |] eqn:Hm; try done.
    + intros [= <-]. exact (reach_move st fr fc tr tc sn pp s Hr Hf Ht Hm).
    + intros [= <-].
      exact (reach_move_awaiting st fr fc tr tc sn pp s ctx Hr Hf Ht Hm).
  - destruct (applyPromotion st pp sn) as [s| | |] eqn:Hp; try done.
    intros [= <-]. exact (reach_promotion st pp sn s Hr Hp).
  - intros [= <-]. by apply reach_resign.
Qed.

Lemma playOps_reachable st ops st' :
  reachable st -> playOps st ops = Some st' -> reachable st'.
Proof.
  revert st. induction ops as [|op rest IH]; intros st Hr; simpl.
  - by intros [= <-].
  - destruct (playOp st op) as [s|] eqn:Hop; [|done].
    apply IH. by eapply playOp_reachable.
Qed.

Lemma played_reachable seq ops :
  isSome (playOps (createInitialGameState seq) ops) = true ->
  reachable (played seq ops).
Proof.
  unfold played.
  destruct (playOps (createInitialGameState seq) ops) as [st|] eqn:Hp; [|done].
  intros _. eapply playOps_reachable; [apply reach_init | exact Hp].
Qed.

(** ** Actions on a finished game *)

Lemma isValidMove_moving fromR fromC toR toC b player ep cr spells ply :
  isValidMove fromR fromC toR toC b player ep cr spells ply = true ->
  exists moving,
    cell b fromR fromC = Some moving
    /\ p_color moving = player
    /\ p_isFrozen moving = false
    /\ isSquareUnderActiveFreeze fromR fromC spells ply = false
    /\ (fromR, fromC) <> (toR, toC)
    /\ (forall tp, cell b toR toC = Some tp -> p_color tp <> p_color moving).
Proof.
  unfold isValidMove. destruct (cell b fromR fromC) as [moving|]; [|done].
  destruct (Color_eqb (p_color moving) player) eqn:Hcol; simpl; [|done].
  destruct (p_isFrozen moving) eqn:Hfr; simpl; [done|].
  destruct (isSquareUnderActiveFreeze fromR fromC spells ply) eqn:Hz; [done|].
  destruct ((fromR =? toR) && (fromC =? toC)) eqn:Hsame; [done|].
  intros H. exists moving. repeat split; try done.
  - by destruct (p_color moving), player.
  - intros [= -> ->]. rewrite !Z.eqb_refl in Hsame. done.
  - intros tp Htp Hc. rewrite Htp, Hc in H.
    by destruct (p_color moving).
Qed.


Lemma applySpell_error st ty r c :
  isSpellError (applySpell st ty r c)
  = negb (canCastSpell st ty)
    || match ty with
       | jumpSpell => negb (isSome (cell (board (cur st)) r c))
       | freezeSpell => false
       end.
Proof.
  unfold applySpell. destruct (canCastSpell st ty); simpl; [|done].
  destruct ty; [|done]. unfold deepCopyState.
  by destruct (cell (board (cur st)) r c).
Qed.








(** ** Spell tokens in the replay driver *)

Lemma replay_loop_spell st pending action rest :
  isGameOver (cur st) = false ->
  JS.includes "@" action = true ->
  replay_loop st pending (action :: rest)
  = match replaySpell st action with
    | inl (st', notation) => replay_loop st' (Some notation) rest
    | inr message => ReplayThrow message
    end.
Proof.
  intros Hover Hat. simpl.
  by rewrite Hover, spell_token_not_resign, Hat.
Qed.

(** C6: the replay driver does not reject two consecutive spell tokens.
    A jump token followed at once by a freeze token is replayed without
    error and both spells are cast: White has spent a jump and a freeze
    and both are active.  The move that follows is logged with the freeze
    alone, the pending jump notation having been overwritten, so the log
    rebuilt from the state is no longer the log that was replayed, and
    replaying the rebuilt log gives a state in which the jump was never
    cast. *)
Lemma consecutive_spell_tokens_replayed :
  let log := ["j@e2"; "f@e4"; "e2-e4"] in
  let st := replayedState 0 log in
  let rebuilt := buildCompactActionLog (moveLog (cur st)) in
  isReplayThrow (replayCompactActions 0 log) = false
  /\ map actions (moveLog (cur st)) = [["f@e4"; "e2-e4"]]
  /\ jump (spells_white (spells (cur st))) = 1
  /\ freeze (spells_white (spells (cur st))) = 4
  /\ activeSpells (cur st)
     = [ActiveJump "p-6-4-21" 2; ActiveFreeze (mkSquare 4 4) [] 2]
  /\ rebuilt = "f@e4,e2-e4"
  /\ jump (spells_white
             (spells (cur (replayedState 0 (splitCompactActionLog rebuilt)))))
     = 2.
Proof. repeat split; vm_compute; reflexivity. Qed.

(** How far the slip goes.  A spell token is replayed in the same way
    whether or not a spell notation is already pending: the pending
    notation is overwritten and never inspected.  Two consecutive spell
    tokens raise an error only through the second cast itself: after a
    successful cast the same kind of spell is on cooldown (turn numbers
    being at least 1), so a second cast of that kind fails, while the
    other kind is castable exactly when it was before the first cast. *)
Lemma second_spell_token_overwrites_pending st :
  (forall pending action rest,
      JS.includes "@" action = true ->
      replay_loop st (Some pending) (action :: rest)
      = replay_loop st None (action :: rest))
  /\ (forall ty r c st' n,
      gameTurnNumber (cur st) <> 0 ->
      applySpell st ty r c = SpellOk st' n ->
      (forall r' c', isSpellError (applySpell st' ty r' c') = true)
      /\ canCastSpell st' (otherSpell ty) = canCastSpell st (otherSpell ty)).
Proof.
  split.
  - intros pending action rest Hat. simpl.
    destruct (isGameOver (cur st)); [done|].
    by rewrite spell_token_not_resign, Hat.
  - intros ty r c st' n Hturn Hok.
    apply applySpell_Ok in Hok
      as (_ & Hp & Ht & _ & _ & _ & _ & _ & _ & Hps).
    split.
    + intros r' c'. rewrite applySpell_error.
      apply orb_true_iff. left. apply negb_true_iff.
      unfold canCastSpell, isSpellOnCooldown, SPELL_COOLDOWN_TURNS.
      rewrite Hp, Ht. simpl in Hps.
      destruct ty; destruct Hps as (-> & _ & _);
        repeat case_match; try done; lia.
    + unfold canCastSpell, isSpellOnCooldown. rewrite Hp, Ht. simpl in Hps.
      by destruct ty; destruct Hps as (_ & -> & ->).
Qed.

Lemma second_spell_token_overwrites_pending_witness :
  let st := createInitialGameState 0 in
  (JS.includes "@" "f@e4" = true
   /\ replay_loop st (Some "jump@e2") ["f@e4"]
      = replay_loop st None ["f@e4"])
  /\ (gameTurnNumber (cur st) <> 0
      /\ match applySpell st jumpSpell 6 4 with
         | SpellOk st' _ =>
             isSpellError (applySpell st' jumpSpell 6 3) = true
             /\ canCastSpell st' freezeSpell = canCastSpell st freezeSpell
         | SpellError _ => False
         end).
Proof.
  intros st. split; split.
  - reflexivity.
  - exact (proj1 (second_spell_token_overwrites_pending st)
             "jump@e2" "f@e4" [] eq_refl).
  - discriminate.
  - assert (isSpellError (applySpell st jumpSpell 6 4) = false) as Hs
      by (vm_compute; reflexivity).
    destruct (applySpell st jumpSpell 6 4) as [st' n|e] eqn:Hok;
      [|discriminate Hs].
    destruct (proj2 (second_spell_token_overwrites_pending st)
                jumpSpell 6 4 st' n ltac:(discriminate) Hok) as [H1 H2].
    split; [apply H1 | exact H2].
Defined.

(** C9: in replay, a token [prefix@square] whose prefix contains no [@]
    and is neither [j] nor [jump] is a freeze cast on that square,
    whatever the prefix: the square alone is validated (an invalid square
    raises the invalid-action error), and the cast succeeds whenever a
    freeze is castable. *)
Theorem replay_spell_prefix_defaults_to_freeze st pending prefix sq rest :
  isGameOver (cur st) = false ->
  JS.includes "@" prefix = false ->
  JS.includes "@" sq = false ->
  prefix <> "j" -> prefix <> "jump" ->
  replay_loop st pending ((prefix +:+ "@" +:+ sq) :: rest)
  = match parseAlgebraicToCoords sq with
    | None => ReplayThrow ("Invalid spell action: " +:+ prefix +:+ "@" +:+ sq)
    | Some coords =>
        match applySpell st freezeSpell (sq_r coords) (sq_c coords) with
        | SpellOk st' notation => replay_loop st' (Some notation) rest
        | SpellError error => ReplayThrow ("Spell failed: " +:+ error)
        end
    end
  /\ (forall coords,
        parseAlgebraicToCoords sq = Some coords ->
        canCastSpell st freezeSpell = true ->
        isSpellError (applySpell st freezeSpell (sq_r coords) (sq_c coords))
        = false).
Proof.
  intros Hover Hprefix Hsq Hj Hjump. split.
  - rewrite replay_loop_spell; [|done|apply includes_append_separator].
    unfold replaySpell. change ("@" +:+ sq) with (String "@" sq).
    rewrite split_at_separator, split_no_separator by done. simpl.
    apply String.eqb_neq in Hj, Hjump. rewrite Hj, Hjump. simpl.
    destruct (parseAlgebraicToCoords sq) as [coords|]; [|done].
    by destruct (applySpell st freezeSpell (sq_r coords) (sq_c coords)).
  - intros coords _ Hcast. rewrite applySpell_error, Hcast. done.
Qed.

Lemma replay_spell_prefix_defaults_to_freeze_witness :
  let st := createInitialGameState 0 in
  replay_loop st None ["x@e4"]
  = match parseAlgebraicToCoords "e4" with
    | None => ReplayThrow "Invalid spell action: x@e4"
    | Some coords =>
        match applySpell st freezeSpell (sq_r coords) (sq_c coords) with
        | SpellOk st' notation => replay_loop st' (Some notation) []
        | SpellError error => ReplayThrow ("Spell failed: " +:+ error)
        end
    end.
Proof.
  intros st.
  refine (proj1 (replay_spell_prefix_defaults_to_freeze st None "x" "e4" []
                   eq_refl eq_refl eq_refl _ _)); discriminate.
Defined.

(** ** Moves while a promotion is pending *)

Lemma mapLast_snoc {A} (f : A -> A) l x : mapLast f (l ++ [x]) = l ++ [f x].
Proof.
  induction l as [|a l IH]; simpl; [done|].
  rewrite IH. by destruct l.
Qed.

Lemma updateActiveSpells_withPending ap st :
  updateActiveSpells (withPending ap st) = withPending ap (updateActiveSpells st).
Proof.
  unfold updateActiveSpells, withPending, deepCopyState.
  cbn [cur with_cur plyCount activeSpells board set_awaitingPromotion].
  by destruct (updateActiveSpells_loop _ _ _).
Qed.

Lemma gameEndDetection_withPending ap st player :
  gameEndDetection (withPending ap st) player = gameEndDetection st player.
Proof. reflexivity. Qed.

Lemma finalizedSnapshot_withPending ap ns mn mp fromR toR fromC toC sn :
  finalizedSnapshot (withPending ap ns) mn mp fromR toR fromC toC sn
  = set_awaitingPromotion ap
      (finalizedSnapshot ns mn mp fromR toR fromC toC sn).
Proof.
  unfold finalizedSnapshot.
  change (with_cur ?f (withPending ap ns)) with (withPending ap (with_cur f ns)).
  rewrite updateActiveSpells_withPending, gameEndDetection_withPending.
  reflexivity.
Qed.

Lemma generateStateSignature_pending ap s :
  generateStateSignature (set_awaitingPromotion ap s) = generateStateSignature s.
Proof. reflexivity. Qed.

Lemma finalizedState_withPending ap ns mn mp fromR toR fromC toC sn :
  MoveDone (finalizedState (withPending ap ns) mn mp fromR toR fromC toC sn)
  = carryPending ap
      (MoveDone (finalizedState (withPending None ns) mn mp fromR toR fromC toC sn)).
Proof.
  unfold carryPending. f_equal.
  rewrite !finalizedState_eq, !finalizedSnapshot_withPending. cbv zeta.
  set (snap := finalizedSnapshot ns mn mp fromR toR fromC toC sn).
  rewrite !generateStateSignature_pending.
  change (isGameOver (set_awaitingPromotion _ snap)) with (isGameOver snap).
  change (history (withPending _ ns)) with (history ns).
  change (repetitionCounter (withPending _ ns)) with (repetitionCounter ns).
  destruct (isGameOver snap).
  - cbn [cur history repetitionCounter]. by rewrite mapLast_snoc.
  - destruct (_ >=? 3); cbn [cur history repetitionCounter];
      by rewrite mapLast_snoc.
Qed.

Lemma applyMove_withPending ap st fr fc tr tc sn pp :
  applyMove (withPending ap st) fr fc tr tc sn pp
  = carryPending ap (applyMove (withPending None st) fr fc tr tc sn pp).
Proof.
  unfold applyMove, deepCopyState, _finalizeMove.
  change (isValidMoveIn (cur (withPending ?a st))
            (currentPlayer (cur (withPending ?a st))) fr fc tr tc)
    with (isValidMoveIn (cur st) (currentPlayer (cur st)) fr fc tr tc).
  destruct (isValidMoveIn (cur st) (currentPlayer (cur st)) fr fc tr tc);
    simpl; [|done].
  destruct (cell (board (cur st)) fr fc) as [m|]; [|done].
  change (moveNotationOf (withPending ?a st) m fr fc tr tc)
    with (moveNotationOf st m fr fc tr tc).
  set (mn := moveNotationOf st m fr fc tr tc).
  set (b := movedBoard m (board (cur st)) (enPassantTarget (cur st)) fr fc tr tc).
  set (cr := movedCastlingRights (set_hasMoved true m) (castlingRights (cur st)) fr fc).
  set (ns := with_cur (fun s => set_castlingRights cr (set_board b s)) st).
  change (with_cur (fun s => set_castlingRights cr (set_board b s))
            (withPending ?a st))
    with (withPending a ns).
  destruct (negb (isCastleMove (set_hasMoved true m) fc tc)
            && String.eqb (lowerType (set_hasMoved true m)) "p"
            && ((tr =? 0) || (tr =? 7))).
  - destruct (truthyOpt pp).
    + set (m' := set_type _ _).
      change (with_cur (fun s => set_board (setCell (board s) tr tc (Some m')) s)
                (withPending ?a ns))
        with (withPending a
                (with_cur (fun s => set_board (setCell (board s) tr tc (Some m')) s)
                   ns)).
      apply finalizedState_withPending.
    + done.
  - apply finalizedState_withPending.
Qed.

(** A pawn standing on its last rank cannot move to a square of the
    board. *)
Lemma lastRank_pawn_stuck p target fromC toR toC b ep :
  lowerType p = "p" -> 0 <= toR < 8 ->
  geometryValid p target (lastRank (p_color p)) fromC toR toC b ep = false.
Proof.
  intros Hp Hto. unfold geometryValid. rewrite Hp. simpl.
  destruct (p_color p); simpl;
    repeat match goal with
      | |- context [(toR =? ?x)] =>
          let E := fresh in destruct (toR =? x) eqn:E; [lia|]; simpl
      end; done.
Qed.

(** An own pawn on its last rank is still there, unchanged, on the board a
    valid move of another piece produces. *)
Lemma movedBoard_keeps_lastRank_pawn s player fr fc tr tc m r c p :
  isValidMoveIn s player fr fc tr tc = true ->
  onBoard tr tc ->
  cell (board s) fr fc = Some m ->
  cell (board s) r c = Some p ->
  p_color p = player -> lowerType p = "p" -> r = lastRank (p_color p) ->
  (r, c) <> (tr, tc)
  /\ cell (movedBoard m (board s) (enPassantTarget s) fr fc tr tc) r c = Some p.
Proof.
  intros Hv [Htr Htc] Hm Hp Hcol Hty Hr.
  unfold isValidMoveIn in Hv. rewrite isValidMove_eq, Hm in Hv.
  apply andb_true_iff in Hv as [Hv Hrest].
  repeat (apply andb_true_iff in Hv as [Hv ?]).
  assert (p_color m = player) as Hmcol.
  { by destruct (p_color m), player. }
  assert ((r, c) <> (tr, tc)) as Hto.
  { intros [= <- <-]. rewrite Hp, Hcol, Hmcol in *. by destruct player. }
  assert ((r, c) <> (fr, fc)) as Hfrom.
  { intros [= <- <-]. assert (m = p) as -> by congruence.
    unfold isCastleAttempt in Hrest. rewrite Hty in Hrest. simpl in Hrest.
    rewrite Hr, lastRank_pawn_stuck in Hrest by done. done. }
  split; [done|]. unfold movedBoard.
  rewrite !cell_setCell_ne by done.
  destruct (isCastleAttempt m fr fc tr tc) eqn:Hca.
  - (* castling *)
    unfold isCastleAttempt in Hca.
    repeat (apply andb_true_iff in Hca as [Hca ?]).
    assert (isEnPassantMove m (castleRookBoard m (board s) fr fc tc)
              (enPassantTarget s) fc tr tc = false) as ->.
    { unfold isEnPassantMove. apply String.eqb_eq in Hca. by rewrite Hca. }
    unfold castleRookBoard, isCastleMove.
    rewrite Hca. replace (Z.abs (fc - tc)) with (Z.abs (tc - fc)) by lia.
    assert (Z.abs (tc - fc) = 2) as Habs by lia.
    rewrite Habs. simpl.
    rewrite checkCastleConditions_eq in Hrest.
    unfold castleConditions in Hrest. rewrite Hm in Hrest.
    destruct (tc >? fc) eqn:Hside; split_andb.
    + destruct (cell (board s) fr 7) as [rook|] eqn:Hrook; [|done].
      rewrite !cell_setCell_ne; [done| |].
      * intros [= <- <-]. replace (tc - 1) with (fc + 1) in * by lia.
        match goal with
        | H : negb (isSome (cell _ _ (fc + 1))) = true |- _ =>
            by rewrite Hp in H
        end.
      * intros [= <- <-]. rewrite Hp in Hrook. injection Hrook as <-.
        simpl in *. by rewrite Hty in *.
    + destruct (cell (board s) fr 0) as [rook|] eqn:Hrook; [|done].
      rewrite !cell_setCell_ne; [done| |].
      * intros [= <- <-]. replace (tc + 1) with (fc - 1) in * by lia.
        match goal with
        | H : negb (isSome (cell _ _ (fc - 1))) = true |- _ =>
            by rewrite Hp in H
        end.
      * intros [= <- <-]. rewrite Hp in Hrook. injection Hrook as <-.
        simpl in *. by rewrite Hty in *.
  - (* not castling *)
    apply andb_true_iff in Hrest as [Hgeo _].
    assert (castleRookBoard m (board s) fr fc tc = board s) as ->.
    { unfold castleRookBoard, isCastleMove.
      destruct (String.eqb (lowerType m) "k") eqn:Hk; simpl; [|done].
      destruct (Z.abs (fc - tc) =? 2) eqn:Habs; [|done].
      exfalso. unfold geometryValid in Hgeo.
      apply String.eqb_eq in Hk. rewrite Hk in Hgeo. simpl in Hgeo.
      apply andb_true_iff in Hgeo as [_ Hdc]. lia. }
    destruct (isEnPassantMove m (board s) (enPassantTarget s) fc tr tc)
      eqn:Hep; [|done].
    rewrite cell_setCell_ne; [done|].
    intros [= <- <-]. exfalso.
    unfold isEnPassantMove in Hep.
    repeat (apply andb_true_iff in Hep as [Hep ?]).
    apply String.eqb_eq in Hep.
    unfold geometryValid in Hgeo. rewrite Hep in Hgeo. simpl in Hgeo.
    destruct (cell (board s) tr tc); [done|]. simpl in Hgeo.
    rewrite Hp in Hgeo.
    rewrite Hcol, Hmcol in Hgeo.
    replace (Color_eqb player player) with true in Hgeo by (by destruct player).
    rewrite Hty in Hgeo. simpl in Hgeo.
    repeat match type of Hgeo with
      | context [if ?x then _ else _] =>
          destruct x eqn:?; split_andb; try done; try lia
      end.
Qed.

(** C10: [applyMove] never reads [awaitingPromotion].  Applied to a state
    with a pending promotion it returns what it returns on the same state
    with no promotion pending, the pending record being merely carried
    along (an error stays the same error, a new pending promotion replaces
    the old one); and after an accepted move the un-promoted pawn of the
    player, still on its last rank, has kept its type. *)
Theorem applyMove_ignores_pending_promotion st ap fr fc tr tc sn pp :
  applyMove (withPending ap st) fr fc tr tc sn pp
  = carryPending ap (applyMove (withPending None st) fr fc tr tc sn pp)
  /\ (forall ctx st' p,
        ap = Some ctx -> onBoard tr tc ->
        cell (board (cur st)) (ap_r ctx) (ap_c ctx) = Some p ->
        lowerType p = "p" -> p_color p = currentPlayer (cur st) ->
        ap_r ctx = lastRank (p_color p) ->
        applyMove (withPending ap st) fr fc tr tc sn pp = MoveDone st' ->
        exists p',
          cell (board (cur st')) (ap_r ctx) (ap_c ctx) = Some p'
          /\ p_type p' = p_type p /\ p_color p' = p_color p).
Proof.
  split; [apply applyMove_withPending|].
  intros ctx st' p -> Hto Hp Hty Hcol Hr Hdone.
  apply applyMove_Done in Hdone as (Hv & m & b & mn & mp & Hm & Hb & ->).
  simpl in Hv, Hm, Hb.
  destruct (movedBoard_keeps_lastRank_pawn (cur st) (currentPlayer (cur st))
              fr fc tr tc m (ap_r ctx) (ap_c ctx) p) as [Hne Hkeep]; try done.
  assert (cell b (ap_r ctx) (ap_c ctx) = Some p) as Hb'.
  { destruct Hb as [->|[m' ->]]; [done|].
    rewrite cell_setCell_ne; [done|]. congruence. }
  match goal with
  | |- context [board (cur (finalizedState ?ns ?a1 ?a2 ?a3 ?a4 ?a5 ?a6 ?a7))] =>
      destruct (finalizedState_board ns a1 a2 a3 a4 a5 a6 a7) as (-> & _ & _)
  end.
  simpl.
  destruct (flagsCleared_type b
              (updateActiveSpells_loop (plyCount (cur st) + 1)
                 (activeSpells (cur st)) b).1 (ap_r ctx) (ap_c ctx) p)
    as (p' & Hp' & Ht & Hc & _); [apply updateActiveSpells_loop_flagsCleared|done|].
  eauto.
Qed.

Lemma applyMove_ignores_pending_promotion_witness :
  let st := pendingPromotionState in
  let pawn := mkPiece "P" white "p-6-0-17" false false true in
  let ctx := mkAwaitingPromotion 0 0 white "bxa8" pawn 1 1 in
  awaitingPromotion (cur st) = Some ctx
  /\ cell (board (cur st)) 0 0 = Some pawn
  /\ exists st' p',
      applyMove (withPending (Some ctx) st) 7 6 5 5 None None = MoveDone st'
      /\ cell (board (cur st')) 0 0 = Some p' /\ p_type p' = "P".
Proof.
  intros st pawn ctx.
  split; [vm_compute; reflexivity|]. split; [vm_compute; reflexivity|].
  assert (isMoveDone (applyMove (withPending (Some ctx) st) 7 6 5 5 None None)
          = true) as Hd by (vm_compute; reflexivity).
  destruct (applyMove (withPending (Some ctx) st) 7 6 5 5 None None)
    as [st'| | |] eqn:Hdone; [|discriminate Hd..].
  destruct (proj2 (applyMove_ignores_pending_promotion st (Some ctx)
                     7 6 5 5 None None) ctx st' pawn)
    as (p' & Hp' & Hty & _).
  - reflexivity.
  - unfold onBoard. lia.
  - vm_compute. reflexivity.
  - reflexivity.
  - vm_compute. reflexivity.
  - reflexivity.
  - exact Hdone.
  - exists st', p'. split; [reflexivity|]. split; [exact Hp' | exact Hty].
Defined.

(** ** Lifetime of the active spells *)

Lemma updateActiveSpells_loop_unexpired ply spells b :
  Forall (fun sp => ply < expiresAtPly sp)
    (updateActiveSpells_loop ply spells b).2.
Proof.
  revert b. induction spells as [|spell rest IH]; intros b; simpl; [done|].
  destruct (ply >=? expiresAtPly spell) eqn:He; [apply IH|].
  specialize (IH b). destruct (updateActiveSpells_loop ply rest b).
  simpl in *. constructor; [lia | done].
Qed.

Lemma flagsCleared_findSquareById b b' id :
  flagsCleared b b' -> findSquareById b' id = findSquareById b id.
Proof.
  intros H. unfold findSquareById. apply firstb_ext. intros [r c] _.
  destruct (H r c) as [->|(p & -> & ->)]; done.
Qed.

Lemma flagsCleared_jumpCleared b b' id :
  flagsCleared b b' -> jumpCleared b id -> jumpCleared b' id.
Proof.
  intros H Hc p. unfold jumpCleared, findPieceById in *.
  rewrite (flagsCleared_findSquareById b b') by done.
  destruct (findSquareById b id) as [[r c]|]; [|done].
  destruct (H r c) as [->|(q & Hq & ->)]; [apply Hc|].
  by intros [= <-].
Qed.

Lemma clearJumpable_jumpCleared b id : jumpCleared (clearJumpable b id) id.
Proof.
  intros p. unfold findPieceById.
  rewrite (flagsCleared_findSquareById b) by apply clearJumpable_flagsCleared.
  unfold clearJumpable.
  destruct (findSquareById b id) as [[r c]|] eqn:Hf; [|done].
  destruct (cell b r c) as [q|] eqn:Hq; [|by rewrite Hq].
  apply findSquareById_Some in Hf as [[Hr Hc] _].
  unfold cell, setCell in *.
  assert ((0 <=? r) && (0 <=? c) = true) as Hnn by lia.
  rewrite Hnn in *. rewrite list_lookup_alter_eq.
  destruct (b !! Z.to_nat r) as [row|]; simpl; [|done].
  destruct (row !! Z.to_nat c) as [x|] eqn:Hx; [|done].
  rewrite list_lookup_insert_eq by (by eapply lookup_lt_Some).
  by intros [= <-].
Qed.

Lemma updateActiveSpells_loop_jumpCleared ply spells b id e :
  ActiveJump id e ∈ spells -> e <= ply -> id <> "" ->
  jumpCleared (updateActiveSpells_loop ply spells b).1 id.
Proof.
  intros Hin He Hid. revert b.
  induction spells as [|spell rest IH]; intros b; [by inversion Hin|].
  simpl. apply elem_of_cons in Hin as [<-|Hin].
  - simpl. assert ((ply >=? e) = true) as -> by lia.
    assert (JS.truthy id = true) as -> by (by destruct id).
    eapply flagsCleared_jumpCleared;
      [apply updateActiveSpells_loop_flagsCleared
      |apply clearJumpable_jumpCleared].
  - destruct (ply >=? expiresAtPly spell); [by apply IH|].
    specialize (IH Hin b). by destruct (updateActiveSpells_loop ply rest b).
Qed.

(** In every reachable state the active spells have not expired. *)
Lemma reachable_unexpired st :
  reachable st ->
  Forall (fun sp => plyCount (cur st) < expiresAtPly sp) (activeSpells (cur st)).
Proof.
  assert (forall ns mn mp fr tr fc tc sn,
             let st' := finalizedState ns mn mp fr tr fc tc sn in
             Forall (fun sp => plyCount (cur st') < expiresAtPly sp)
               (activeSpells (cur st'))) as Hfin.
  { intros. subst st'.
    destruct (finalizedState_board ns mn mp fr tr fc tc sn) as (_ & -> & ->).
    apply updateActiveSpells_loop_unexpired. }
  induction 1 as [seq|st ty r c st' n _ IH _ Hs
                 |st fr fc tr tc sn pp st' _ IH _ _ Hm
                 |st fr fc tr tc sn pp st' ctx _ IH _ _ Hm
                 |st pp sn st' _ IH Hp|st _ IH].
  - unfold createInitialGameState.
    destruct (initialRows 0 INITIAL_BOARD_SETUP seq) as [b ?]. simpl.
    constructor.
  - pose proof Hs as Hs'.
    apply applySpell_Ok in Hs' as (_ & _ & _ & -> & _).
    apply applySpell_activeSpells in Hs as (spell & -> & Hexp).
    apply Forall_app. split; [done|]. constructor; [lia | done].
  - apply applyMove_finalized in Hm as (ns & mn & mp & _ & ->). apply Hfin.
  - apply applyMove_Awaiting in Hm as [(_ & _ & -> & -> & _) _]. done.
  - apply applyPromotion_finalized in Hp
      as (ns & mn & mp & fr & tr & fc & tc & _ & ->). apply Hfin.
  - done.
Qed.

(** C8: in every state reachable by successful public operations each
    active spell satisfies [expiresAtPly > plyCount]; and when finalization
    removes an expired jump spell (its expiry is at most the incremented
    ply count), the piece found under its target id, if there is one, is no
    longer jumpable in the finalized state. *)
Theorem active_spells_lifetime :
  (forall st,
      reachable st ->
      Forall (fun sp => plyCount (cur st) < expiresAtPly sp)
        (activeSpells (cur st)))
  /\ (forall ns mn mp fromR toR fromC toC sn id e p,
        ActiveJump id e ∈ activeSpells (cur ns) ->
        e <= plyCount (cur ns) + 1 -> id <> "" ->
        let st' := finalizedState ns mn mp fromR toR fromC toC sn in
        (ActiveJump id e ∉ activeSpells (cur st'))
        /\ (findPieceById (board (cur st')) id = Some p ->
            p_isJumpable p = false)).
Proof.
  split; [apply reachable_unexpired|].
  intros ns mn mp fromR toR fromC toC sn id e p Hin He Hid st'. subst st'.
  destruct (finalizedState_board ns mn mp fromR toR fromC toC sn)
    as (-> & -> & _).
  split.
  - intros Hkept.
    pose proof (updateActiveSpells_loop_unexpired (plyCount (cur ns) + 1)
                  (activeSpells (cur ns)) (board (cur ns))) as Hall.
    rewrite Forall_forall in Hall. apply Hall in Hkept. simpl in Hkept. lia.
  - by apply (updateActiveSpells_loop_jumpCleared _ _ _ id e).
Qed.

Lemma active_spells_lifetime_witness :
  let ns :=
    played 0 [OpSpell jumpSpell 6 4; OpMove 6 4 4 4 (Some "jump@e2") None] in
  let pawn := mkPiece "P" white "p-6-4-21" false false true in
  let st' := finalizedState ns "e5" pawn 1 3 4 4 None in
  Forall (fun sp => plyCount (cur ns) < expiresAtPly sp) (activeSpells (cur ns))
  /\ (ActiveJump "p-6-4-21" 2 ∈ activeSpells (cur ns)
      /\ (ActiveJump "p-6-4-21" 2 ∉ activeSpells (cur st'))
      /\ findPieceById (board (cur st')) "p-6-4-21" = Some pawn).
Proof.
  intros ns pawn st'.
  assert (activeSpells (cur ns) = [ActiveJump "p-6-4-21" 2]) as Hsp
    by (vm_compute; reflexivity).
  assert (plyCount (cur ns) = 1) as Hply by (vm_compute; reflexivity).
  assert (reachable ns) as Hreach
    by (apply played_reachable; vm_compute; reflexivity).
  split; [exact (proj1 active_spells_lifetime ns Hreach)|].
  assert (ActiveJump "p-6-4-21" 2 ∈ activeSpells (cur ns)) as Hin.
  { rewrite Hsp. left. }
  split; [exact Hin|].
  destruct (proj2 active_spells_lifetime ns "e5" pawn 1 3 4 4 None
              "p-6-4-21" 2 pawn Hin) as [Hgone Hclear].
  - rewrite Hply. lia.
  - discriminate.
  - split; [exact Hgone|]. vm_compute. reflexivity.
Defined.

(** ** Freeze and the king *)

Lemma isSquareAttacked_by_king tr tc attackerColor b ep spells ply r c king :
  onBoard r c ->
  cell b r c = Some king -> p_color king = attackerColor ->
  lowerType king = "k" ->
  Z.abs (tr - r) <= 1 -> Z.abs (tc - c) <= 1 ->
  isSquareAttacked tr tc attackerColor b ep spells ply = true.
Proof.
  intros Hrc Hk Hcol Hty Hr Hc. unfold isSquareAttacked.
  apply anyb_true. exists (r, c). split; [by apply elem_of_squares|].
  unfold attackerAt. rewrite Hk, Hcol.
  replace (Color_eqb attackerColor attackerColor) with true
    by (by destruct attackerColor).
  simpl. rewrite Hty. simpl. rewrite andb_false_r.
  unfold attacksSquare. rewrite Hty. simpl. lia.
Qed.

Lemma isValidMove_frozen fr fc tr tc b player ep cr spells ply :
  isSquareUnderActiveFreeze fr fc spells ply = true ->
  isValidMove fr fc tr tc b player ep cr spells ply = false.
Proof.
  intros Hz. rewrite isValidMove_eq.
  destruct (cell b fr fc) as [m|]; [|done].
  by rewrite Hz, !andb_false_r.
Qed.

Lemma hasStandardMove_all_frozen player s :
  (forall r c p,
      onBoard r c -> cell (board s) r c = Some p -> p_color p = player ->
      isSquareUnderActiveFreeze r c (activeSpells s) (plyCount s) = true) ->
  hasStandardMove player s = false.
Proof.
  intros H. unfold hasStandardMove. apply anyb_false. intros [r c] Hin.
  apply elem_of_squares in Hin.
  destruct (cell (board s) r c) as [p|] eqn:Hp; [|done].
  destruct (Color_eqb (p_color p) player) eqn:Hc; [|done]. simpl.
  rewrite (H r c p); [by rewrite orb_true_r|done..|].
  by destruct (p_color p), player.
Qed.

(** The freeze holds the king as well: after 1. e4 and Black's freeze on
    e1 (played with e5), the white king stands in the freeze zone and its
    move to e2 is rejected, although the same move is valid once the
    active spells are removed. *)
Lemma frozen_king_cannot_move :
  let s := cur (played 0 frozenKingGame) in
  (p_type <$> cell (board s) 7 4) = Some "K"
  /\ isSquareUnderActiveFreeze 7 4 (activeSpells s) (plyCount s) = true
  /\ isValidMoveIn s white 7 4 6 4 = false
  /\ isValidMoveIn (set_activeSpells [] s) white 7 4 6 4 = true.
Proof. repeat split; vm_compute; reflexivity. Qed.

(** X1: the king is exempt from the freeze for attacks only.  A
    king of the attacker always attacks the squares around it, whatever
    freeze zones are active, so a frozen king still gives check.  For
    movement there is no exemption: [isValidMove] rejects every move that
    starts inside an active freeze zone, the king's included, and the
    first loop of [hasLegalMoves] finds no move when every piece of the
    player stands in such a zone. *)
Theorem king_freeze_exemption_is_for_attacks_only :
  (forall tr tc attackerColor b ep spells ply r c king,
      onBoard r c ->
      cell b r c = Some king -> p_color king = attackerColor ->
      lowerType king = "k" ->
      Z.abs (tr - r) <= 1 -> Z.abs (tc - c) <= 1 ->
      isSquareAttacked tr tc attackerColor b ep spells ply = true)
  /\ (forall fr fc tr tc b player ep cr spells ply,
      isSquareUnderActiveFreeze fr fc spells ply = true ->
      isValidMove fr fc tr tc b player ep cr spells ply = false)
  /\ (forall player s,
      (forall r c p,
          onBoard r c -> cell (board s) r c = Some p -> p_color p = player ->
          isSquareUnderActiveFreeze r c (activeSpells s) (plyCount s) = true) ->
      hasStandardMove player s = false).
Proof.
  split; [|split].
  - apply isSquareAttacked_by_king.
  - apply isValidMove_frozen.
  - apply hasStandardMove_all_frozen.
Qed.

Lemma king_freeze_exemption_is_for_attacks_only_witness :
  let s := cur (played 0 frozenKingGame) in
  let king := mkPiece "K" white "p-7-4-29" false false false in
  cell (board s) 7 4 = Some king
  /\ isSquareUnderActiveFreeze 7 4 (activeSpells s) (plyCount s) = true
  /\ isSquareAttacked 6 4 white (board s) None (activeSpells s) (plyCount s)
     = true
  /\ isValidMove 7 4 6 4 (board s) white (enPassantTarget s)
       (castlingRights s) (activeSpells s) (plyCount s) = false.
Proof.
  intros s king.
  assert (cell (board s) 7 4 = Some king) as Hk by (vm_compute; reflexivity).
  assert (isSquareUnderActiveFreeze 7 4 (activeSpells s) (plyCount s) = true)
    as Hz by (vm_compute; reflexivity).
  split; [exact Hk|]. split; [exact Hz|]. split.
  - apply (proj1 king_freeze_exemption_is_for_attacks_only
             6 4 white (board s) None (activeSpells s) (plyCount s) 7 4 king);
      [unfold onBoard; lia | exact Hk | reflexivity | reflexivity | lia | lia].
  - apply (proj1 (proj2 king_freeze_exemption_is_for_attacks_only)). exact Hz.
Defined.

(** ** Castling *)

(** A frozen king does not castle: with every other condition true
    (unmoved king and rook, right set, no check, f1 and g1 empty and not
    attacked), White's castling e1-g1 is rejected while Black's freeze covers e1. *)
Lemma frozen_king_cannot_castle :
  let s := cur (played 0 frozenCastleGame) in
  castleConditions 7 4 true (board s) white (castlingRights s)
    (activeSpells s) (plyCount s) (enPassantTarget s) = true
  /\ isValidMoveIn s white 7 4 7 6 = false.
Proof. split; vm_compute; reflexivity. Qed.



(** ** Threefold repetition *)

Lemma occurrences_snoc sig hist h :
  occurrences sig (hist ++ [h])
  = occurrences sig hist
    + (if negb (isGameOver h) && String.eqb (generateStateSignature h) sig
       then 1 else 0).
Proof. induction hist as [|x hist IH]; simpl; lia. Qed.

Lemma initial_history seq :
  history (createInitialGameState seq) = [cur (createInitialGameState seq)]
  /\ repetitionCounter (createInitialGameState seq)
     = <[generateStateSignature (cur (createInitialGameState seq)) := 1]> ∅
  /\ isGameOver (cur (createInitialGameState seq)) = false.
Proof.
  unfold createInitialGameState.
  by destruct (initialRows 0 INITIAL_BOARD_SETUP seq).
Qed.

Lemma finalizedState_repetition st ns mn mp fr tr fc tc sn :
  sameBookkeeping st ns -> counterAgrees st ->
  counterAgrees (finalizedState ns mn mp fr tr fc tc sn)
  /\ thirdOccurrenceDraws (finalizedState ns mn mp fr tr fc tc sn).
Proof.
  intros (Hh & Hc & _) Hagree. rewrite finalizedState_eq. cbv zeta.
  set (snap := finalizedSnapshot ns mn mp fr tr fc tc sn).
  rewrite Hh, Hc. destruct (isGameOver snap) eqn:Hover.
  - split.
    + intros sig. simpl. rewrite occurrences_snoc, Hover. simpl.
      rewrite Hagree. lia.
    + intros s. simpl. rewrite last_snoc. intros [= <-]. congruence.
  - set (sig0 := generateStateSignature snap).
    assert (forall sig,
               default 0 (<[sig0 := default 0 (repetitionCounter st !! sig0) + 1]>
                            (repetitionCounter st) !! sig)
               = occurrences sig (history st ++ [snap])) as Hnew.
    { intros sig. rewrite occurrences_snoc, Hover. simpl. fold sig0.
      destruct (String.eqb sig0 sig) eqn:E.
      - apply String.eqb_eq in E. subst sig.
        rewrite lookup_insert_eq. simpl. rewrite Hagree. lia.
      - apply String.eqb_neq in E.
        rewrite lookup_insert_ne by done. rewrite Hagree. lia. }
    split.
    + intros sig. simpl. apply Hnew.
    + intros s. simpl. rewrite last_snoc. intros [= <-] _ H3.
      fold sig0 in H3. rewrite <- Hnew, lookup_insert_eq in H3. simpl in H3.
      assert ((default 0 (repetitionCounter st !! sig0) + 1 >=? 3) = true)
        as -> by lia.
      done.
Qed.

Lemma reachable_repetition st :
  reachable st -> counterAgrees st /\ thirdOccurrenceDraws st.
Proof.
  induction 1 as [seq|st ty r c st' n _ [IH1 IH2] _ Hs
                 |st fr fc tr tc sn pp st' _ [IH1 IH2] _ _ Hm
                 |st fr fc tr tc sn pp st' ctx _ [IH1 IH2] _ _ Hm
                 |st pp sn st' _ [IH1 IH2] Hp|st _ [IH1 IH2]].
  - destruct (initial_history seq) as (Hh & Hc & Hover).
    set (s0 := cur (createInitialGameState seq)) in *.
    split.
    + intros sig. rewrite Hh, Hc. cbn [occurrences]. rewrite Hover.
      cbn [negb andb].
      destruct (String.eqb (generateStateSignature s0) sig) eqn:E.
      * apply String.eqb_eq in E. subst sig. by rewrite lookup_insert_eq.
      * apply String.eqb_neq in E. by rewrite lookup_insert_ne.
    + intros s. rewrite Hh. cbn [last]. intros [= <-] _.
      cbn [occurrences]. rewrite Hover, String.eqb_refl. cbn [negb andb]. lia.
  - apply applySpell_Ok in Hs
      as (_ & _ & _ & _ & Hover & Hmsg & Hh & Hc & _).
    split.
    + intros sig. rewrite Hh, Hc. apply IH1.
    + intros s. rewrite Hh, Hover, Hmsg. apply IH2.
  - apply applyMove_finalized in Hm as (ns & mn & mp & Hsame & ->).
    by apply (finalizedState_repetition st).
  - apply applyMove_Awaiting in Hm
      as [(Hh & Hc & _ & _ & Hover & Hmsg & _) _].
    split.
    + intros sig. rewrite Hh, Hc. apply IH1.
    + intros s. rewrite Hh, Hover, Hmsg. apply IH2.
  - apply applyPromotion_finalized in Hp
      as (ns & mn & mp & fr & tr & fc & tc & Hsame & ->).
    by apply (finalizedState_repetition st).
  - unfold applyResign, deepCopyState, createSnapshot. simpl. split.
    + intros sig. simpl. rewrite occurrences_snoc. simpl. rewrite IH1. lia.
    + intros s. simpl. rewrite last_snoc. by intros [= <-].
Qed.

(** Not every snapshot is counted.  After the knights went out and back the initial
    position stands twice in the history; White's resignation pushes a
    third snapshot with the same signature, the counter stays at 2 and the
    game ends with the resignation message.  And the checkmating move of
    [checkmateGame] pushes a snapshot that finalization does not count. *)
Lemma repetition_not_always_counted :
  (let st := played 0 resignAfterRepetition in
   allOccurrences (lastSignature st) (history st) = 3
   /\ repetitionCounter st !! lastSignature st = Some 2
   /\ isGameOver (cur st) = true
   /\ gameEndMessage (cur st) = "White resigned. Black wins.")
  /\ (let st := played 0 checkmateGame in
      gameEndMessage (cur st) = "White wins by checkmate!"
      /\ allOccurrences (lastSignature st) (history st) = 1
      /\ repetitionCounter st !! lastSignature st = None).
Proof. repeat split; vm_compute; reflexivity. Qed.

(** X3: in every state reachable by successful public
    operations, the repetition counter of a signature (in which the board
    with the jumpable marks, the side to move, the castling rights, the
    en-passant target and the four cooldown markers are written, not the
    piece ids nor the remaining charges) is the number of snapshots of the
    history with that signature that do not record the end of the game:
    finalization counts the snapshot it pushes unless the move itself ended
    the game, and a resignation is not counted.  Whenever the last
    snapshot does not record the end of the game and its signature has
    been counted three times, the state has [isGameOver] set and the
    message "Draw by threefold repetition.". *)
Theorem threefold_repetition_ends_game st :
  reachable st ->
  (forall sig,
      default 0 (repetitionCounter st !! sig) = occurrences sig (history st))
  /\ (forall snap,
        last (history st) = Some snap -> isGameOver snap = false ->
        3 <= occurrences (generateStateSignature snap) (history st) ->
        isGameOver (cur st) = true
        /\ gameEndMessage (cur st) = "Draw by threefold repetition.").
Proof. apply reachable_repetition. Qed.

Lemma threefold_repetition_ends_game_witness :
  let st := played 0 threefoldGame in
  occurrences (lastSignature st) (history st) = 3
  /\ isGameOver (cur st) = true
  /\ gameEndMessage (cur st) = "Draw by threefold repetition.".
Proof.
  intros st.
  assert (reachable st) as Hreach
    by (apply played_reachable; vm_compute; reflexivity).
  assert (occurrences (lastSignature st) (history st) = 3) as Hocc
    by (vm_compute; reflexivity).
  assert ((isGameOver <$> last (history st)) = Some false) as Hlast
    by (vm_compute; reflexivity).
  revert Hreach Hocc Hlast. generalize st. clear st.
  intros st Hreach Hocc Hlast.
  split; [exact Hocc|].
  unfold lastSignature in Hocc.
  destruct (last (history st)) as [snap|] eqn:Hl; [|discriminate Hlast].
  injection Hlast as Hover.
  apply (proj2 (threefold_repetition_ends_game st Hreach) snap Hl Hover).
  rewrite Hocc. lia.
Defined.

(** ** King safety of an accepted move *)

Section Weaker.
Variable player : Color.








End Weaker.




Lemma wfBoard_movedBoard m b ep fr fc tr tc :
  wfBoard b -> wfBoard (movedBoard m b ep fr fc tr tc).
Proof.
  intros Hwf. unfold movedBoard, castleRookBoard. cbv zeta.
  repeat first [done | apply wfBoard_setCell | case_match].
Qed.

Lemma cell_movedBoard_target m b ep fr fc tr tc :
  wfBoard b -> onBoard fr fc -> onBoard tr tc -> (fr, fc) <> (tr, tc) ->
  cell (movedBoard m b ep fr fc tr tc) tr tc = Some (set_hasMoved true m).
Proof.
  intros Hwf Hfrom Hto Hne. unfold movedBoard, castleRookBoard.
  rewrite cell_setCell_ne by done.
  apply cell_setCell_eq; [|done]. cbv zeta.
  repeat first [done | apply wfBoard_setCell | case_match].
Qed.



(** The board that [applyMove] finalizes: the moved board, with the
    promoted piece on the target square when a pawn promotes. *)
Lemma applyMove_Done_promotion st fr fc tr tc sn pp st' :
  applyMove st fr fc tr tc sn pp = MoveDone st' ->
  isValidMoveIn (cur st) (currentPlayer (cur st)) fr fc tr tc = true
  /\ exists m b mn mp,
      cell (board (cur st)) fr fc = Some m
      /\ (b = movedBoard m (board (cur st)) (enPassantTarget (cur st)) fr fc tr tc
          \/ (lowerType m = "p" /\ truthyOpt pp = true
              /\ b = setCell (movedBoard m (board (cur st))
                                (enPassantTarget (cur st)) fr fc tr tc)
                        tr tc
                        (Some (set_type
                                 (promotedType (p_color m) (default "" pp))
                                 (set_hasMoved true m)))))
      /\ st' = finalizedState
                 (with_cur (fun s =>
                    set_board b
                      (set_castlingRights
                         (movedCastlingRights (set_hasMoved true m)
                            (castlingRights (cur st)) fr fc) s)) st)
                 mn mp fr tr fc tc sn.
Proof.
  unfold applyMove, deepCopyState, _finalizeMove. intros H.
  destruct (isValidMoveIn _ _ _ _ _ _) eqn:Hv; simpl in H; [|done].
  split; [done|].
  destruct (cell (board (cur st)) fr fc) as [m|]; [|done].
  destruct (_ && _ && _) eqn:Hpromo in H.
  - destruct (truthyOpt pp) eqn:Hpp; [|done]. injection H as <-.
    apply andb_true_iff in Hpromo as [Hpromo _].
    apply andb_true_iff in Hpromo as [_ Hpawn].
    apply String.eqb_eq in Hpawn.
    eexists m, _, _, _. split; [done|]. split; [right; eauto|]. done.
  - injection H as <-. eexists m, _, _, _. split; [done|]. split; [by left|]. done.
Qed.

(** A king may be taken while in check: in [kingCaptureGame] White, in check from the
    queen on h4, may take the black king with Qf7xe8; the move is accepted
    and the white king is still attacked in the position it returns. *)
Lemma king_capture_accepted_in_check :
  let st := played 0 kingCaptureGame in
  let st' := resultState st (applyMove st 1 5 0 4 None None) in
  isKingInCheck white (board (cur st)) (enPassantTarget (cur st))
    (activeSpells (cur st)) (plyCount (cur st)) = true
  /\ isValidMoveIn (cur st) white 1 5 0 4 = true
  /\ isMoveDone (applyMove st 1 5 0 4 None None) = true
  /\ gameEndMessage (cur st') = "White wins by king capture!"
  /\ isKingInCheck white (board (cur st')) (enPassantTarget (cur st'))
       (activeSpells (cur st')) (plyCount (cur st')) = true.
Proof. repeat split; vm_compute; reflexivity. Qed.



(** ** The compact log of a protocol game *)

(** *** Tokens *)

Lemma promoLetters_forall (P : ascii -> Prop) :
  Forall P promoLetters -> forall ch, ch ∈ promoLetters -> P ch.
Proof. intros H ch Hch. rewrite Forall_forall in H. by apply H. Qed.

(** The names of the squares contain none of the marks of the log. *)
Lemma algebraic_plain r c :
  onBoard r c ->
  JS.includes "-" (algebraicFromCoords r c) = false
  /\ JS.includes "=" (algebraicFromCoords r c) = false
  /\ JS.includes "@" (algebraicFromCoords r c) = false
  /\ JS.includes "," (algebraicFromCoords r c) = false.
Proof.
  intros H. repeat split; apply includes_algebraic; try done; simpl; lia.
Qed.

Lemma file_plain ch c :
  0 <= c < 8 ->
  (N_of_ascii ch < 97 \/ 104 < N_of_ascii ch)%N ->
  JS.includes ch (JS.fromCharCode (97 + c)) = false.
Proof.
  intros Hc Hch. unfold JS.fromCharCode. simpl.
  destruct (Ascii.eqb _ ch) eqn:E; [|done].
  apply Ascii.eqb_eq in E. subst ch.
  rewrite N_ascii_embedding in Hch by lia. lia.
Qed.

Lemma rank_plain ch r :
  0 <= r < 8 ->
  (N_of_ascii ch < 49 \/ 56 < N_of_ascii ch)%N ->
  JS.includes ch (JS.ofZ (8 - r)) = false.
Proof.
  intros Hr Hch. rewrite ofZ_digit by lia. simpl.
  destruct (Ascii.eqb _ ch) eqn:E; [|done].
  apply Ascii.eqb_eq in E. subst ch.
  rewrite N_ascii_embedding in Hch by lia. lia.
Qed.

Lemma moveToken_split fr fc tr tc promo :
  onBoard fr fc -> onBoard tr tc ->
  promo = None \/ (exists ch, promo = Some ch /\ ch ∈ promoLetters) ->
  let toAndPromo :=
    algebraicFromCoords tr tc
    +:+ match promo with
        | Some ch => "=" +:+ String ch EmptyString
        | None => ""
        end in
  JS.split "-" (moveToken fr fc tr tc promo)
  = [algebraicFromCoords fr fc; toAndPromo]
  /\ JS.substring02 toAndPromo = algebraicFromCoords tr tc
  /\ (if JS.includes "=" toAndPromo
      then Some (secondOrUndefined (JS.split "=" toAndPromo))
      else None) = promoArg promo.
Proof.
  intros Hf Ht Hp toAndPromo.
  destruct (algebraic_plain fr fc Hf) as (Hf1 & _).
  destruct (algebraic_plain tr tc Ht) as (Ht1 & Ht2 & _).
  assert (JS.includes "-" toAndPromo = false) as Hno.
  { subst toAndPromo. apply includes_append_false. split; [done|].
    destruct Hp as [->|(ch & -> & Hch)]; [done|].
    revert ch Hch. apply promoLetters_forall. by repeat constructor. }
  split; [|split].
  - unfold moveToken.
    change (algebraicFromCoords fr fc +:+ "-" +:+ ?x)
      with (algebraicFromCoords fr fc +:+ String "-" x).
    rewrite split_at_separator by done.
    fold toAndPromo. by rewrite split_no_separator.
  - subst toAndPromo. rewrite (algebraicFromCoords_chars tr tc) by done.
    by destruct promo.
  - subst toAndPromo. destruct Hp as [->|(ch & -> & Hch)].
    + replace (algebraicFromCoords tr tc +:+ "") with (algebraicFromCoords tr tc).
      * by rewrite Ht2.
      * rewrite (algebraicFromCoords_chars tr tc) by done. done.
    + change (algebraicFromCoords tr tc +:+ "=" +:+ ?x)
        with (algebraicFromCoords tr tc +:+ String "=" x).
      rewrite includes_append_separator, split_at_separator by done.
      clear Hno. revert ch Hch. apply promoLetters_forall. by repeat constructor.
Qed.

(** A move token is replayed as the move it names. *)
Lemma replayMove_moveToken st pending fr fc tr tc promo :
  onBoard fr fc -> onBoard tr tc ->
  promo = None \/ (exists ch, promo = Some ch /\ ch ∈ promoLetters) ->
  replayMove st pending (moveToken fr fc tr tc promo)
  = match applyMove st fr fc tr tc pending (promoArg promo) with
    | MoveError error => inr ("Move failed: " +:+ error)
    | MoveTypeError => inr "TypeError"
    | MoveAwaiting _ _ =>
        inr ("Promotion piece missing in action: "
             +:+ moveToken fr fc tr tc promo)
    | MoveDone state' => inl state'
    end.
Proof.
  intros Hf Ht Hp.
  destruct (moveToken_split fr fc tr tc promo Hf Ht Hp) as (Hs & Hsub & Hpromo).
  unfold replayMove. rewrite Hs, Hsub, Hpromo.
  rewrite (proj2 (parseAlgebraicToCoords_Some _ (mkSquare fr fc))) by done.
  rewrite (proj2 (parseAlgebraicToCoords_Some _ (mkSquare tr tc))) by done.
  done.
Qed.

Lemma moveToken_kind fr fc tr tc promo :
  onBoard fr fc -> onBoard tr tc ->
  promo = None \/ (exists ch, promo = Some ch /\ ch ∈ promoLetters) ->
  String.eqb (JS.toUpperCase (moveToken fr fc tr tc promo)) "R" = false
  /\ JS.includes "@" (moveToken fr fc tr tc promo) = false
  /\ goodToken (moveToken fr fc tr tc promo).
Proof.
  intros Hf Ht Hp.
  destruct (algebraic_plain fr fc Hf) as (_ & _ & Hf3 & Hf4).
  destruct (algebraic_plain tr tc Ht) as (_ & _ & Ht3 & Ht4).
  assert (forall ch : ascii,
             ch ∈ ["@"; ","]%char ->
             JS.includes ch (moveToken fr fc tr tc promo) = false) as Hno.
  { intros ch Hch. unfold moveToken.
    assert (JS.includes ch (algebraicFromCoords fr fc) = false
            /\ JS.includes ch (algebraicFromCoords tr tc) = false) as [H1 H2].
    { set_unfold in Hch. by destruct Hch as [->|[->|[]]]. }
    rewrite !includes_append_false. repeat split; try done.
    - set_unfold in Hch. by destruct Hch as [->|[->|[]]].
    - destruct Hp as [->|(p & -> & Hp)]; [done|].
      revert p Hp. apply promoLetters_forall.
      set_unfold in Hch. destruct Hch as [->|[->|[]]]; by repeat constructor. }
  split; [|split; [|split]].
  - apply String.eqb_neq. intros E.
    assert (String.length (moveToken fr fc tr tc promo) = 1%nat) as Hlen.
    { by rewrite <- length_toUpperCase, E. }
    unfold moveToken in Hlen.
    rewrite (algebraicFromCoords_chars fr fc) in Hlen by done. done.
  - apply Hno. repeat constructor.
  - unfold moveToken. by rewrite (algebraicFromCoords_chars fr fc).
  - apply Hno. repeat constructor.
Qed.

(** The token of a cast is replayed as the cast. *)
Lemma replaySpell_spellToken st ty r c :
  onBoard r c ->
  replaySpell st (spellToken ty r c)
  = match applySpell st ty r c with
    | SpellError error => inr ("Spell failed: " +:+ error)
    | SpellOk state' notation => inl (state', notation)
    end.
Proof.
  intros Hrc. destruct (algebraic_plain r c Hrc) as (_ & _ & Hat & _).
  unfold replaySpell, spellToken.
  change (?p +:+ "@" +:+ algebraicFromCoords r c)
    with (p +:+ String "@" (algebraicFromCoords r c)).
  rewrite split_at_separator by (by destruct ty).
  rewrite split_no_separator by done. cbn [hd secondOrUndefined].
  rewrite (proj2 (parseAlgebraicToCoords_Some _ (mkSquare r c))) by done.
  by destruct ty.
Qed.

Lemma spellToken_kind ty r c :
  onBoard r c ->
  String.eqb (JS.toUpperCase (spellToken ty r c)) "R" = false
  /\ JS.includes "@" (spellToken ty r c) = true
  /\ goodToken (spellToken ty r c).
Proof.
  intros Hrc. destruct (algebraic_plain r c Hrc) as (_ & _ & _ & Hcomma).
  assert (JS.includes "@" (spellToken ty r c) = true) as Hat.
  { unfold spellToken.
    change (?p +:+ "@" +:+ algebraicFromCoords r c)
      with (p +:+ String "@" (algebraicFromCoords r c)).
    apply includes_append_separator. }
  split; [by apply spell_token_not_resign|]. split; [done|]. split.
  - by destruct ty.
  - unfold spellToken. rewrite !includes_append_false. by destruct ty.
Qed.

(** The notation returned by a cast. *)
Lemma applySpell_notation st ty r c st' n :
  applySpell st ty r c = SpellOk st' n ->
  n = spellTypeName ty +:+ "@" +:+ algebraicFromCoords r c.
Proof.
  unfold applySpell. destruct (canCastSpell st ty); simpl; [|done].
  destruct ty.
  - destruct (cell _ r c); [|done]. by intros [= _ <-].
  - by intros [= _ <-].
Qed.

(** The compact actions that [_finalizeMove] logs for the half-move of
    [cast] and a move whose notation [mn], before the promotion suffix, has
    no promotion mark. *)
Lemma compactActionsOf_tokens cast mn fr tr fc tc promo :
  match cast with Some (_, r, c) => onBoard r c | None => True end ->
  JS.includes "=" mn = false ->
  promo = None \/ (exists ch, promo = Some ch /\ ch ∈ promoLetters) ->
  compactActionsOf (castNotation cast)
    match promo with
    | Some ch => mn +:+ "=" +:+ String ch EmptyString
    | None => mn
    end fr tr fc tc
  = castTokens cast ++ [moveToken fr fc tr tc promo].
Proof.
  intros Hcast Hmn Hp. unfold compactActionsOf. f_equal.
  - destruct cast as [[[ty r] c]|]; [|done].
    destruct (algebraic_plain r c Hcast) as (_ & _ & Hat & _).
    cbn [castNotation castTokens fmap option_fmap option_map].
    assert (JS.truthy (spellTypeName ty +:+ "@" +:+ algebraicFromCoords r c)
            = true) as -> by (by destruct ty).
    change (?p +:+ "@" +:+ algebraicFromCoords r c)
      with (p +:+ String "@" (algebraicFromCoords r c)).
    rewrite split_at_separator by (by destruct ty).
    rewrite split_no_separator by done. by destruct ty.
  - unfold moveToken. do 4 f_equal.
    destruct Hp as [->|(ch & -> & Hch)]; [by rewrite Hmn|].
    change (mn +:+ "=" +:+ ?x) with (mn +:+ String "=" x).
    rewrite includes_append_separator. unfold promoChar.
    rewrite split_at_separator by done.
    revert ch Hch. apply promoLetters_forall. by repeat constructor.
Qed.

(** *** The replay loop, token by token *)

Lemma replay_loop_run st pending actions :
  replay_loop st pending actions
  = match replay_run st pending actions with
    | inl (state, _) => ReplayOk state
    | inr message => ReplayThrow message
    end.
Proof.
  revert st pending. induction actions as [|a rest IH]; intros st pending.
  - done.
  - simpl. destruct (isGameOver (cur st)); [done|].
    destruct (String.eqb _ "R"); [apply IH|].
    destruct (JS.includes "@" a).
    + destruct (replaySpell st a) as [[s n]|m]; [apply IH | done].
    + destruct (replayMove st pending a) as [s|m]; [apply IH | done].
Qed.

Lemma replay_run_app st pending l1 l2 :
  replay_run st pending (l1 ++ l2)
  = match replay_run st pending l1 with
    | inl (state, pending') => replay_run state pending' l2
    | inr message => inr message
    end.
Proof.
  revert st pending. induction l1 as [|a rest IH]; intros st pending.
  - done.
  - simpl. destruct (isGameOver (cur st)) eqn:Hover.
    { destruct l2; simpl; [done|]. by rewrite Hover. }
    destruct (String.eqb _ "R"); [apply IH|].
    destruct (JS.includes "@" a).
    + destruct (replaySpell st a) as [[s n]|m]; [apply IH | done].
    + destruct (replayMove st pending a) as [s|m]; [apply IH | done].
Qed.

Lemma replay_run_move st pending fr fc tr tc promo st' rest :
  isGameOver (cur st) = false ->
  onBoard fr fc -> onBoard tr tc ->
  promo = None \/ (exists ch, promo = Some ch /\ ch ∈ promoLetters) ->
  applyMove st fr fc tr tc pending (promoArg promo) = MoveDone st' ->
  replay_run st pending (moveToken fr fc tr tc promo :: rest)
  = replay_run st' None rest.
Proof.
  intros Hover Hf Ht Hp Hm. cbn [replay_run]. rewrite Hover.
  destruct (moveToken_kind fr fc tr tc promo Hf Ht Hp) as (-> & -> & _).
  by rewrite replayMove_moveToken, Hm.
Qed.

Lemma replay_run_spell st pending ty r c st' n rest :
  isGameOver (cur st) = false -> onBoard r c ->
  applySpell st ty r c = SpellOk st' n ->
  replay_run st pending (spellToken ty r c :: rest)
  = replay_run st' (Some n) rest.
Proof.
  intros Hover Hrc Hs. cbn [replay_run]. rewrite Hover.
  destruct (spellToken_kind ty r c Hrc) as (-> & -> & _).
  by rewrite replaySpell_spellToken, Hs.
Qed.

Lemma replay_run_resign st pending rest :
  isGameOver (cur st) = false ->
  replay_run st pending ("R" :: rest)
  = replay_run (applyResign st) pending rest.
Proof. intros Hover. cbn [replay_run]. by rewrite Hover. Qed.

(** *** The stored log *)

Lemma split_join l :
  Forall goodToken l -> splitCompactActionLog (JS.join "," l) = l.
Proof.
  intros Hl. unfold splitCompactActionLog.
  destruct l as [|x l]; [done|].
  assert (JS.truthy (JS.join "," (x :: l)) = true) as ->.
  { apply Forall_cons in Hl as [[Hx _] _].
    destruct x; [done|]. by destruct l. }
  assert (JS.split "," (JS.join "," (x :: l)) = x :: l) as ->.
  { revert x Hl. induction l as [|y l IH]; intros x Hl.
    - apply Forall_cons in Hl as [[_ Hx] _]. by apply split_no_separator.
    - apply Forall_cons in Hl as [[_ Hx] Hl].
      change (JS.join "," (x :: y :: l))
        with (x +:+ String "," (JS.join "," (y :: l))).
      rewrite split_at_separator by done. by rewrite IH. }
  induction Hl as [|t l' [Ht _] _ IH]; [done|].
  by rewrite filter_cons_True, IH.
Qed.

(** *** What holds between two half-moves *)

Lemma goodTypes_setCell b r c v :
  goodTypes b -> goodType v -> goodTypes (setCell b r c v).
Proof.
  intros Hb Hv. unfold setCell. destruct (_ && _); [|done].
  apply Forall_alter; [done|]. intros row _ Hrow. by apply Forall_insert.
Qed.

Lemma goodTypes_cell b r c : goodTypes b -> goodType (cell b r c).
Proof.
  intros Hb. unfold cell. destruct (_ && _); [|done].
  destruct (b !! Z.to_nat r) as [row|] eqn:Hrow; [|done].
  destruct (row !! Z.to_nat c) as [o|] eqn:Ho; [|done].
  eapply Forall_lookup_1 in Hb; [|exact Hrow].
  by eapply Forall_lookup_1 in Hb.
Qed.

Lemma goodTypes_movedBoard m b ep fr fc tr tc :
  goodTypes b -> goodType (Some m) ->
  goodTypes (movedBoard m b ep fr fc tr tc).
Proof.
  intros Hb Hm. unfold movedBoard, castleRookBoard. cbv zeta.
  assert (goodTypes
            (if isCastleMove m fc tc
             then match cell b fr (if tc >? fc then 7 else 0) with
                  | Some rook =>
                      setCell
                        (setCell b fr (if tc >? fc then tc - 1 else tc + 1)
                           (Some (set_hasMoved true rook)))
                        fr (if tc >? fc then 7 else 0) None
                  | None => b
                  end
             else b)) as Hb'.
  { destruct (isCastleMove m fc tc); [|done].
    pose proof (goodTypes_cell b fr (if tc >? fc then 7 else 0) Hb) as Hrook.
    destruct (cell b fr _) as [rook|]; [|done].
    by repeat apply goodTypes_setCell. }
  repeat apply goodTypes_setCell; try done.
  by destruct (isEnPassantMove _ _ _ _ _ _); [apply goodTypes_setCell|].
Qed.

Lemma clearJumpable_settled b id :
  wfBoard b -> goodTypes b ->
  wfBoard (clearJumpable b id) /\ goodTypes (clearJumpable b id).
Proof.
  intros Hwf Hb. unfold clearJumpable.
  destruct (findSquareById b id) as [[r c]|]; [|done].
  pose proof (goodTypes_cell b r c Hb) as Hp.
  destruct (cell b r c) as [p|]; [|done]. split.
  - by apply wfBoard_setCell.
  - by apply goodTypes_setCell.
Qed.

Lemma updateActiveSpells_loop_settled ply spells b :
  wfBoard b -> goodTypes b ->
  wfBoard (updateActiveSpells_loop ply spells b).1
  /\ goodTypes (updateActiveSpells_loop ply spells b).1.
Proof.
  revert b. induction spells as [|spell rest IH]; intros b Hwf Hb; simpl.
  - done.
  - destruct (ply >=? expiresAtPly spell).
    + apply IH; destruct spell as [tid e|]; try done;
        destruct (JS.truthy tid); try done; by apply clearJumpable_settled.
    + specialize (IH b Hwf Hb).
      by destruct (updateActiveSpells_loop ply rest b).
Qed.

Lemma finalizedState_settled ns mn mp fr tr fc tc sn :
  settled ns -> settled (finalizedState ns mn mp fr tr fc tc sn).
Proof.
  intros (Hwf & Hb & Hap).
  destruct (finalizedState_board ns mn mp fr tr fc tc sn) as (Hboard & _).
  destruct (updateActiveSpells_loop_settled
              (plyCount (cur ns) + 1) (activeSpells (cur ns)) (board (cur ns))
              Hwf Hb) as [Hwf' Hb'].
  unfold settled. rewrite Hboard. split; [done|]. split; [done|].
  rewrite finalizedState_eq. cbv zeta.
  destruct (isGameOver _); [done|]. by destruct (_ >=? 3).
Qed.

Lemma finalizedState_moveLog ns mn mp fr tr fc tc sn :
  exists e,
    moveLog (cur (finalizedState ns mn mp fr tr fc tc sn))
    = moveLog (cur ns) ++ [e]
    /\ actions e = compactActionsOf sn mn fr tr fc tc.
Proof.
  eexists. rewrite finalizedState_eq. cbv zeta.
  destruct (isGameOver _); [done|]. by destruct (_ >=? 3).
Qed.

Lemma initial_settled seq :
  settled (createInitialGameState seq)
  /\ moveLog (cur (createInitialGameState seq)) = [].
Proof.
  unfold createInitialGameState, settled, wfBoard, goodTypes.
  cbn [initialRows initialRow INITIAL_BOARD_SETUP].
  cbn [cur board awaitingPromotion moveLog]. repeat split.
  all: repeat constructor.
Qed.

Lemma applySpell_settled st ty r c st' n :
  applySpell st ty r c = SpellOk st' n -> settled st -> settled st'.
Proof.
  unfold applySpell. destruct (canCastSpell st ty); simpl; [|done].
  unfold deepCopyState. intros H (Hwf & Hb & Hap). destruct ty.
  - pose proof (goodTypes_cell _ r c Hb) as Hp.
    destruct (cell (board (cur st)) r c) as [p|]; [|done].
    injection H as <- _. unfold settled. cbn [cur with_cur board set_board
      awaitingPromotion set_activeSpells set_spells].
    split; [by apply wfBoard_setCell|].
    split; [by apply goodTypes_setCell | done].
  - by injection H as <- _.
Qed.

Lemma resign_settled st : settled st -> settled (applyResign st).
Proof. by intros (Hwf & Hb & Hap). Qed.

(** *** The notation of a move has no promotion mark before the suffix *)

Lemma generateMoveNotation_plain st piece fr fc tr tc captured ep :
  goodType (Some piece) -> onBoard fr fc -> onBoard tr tc ->
  JS.includes "=" (generateMoveNotation st piece fr fc tr tc captured ep)
  = false.
Proof.
  intros Hp [Hfr Hfc] Ht. destruct (algebraic_plain tr tc Ht) as (_ & Hto & _).
  assert (JS.includes "=" (JS.fromCharCode (97 + fc)) = false) as Hfile
    by (apply file_plain; [done | simpl; lia]).
  assert (JS.includes "=" (JS.ofZ (8 - fr)) = false) as Hrank
    by (apply rank_plain; [done | simpl; lia]).
  unfold generateMoveNotation. cbv zeta.
  destruct (String.eqb _ "P").
  - destruct (_ || _); [|done]. by rewrite !includes_append_false.
  - rewrite !includes_append_false. repeat split; try done.
    + destruct (filter _ squares); [done|].
      repeat case_match; rewrite ?includes_append_false; done.
    + by destruct (isSome captured).
Qed.

Lemma moveNotationOf_plain st m fr fc tr tc :
  goodType (Some m) -> onBoard fr fc -> onBoard tr tc ->
  JS.includes "=" (moveNotationOf st m fr fc tr tc) = false.
Proof.
  intros Hm Hf Ht. unfold moveNotationOf. cbv zeta.
  destruct (isEnPassantMove _ _ _ _ _ _);
    [by apply generateMoveNotation_plain|].
  destruct (isCastleMove m fc tc);
    [by destruct (tc >? fc) | by apply generateMoveNotation_plain].
Qed.

(** *** A promotion letter and its capital *)

Lemma promotion_letter ch c :
  ch ∈ promoLetters ->
  JS.upperAscii ch ∈ promoLetters
  /\ promotedType c (String (JS.upperAscii ch) EmptyString)
     = promotedType c (String ch EmptyString)
  /\ JS.upperAscii (JS.upperAscii ch) = JS.upperAscii ch
  /\ goodType
       (Some (mkPiece (promotedType c (String ch EmptyString)) c "" false
                false false)).
Proof.
  revert ch. apply promoLetters_forall.
  repeat constructor; by destruct c.
Qed.

(** *** One move of the protocol *)

(** A move that succeeds with a promotion piece of the grammar succeeds,
    with the same result, with the argument that its own token gives on
    replay; the result is settled and its log has one more entry, made of
    the token of the cast, if any, and the token of the move. *)
Lemma applyMove_logged st fr fc tr tc cast pp st' :
  settled st -> onBoard fr fc -> onBoard tr tc -> promoOk pp ->
  match cast with Some (_, r, c) => onBoard r c | None => True end ->
  applyMove st fr fc tr tc (castNotation cast) pp = MoveDone st' ->
  settled st'
  /\ exists promo e,
      (promo = None \/ (exists ch, promo = Some ch /\ ch ∈ promoLetters))
      /\ applyMove st fr fc tr tc (castNotation cast) (promoArg promo)
         = MoveDone st'
      /\ moveLog (cur st') = moveLog (cur st) ++ [e]
      /\ actions e = castTokens cast ++ [moveToken fr fc tr tc promo].
Proof.
  intros (Hwf & Hb & Hap) Hf Ht Hpp Hcast.
  unfold applyMove, deepCopyState, _finalizeMove.
  destruct (isValidMoveIn _ _ _ _ _ _) eqn:Hv; cbn [negb]; [|done].
  pose proof (goodTypes_cell _ fr fc Hb) as Hm.
  destruct (cell (board (cur st)) fr fc) as [m|]; [|done].
  pose proof (moveNotationOf_plain st m fr fc tr tc Hm Hf Ht) as Hmn.
  pose proof (goodTypes_movedBoard m (board (cur st))
                (enPassantTarget (cur st)) fr fc tr tc Hb Hm) as Hb'.
  pose proof (wfBoard_movedBoard m (board (cur st))
                (enPassantTarget (cur st)) fr fc tr tc Hwf) as Hwf'.
  destruct (_ && _ && _).
  - destruct pp as [pp|]; [|done]. destruct Hpp as (ch & Hch & ->).
    cbn [truthyOpt JS.truthy default JS.toUpperCase p_color set_hasMoved].
    destruct (promotion_letter ch (p_color m) Hch) as (Hup & Htype & Hidem & Hgood).
    intros [= <-]. split.
    { apply finalizedState_settled. unfold settled.
      cbn [cur with_cur board set_board set_castlingRights awaitingPromotion].
      split; [by apply wfBoard_setCell|].
      split; [by apply goodTypes_setCell | done]. }
    exists (Some (JS.upperAscii ch)).
    edestruct finalizedState_moveLog as (e & He & Hactions).
    exists e. split; [right; eauto|].
    cbn [promoArg truthyOpt JS.truthy default from_option id JS.toUpperCase
           p_color set_hasMoved].
    rewrite Htype, Hidem. split; [reflexivity|]. split; [exact He|].
    rewrite Hactions.
    by apply (compactActionsOf_tokens cast _ fr tr fc tc
                (Some (JS.upperAscii ch))); eauto.
  - intros [= <-]. split.
    { by apply finalizedState_settled. }
    exists None. edestruct finalizedState_moveLog as (e & He & Hactions).
    exists e. split; [by left|]. split; [reflexivity|]. split; [exact He|].
    rewrite Hactions.
    by apply (compactActionsOf_tokens cast _ fr tr fc tc None); eauto.
Qed.

(** *** A promotion in two steps *)

(** [applyMove] without a piece followed by [applyPromotion] is
    [applyMove] with the piece and the spell notation given to
    [applyPromotion]. *)
Lemma promotion_in_two_steps st fr fc tr tc sn0 st1 ctx pp sn st' :
  wfBoard (board (cur st)) -> awaitingPromotion (cur st) = None ->
  onBoard fr fc -> onBoard tr tc ->
  applyMove st fr fc tr tc sn0 None = MoveAwaiting st1 ctx ->
  JS.truthy pp = true ->
  applyPromotion st1 pp sn = MoveDone st' ->
  applyMove st fr fc tr tc sn (Some pp) = MoveDone st'.
Proof.
  intros Hwf Hap Hf Ht Hm Hpp Hp. revert Hm.
  unfold applyMove, deepCopyState, _finalizeMove.
  destruct (isValidMoveIn _ _ _ _ _ _); cbn [negb]; [|done].
  destruct (cell (board (cur st)) fr fc) as [m|]; [|done].
  destruct (_ && _ && _); [|done].
  cbn [truthyOpt default from_option id]. rewrite Hpp.
  intros [= <- <-]. revert Hp.
  unfold applyPromotion, deepCopyState, _finalizeMove.
  cbn [cur with_cur awaitingPromotion set_awaitingPromotion board set_board
         set_castlingRights ap_r ap_c ap_color ap_fromR ap_fromC
         originalMoveNotation].
  destruct (decide ((fr, fc) = (tr, tc))) as [E|E].
  - injection E as <- <-. unfold movedBoard.
    rewrite cell_setCell_eq; [done| |done].
    apply wfBoard_setCell. unfold castleRookBoard. cbv zeta.
    repeat first [done | apply wfBoard_setCell | case_match].
  - rewrite cell_movedBoard_target by done. intros [= <-]. do 2 f_equal.
    destruct st as [[] ? ?]. cbn in Hap. by subst.
Qed.

(** *** The replay of the log of a protocol game *)

(** The log of [st] is made of tokens that survive the stored form, and
    its replay from [s0] ends in [st] with no spell pending. *)
Definition replays (s0 st : GameState) : Prop :=
  Forall goodToken (flat_map actions (moveLog (cur st)))
  /\ replay_run s0 None (flat_map actions (moveLog (cur st))) = inl (st, None).

Lemma replays_entry s0 st st' e :
  replays s0 st -> isGameOver (cur st) = false ->
  moveLog (cur st') = moveLog (cur st) ++ [e] ->
  Forall goodToken (actions e) ->
  replay_run st None (actions e) = inl (st', None) ->
  replays s0 st'.
Proof.
  intros [Hgood Hrun] Hover Hlog He Hstep. unfold replays.
  rewrite Hlog, flat_map_app. cbn [flat_map]. rewrite app_nil_r. split.
  - by apply Forall_app.
  - by rewrite replay_run_app, Hrun.
Qed.

Lemma replays_half_move s0 st cast st1 fr fc tr tc pp st' :
  settled st -> replays s0 st -> isGameOver (cur st) = false ->
  match cast with
  | Some (ty, r, c) =>
      onBoard r c /\ exists n, applySpell st ty r c = SpellOk st1 n
  | None => st1 = st
  end ->
  onBoard fr fc -> onBoard tr tc -> promoOk pp ->
  applyMove st1 fr fc tr tc (castNotation cast) pp = MoveDone st' ->
  settled st' /\ replays s0 st'.
Proof.
  intros Hst Hrep Hover Hcast Hf Ht Hpp Hm.
  assert (settled st1 /\ isGameOver (cur st1) = false
          /\ moveLog (cur st1) = moveLog (cur st)
          /\ match cast with Some (_, r, c) => onBoard r c | None => True end)
    as (Hst1 & Hover1 & Hlog1 & Hon).
  { destruct cast as [[[ty r] c]|]; [|by subst].
    destruct Hcast as (Hrc & n & Hs).
    split; [by eapply applySpell_settled|].
    apply applySpell_Ok in Hs as (_ & _ & _ & _ & -> & _ & _ & _ & -> & _).
    done. }
  destruct (applyMove_logged st1 fr fc tr tc cast pp st' Hst1 Hf Ht Hpp Hon Hm)
    as (Hst' & promo & e & Hpromo & Hcanon & Hlog & Hact).
  split; [done|].
  destruct (moveToken_kind fr fc tr tc promo Hf Ht Hpromo) as (_ & _ & Hgood).
  apply (replays_entry s0 st st' e Hrep Hover).
  - by rewrite Hlog, Hlog1.
  - rewrite Hact. apply Forall_app.
    split; [|by apply Forall_cons; split; [|constructor]].
    destruct cast as [[[ty r] c]|]; cbn [castTokens]; [|constructor].
    apply Forall_cons. split; [by apply spellToken_kind | constructor].
  - rewrite Hact. destruct cast as [[[ty r] c]|]; cbn [castTokens app].
    + destruct Hcast as (Hrc & n & Hs).
      rewrite (replay_run_spell st None ty r c st1 n) by done.
      rewrite (applySpell_notation _ _ _ _ _ _ Hs).
      by rewrite (replay_run_move st1 _ fr fc tr tc promo st').
    + subst st1. by rewrite (replay_run_move st _ fr fc tr tc promo st').
Qed.

Lemma protocol_replays seq st :
  protocol seq st ->
  settled st /\ replays (createInitialGameState seq) st.
Proof.
  induction 1 as [|st fr fc tr tc pp st' _ [IHs IHr] Hover Hf Ht Hpp Hm
                  |st ty r c st1 n fr fc tr tc pp st' _ [IHs IHr] Hover Hrc Hs
                     Hf Ht Hpp Hm
                  |st fr fc tr tc sn st1 ctx pp st' _ [IHs IHr] Hover Hf Ht
                     Hm Hpp Hp
                  |st ty r c st1 n fr fc tr tc sn st2 ctx pp st' _ [IHs IHr]
                     Hover Hrc Hs Hf Ht Hm Hpp Hp
                  |st _ [IHs IHr] Hover].
  - destruct (initial_settled seq) as [Hs Hlog]. split; [done|].
    unfold replays. rewrite Hlog. by split.
  - by apply (replays_half_move _ st None st fr fc tr tc pp).
  - apply (replays_half_move _ st (Some (ty, r, c)) st1 fr fc tr tc pp);
      [exact IHs | exact IHr | exact Hover | by split; [|exists n]
      | exact Hf | exact Ht | exact Hpp |].
    cbn [castNotation]. rewrite <- (applySpell_notation _ _ _ _ _ _ Hs).
    exact Hm.
  - apply (replays_half_move _ st None st fr fc tr tc (Some pp));
      [exact IHs | exact IHr | exact Hover | reflexivity
      | exact Hf | exact Ht | exact Hpp |].
    destruct IHs as (Hwf & _ & Hap).
    apply (promotion_in_two_steps st fr fc tr tc sn st1 ctx);
      [exact Hwf | exact Hap | exact Hf | exact Ht | exact Hm | | exact Hp].
    by destruct Hpp as (ch & _ & ->).
  - apply (replays_half_move _ st (Some (ty, r, c)) st1 fr fc tr tc (Some pp));
      [exact IHs | exact IHr | exact Hover | by split; [|exists n]
      | exact Hf | exact Ht | exact Hpp |].
    cbn [castNotation]. rewrite <- (applySpell_notation _ _ _ _ _ _ Hs).
    destruct (applySpell_settled _ _ _ _ _ _ Hs IHs) as (Hwf & _ & Hap).
    apply (promotion_in_two_steps st1 fr fc tr tc sn st2 ctx);
      [exact Hwf | exact Hap | exact Hf | exact Ht | exact Hm | | exact Hp].
    by destruct Hpp as (ch & _ & ->).
  - split; [by apply resign_settled|].
    apply (replays_entry _ st (applyResign st)
             (mkMoveLogEntry (gameTurnNumber (cur st)) (currentPlayer (cur st))
                "R" ["R"] (Z.of_nat (List.length (history st)))));
      try done.
    + by repeat constructor.
    + cbn [actions]. by rewrite replay_run_resign.
Qed.

(** *** Protocol games by execution *)

Lemma promoOkb_true pp : promoOkb pp = true -> promoOk pp.
Proof.
  destruct pp as [[|ch [|? ?]]|]; try done. simpl. intros H.
  apply bool_decide_eq_true in H. eauto.
Qed.

Lemma moveThenPromote_Some st fr fc tr tc pp sn st' :
  moveThenPromote st fr fc tr tc pp sn = Some st' ->
  exists st1 ctx,
    applyMove st fr fc tr tc None None = MoveAwaiting st1 ctx
    /\ applyPromotion st1 pp sn = MoveDone st'.
Proof.
  unfold moveThenPromote.
  destruct (applyMove st fr fc tr tc None None) as [|st1 ctx| |]; try done.
  destruct (applyPromotion st1 pp sn) as [s| | |] eqn:Hp; try done.
  intros [= <-]. eauto.
Qed.

Lemma playHalf_protocol seq st h st' :
  protocol seq st -> playHalf st h = Some st' -> protocol seq st'.
Proof.
  intros Hst. unfold playHalf.
  destruct (isGameOver (cur st)) eqn:Hover; [done|].
  destruct h as [fr fc tr tc pp|ty r c fr fc tr tc pp|fr fc tr tc pp
                |ty r c fr fc tr tc pp|].
  - destruct (_ && _ && _) eqn:Hb; [|done]. split_andb.
    destruct (applyMove st fr fc tr tc None pp) as [s| | |] eqn:Hm; try done.
    intros [= <-].
    eapply (proto_move seq st fr fc tr tc pp);
      eauto using onBoardb_true, promoOkb_true.
  - destruct (_ && _ && _ && _) eqn:Hb; [|done]. split_andb.
    destruct (applySpell st ty r c) as [st1 n|] eqn:Hs; [|done].
    destruct (applyMove st1 fr fc tr tc (Some n) pp) as [s| | |] eqn:Hm;
      try done.
    intros [= <-].
    eapply (proto_spell_move seq st ty r c st1 n fr fc tr tc pp);
      eauto using onBoardb_true, promoOkb_true.
  - destruct (_ && _ && _) eqn:Hb; [|done]. split_andb.
    intros (st1 & ctx & Hm & Hp)%moveThenPromote_Some.
    eapply (proto_promotion seq st fr fc tr tc None st1 ctx pp);
      eauto using onBoardb_true, promoOkb_true.
  - destruct (_ && _ && _ && _) eqn:Hb; [|done]. split_andb.
    destruct (applySpell st ty r c) as [st1 n|] eqn:Hs; [|done].
    intros (st2 & ctx & Hm & Hp)%moveThenPromote_Some.
    eapply (proto_spell_promotion seq st ty r c st1 n fr fc tr tc None st2
              ctx pp);
      eauto using onBoardb_true, promoOkb_true.
  - intros [= <-]. by apply proto_resign.
Qed.

Lemma playHalves_protocol seq st hs st' :
  protocol seq st -> playHalves st hs = Some st' -> protocol seq st'.
Proof.
  revert st. induction hs as [|h rest IH]; intros st Hst; simpl.
  - by intros [= <-].
  - destruct (playHalf st h) as [s|] eqn:Hh; [|done].
    apply IH. by eapply playHalf_protocol.
Qed.

Lemma playedByProtocol_protocol seq hs :
  isSome (playHalves (createInitialGameState seq) hs) = true ->
  protocol seq (playedByProtocol seq hs).
Proof.
  unfold playedByProtocol.
  destruct (playHalves (createInitialGameState seq) hs) as [st|] eqn:Hp;
    [|done].
  intros _. eapply playHalves_protocol; [apply proto_init | exact Hp].
Qed.

(** Outside the protocol the log loses information: a jump cast on e2 and
    a resignation in the same half-move log the single token R, whose
    replay has both jump charges left and no active spell. *)
Lemma cast_then_resign_is_not_replayed :
  let st := played 0 [OpSpell jumpSpell 6 4; OpResign] in
  let log := buildCompactActionLog (moveLog (cur st)) in
  let st' := replayedState 0 (splitCompactActionLog log) in
  log = "R"
  /\ jump (spells_white (spells (cur st))) = 1
  /\ jump (spells_white (spells (cur st'))) = 2
  /\ List.length (activeSpells (cur st)) = 1%nat
  /\ activeSpells (cur st') = [].
Proof. repeat split; vm_compute; reflexivity. Qed.

(** X5: the log of a protocol game replays to the state of the game.  In a
    game played from the initial state by half-moves of the client
    protocol (on an unfinished game: a move, or one cast followed by the
    move that carries its notation, with a promotion letter among
    QRBNqrbn given at once or through [applyPromotion], or a resignation
    with no cast pending), the actions of the move log, and the stored
    comma-joined log split back into tokens, are replayed by
    [replayCompactActions] without error to exactly the state of the game,
    when the piece-id counter has the same value at both starts. *)
Theorem protocol_log_replays seq st :
  protocol seq st ->
  replayCompactActions seq (flat_map actions (moveLog (cur st))) = ReplayOk st
  /\ replayCompactActions seq
       (splitCompactActionLog (buildCompactActionLog (moveLog (cur st))))
     = ReplayOk st.
Proof.
  intros H. apply protocol_replays in H as (_ & Hgood & Hrun).
  unfold buildCompactActionLog. rewrite split_join by done.
  unfold replayCompactActions. by rewrite replay_loop_run, Hrun.
Qed.

Lemma protocol_log_replays_witness :
  let st := playedByProtocol 0 protocolGame in
  buildCompactActionLog (moveLog (cur st))
  = "a2-a4,b7-b5,a4-b5,h7-h6,j@e2,b5-b6,h6-h5,b6-b7,f@e1,h5-h4,b7-a8=Q,R"
  /\ replayCompactActions 0
       (splitCompactActionLog (buildCompactActionLog (moveLog (cur st))))
     = ReplayOk st.
Proof.
  intros st. split; [vm_compute; reflexivity|].
  assert (protocol 0 st) as Hst
    by (apply playedByProtocol_protocol; vm_compute; reflexivity).
  revert Hst. generalize st. clear st. intros st Hst.
  exact (proj2 (protocol_log_replays 0 st Hst)).
Defined.

(** ** Squares and their names *)

(** X6: [parseAlgebraicToCoords] accepts exactly the two-character names
    that [algebraicFromCoords] gives to the squares of the board, and
    returns the square named: parsing inverts naming, and every other
    string (empty, longer, a file outside a-h, a rank outside 1-8) is
    rejected. *)
Theorem algebraic_names_round_trip alg sq :
  parseAlgebraicToCoords alg = Some sq <->
  onBoard (sq_r sq) (sq_c sq)
  /\ alg = algebraicFromCoords (sq_r sq) (sq_c sq).
Proof. apply parseAlgebraicToCoords_Some. Qed.

(** ** Promotion in one call or in two *)

(** X7: a promotion made in two calls is the promotion made in one.  When
    [applyMove] without a promotion piece stops and awaits the piece, the
    state that [applyPromotion] then returns for a non-empty piece is the
    state that [applyMove] returns at once when it is given that piece and
    the spell notation passed to [applyPromotion]. *)
Theorem promotion_two_calls_one_result st fr fc tr tc sn0 st1 ctx pp sn st' :
  wfBoard (board (cur st)) -> awaitingPromotion (cur st) = None ->
  onBoard fr fc -> onBoard tr tc ->
  applyMove st fr fc tr tc sn0 None = MoveAwaiting st1 ctx ->
  JS.truthy pp = true ->
  applyPromotion st1 pp sn = MoveDone st' ->
  applyMove st fr fc tr tc sn (Some pp) = MoveDone st'.
Proof. apply promotion_in_two_steps. Qed.

Lemma promotion_two_calls_one_result_witness :
  let st := replayedState 0 pawnToB7 in
  let st1 := resultState st (applyMove st 1 1 0 0 None None) in
  let st' := resultState st1 (applyPromotion st1 "Q" None) in
  isMoveAwaiting (applyMove st 1 1 0 0 None None) = true
  /\ isMoveDone (applyPromotion st1 "Q" None) = true
  /\ applyMove st 1 1 0 0 None (Some "Q") = MoveDone st'.
Proof.
  intros st st1 st'.
  assert (isMoveAwaiting (applyMove st 1 1 0 0 None None) = true) as Ha
    by (vm_compute; reflexivity).
  assert (isMoveDone (applyPromotion st1 "Q" None) = true) as Hd
    by (vm_compute; reflexivity).
  assert (wfBoard (board (cur st))) as Hwf
    by (split; [vm_compute; reflexivity | vm_compute; repeat constructor]).
  assert (awaitingPromotion (cur st) = None) as Hap
    by (vm_compute; reflexivity).
  split; [exact Ha|]. split; [exact Hd|].
  subst st' st1. revert Ha Hd Hwf Hap. generalize st. clear st.
  intros st Ha Hd Hwf Hap.
  destruct (applyMove st 1 1 0 0 None None) as [|s1 ctx| |] eqn:Hm;
    try discriminate Ha.
  cbn [resultState] in *.
  destruct (applyPromotion s1 "Q" None) as [s'| | |] eqn:Hp;
    try discriminate Hd.
  cbn [resultState].
  apply (promotion_two_calls_one_result st 1 1 0 0 None s1 ctx "Q" None s');
    [exact Hwf | exact Hap | unfold onBoard; lia | unfold onBoard; lia
    | exact Hm | reflexivity | exact Hp].
Defined.

(** ** The path of a sliding piece *)

(** What the loop of [isPathClear] answers with [fuel] iterations: it finds
    the target after [k] steps, all squares before it being squares of the
    board that can be passed. *)
Lemma isPathClear_loop_true fuel r c dr dc tr tc b :
  isPathClear_loop fuel r c dr dc tr tc b = true <->
  exists k : nat,
    (k < fuel)%nat /\ tr = r + Z.of_nat k * dr /\ tc = c + Z.of_nat k * dc
    /\ forall j : nat,
        (j < k)%nat ->
        (r + Z.of_nat j * dr <> tr \/ c + Z.of_nat j * dc <> tc)
        /\ onBoard (r + Z.of_nat j * dr) (c + Z.of_nat j * dc)
        /\ passable (cell b (r + Z.of_nat j * dr) (c + Z.of_nat j * dc)) = true.
Proof.
  revert r c. induction fuel as [|fuel IH]; intros r c.
  { simpl. split; [done|]. intros (k & Hk & _). lia. }
  cbn [isPathClear_loop].
  destruct ((r =? tr) && (c =? tc)) eqn:Hat; cbn [negb].
  { split; [|done]. intros _. exists 0%nat.
    repeat split; try lia. }
  assert (r <> tr \/ c <> tc) as Hne by lia.
  assert (forall k : nat,
             (0 < k)%nat ->
             (forall j : nat,
                 (j < k)%nat ->
                 (r + Z.of_nat j * dr <> tr \/ c + Z.of_nat j * dc <> tc)
                 /\ onBoard (r + Z.of_nat j * dr) (c + Z.of_nat j * dc)
                 /\ passable (cell b (r + Z.of_nat j * dr) (c + Z.of_nat j * dc)) = true) ->
             onBoard r c /\ passable (cell b r c) = true) as Hfirst.
  { intros k Hk Hall. destruct (Hall 0%nat Hk) as (_ & Hon & Hp).
    replace (r + Z.of_nat 0 * dr) with r in * by lia.
    replace (c + Z.of_nat 0 * dc) with c in * by lia. done. }
  assert (forall k : nat,
             tr = r + Z.of_nat k * dr -> tc = c + Z.of_nat k * dc -> (0 < k)%nat) as Hpos.
  { intros k Hr Hc. destruct k; [lia|lia]. }
  destruct ((r <? 0) || (r >=? 8) || (c <? 0) || (c >=? 8)) eqn:Hoff.
  { split; [done|]. intros (k & _ & Hr & Hc & Hall).
    destruct (Hfirst k (Hpos k Hr Hc) Hall) as [[? ?] _]. lia. }
  assert (onBoard r c) as Hon by (unfold onBoard; lia).
  assert (passable (cell b r c) = false ->
          (exists k : nat,
              (k < S fuel)%nat /\ tr = r + Z.of_nat k * dr /\ tc = c + Z.of_nat k * dc
              /\ forall j : nat,
                  (j < k)%nat ->
                  (r + Z.of_nat j * dr <> tr \/ c + Z.of_nat j * dc <> tc)
                  /\ onBoard (r + Z.of_nat j * dr) (c + Z.of_nat j * dc)
                  /\ passable (cell b (r + Z.of_nat j * dr) (c + Z.of_nat j * dc)) = true) ->
          False) as Hblocked.
  { intros Hp (k & _ & Hr & Hc & Hall).
    destruct (Hfirst k (Hpos k Hr Hc) Hall) as [_ Hp']. congruence. }
  assert (passable (cell b r c) = true ->
          isPathClear_loop fuel (r + dr) (c + dc) dr dc tr tc b = true <->
          exists k : nat,
            (k < S fuel)%nat /\ tr = r + Z.of_nat k * dr /\ tc = c + Z.of_nat k * dc
            /\ forall j : nat,
                (j < k)%nat ->
                (r + Z.of_nat j * dr <> tr \/ c + Z.of_nat j * dc <> tc)
                /\ onBoard (r + Z.of_nat j * dr) (c + Z.of_nat j * dc)
                /\ passable (cell b (r + Z.of_nat j * dr) (c + Z.of_nat j * dc)) = true)
    as Hstep.
  { intros Hp. rewrite IH. split.
    - intros (k & Hk & Hr & Hc & Hall). exists (S k).
      split; [lia|]. split; [lia|]. split; [lia|].
      intros [|j] Hj.
      + replace (r + Z.of_nat 0 * dr) with r by lia.
        replace (c + Z.of_nat 0 * dc) with c by lia. done.
      + replace (r + Z.of_nat (S j) * dr) with (r + dr + Z.of_nat j * dr) by lia.
        replace (c + Z.of_nat (S j) * dc) with (c + dc + Z.of_nat j * dc) by lia.
        apply Hall. lia.
    - intros (k & Hk & Hr & Hc & Hall).
      destruct k as [|k]; [lia|]. exists k.
      split; [lia|]. split; [lia|]. split; [lia|].
      intros j Hj.
      replace (r + dr + Z.of_nat j * dr) with (r + Z.of_nat (S j) * dr) by lia.
      replace (c + dc + Z.of_nat j * dc) with (c + Z.of_nat (S j) * dc) by lia.
      apply Hall. lia. }
  destruct (cell b r c) as [p|] eqn:Hcell; [|by apply Hstep].
  destruct (p_isJumpable p) eqn:Hj; cbn [negb]; [by apply Hstep|].
  split; [done|]. intros H. by destruct Hblocked.
Qed.

(** The loop of [isPathClear], started from a board square in a direction
    that is not null, has returned after nine iterations: more fuel does
    not change its answer. *)
Lemma isPathClear_loop_fuel k r c dr dc tr tc b :
  (dr <> 0 \/ dc <> 0) -> -1 <= dr <= 1 -> -1 <= dc <= 1 ->
  isPathClear_loop (9 + k) r c dr dc tr tc b
  = isPathClear_loop 9 r c dr dc tr tc b.
Proof.
  intros Hdir Hdr Hdc.
  destruct (isPathClear_loop 9 r c dr dc tr tc b) eqn:H9.
  - apply isPathClear_loop_true in H9 as (n & Hn & Hrest).
    apply isPathClear_loop_true. exists n. split; [lia | done].
  - destruct (isPathClear_loop (9 + k) r c dr dc tr tc b) eqn:Hk; [|done].
    apply isPathClear_loop_true in Hk as (n & Hn & Hr & Hc & Hall).
    assert (isPathClear_loop 9 r c dr dc tr tc b = true) as Habs; [|congruence].
    apply isPathClear_loop_true. exists n. split; [|done].
    destruct (decide (n < 9)%nat) as [|Hge]; [done|]. exfalso.
    assert (forall j : nat, (j < 9)%nat -> onBoard (r + Z.of_nat j * dr) (c + Z.of_nat j * dc))
      as Hon by (intros j Hj; apply Hall; lia).
    pose proof (Hon 0%nat ltac:(lia)) as [H0r H0c].
    pose proof (Hon 8%nat ltac:(lia)) as [H8r H8c].
    lia.
Qed.

(** X8: between two squares of the board, [isPathClear] holds exactly when
    the squares are on one rank, file or diagonal and every square strictly
    between them is empty or holds a jumpable piece; the two end squares
    are not looked at, and a path between squares that are not aligned is
    never clear (the walk leaves the board). *)
Theorem isPathClear_between fr fc tr tc b :
  onBoard fr fc -> onBoard tr tc ->
  isPathClear fr fc tr tc b = true <->
  aligned fr fc tr tc
  /\ forall j,
      0 < j < Z.max (Z.abs (tr - fr)) (Z.abs (tc - fc)) ->
      passable (cell b (fr + j * Z.sgn (tr - fr)) (fc + j * Z.sgn (tc - fc)))
      = true.
Proof.
  intros [Hfr Hfc] [Htr Htc]. unfold isPathClear, JS.sign, aligned.
  rewrite isPathClear_loop_true.
  destruct (Z.sgn_spec (tr - fr)) as [[Hr ->]|[[Hr ->]|[Hr ->]]];
    destruct (Z.sgn_spec (tc - fc)) as [[Hc ->]|[[Hc ->]|[Hc ->]]].
  all: split.
  all: try (intros (k & Hk & Hkr & Hkc & Hall); split; [lia|];
            intros j Hj;
            destruct (Hall (Z.to_nat (j - 1)) ltac:(lia)) as (_ & _ & Hp);
            rewrite <- Hp; f_equal; f_equal; lia).
  all: intros [Hal Hpass];
    exists (Z.to_nat (Z.max (Z.abs (tr - fr)) (Z.abs (tc - fc)) - 1));
    (split; [lia|]); (split; [lia|]); (split; [lia|]);
    intros j Hj; (split; [lia|]); (split; [unfold onBoard; lia|]);
    rewrite <- (Hpass (Z.of_nat j + 1)) by lia; f_equal; f_equal; lia.
Qed.

Lemma isPathClear_between_witness :
  let b := board (cur (createInitialGameState 0)) in
  isPathClear 5 0 2 3 b = true <->
  aligned 5 0 2 3
  /\ forall j,
      0 < j < Z.max (Z.abs (2 - 5)) (Z.abs (3 - 0)) ->
      passable (cell b (5 + j * Z.sgn (2 - 5)) (0 + j * Z.sgn (3 - 0))) = true.
Proof.
  intros b. apply (isPathClear_between 5 0 2 3 b); unfold onBoard; lia.
Defined.

(** ** The moves offered to the player *)

Lemma applyMove_accepted st fr fc tr tc sn pp :
  isAccepted (applyMove st fr fc tr tc sn pp)
  = isValidMoveIn (cur st) (currentPlayer (cur st)) fr fc tr tc.
Proof.
  unfold applyMove.
  destruct (isValidMoveIn _ _ _ _ _ _) eqn:Hv; simpl; [|done].
  apply isValidMove_moving in Hv as (moving & -> & _).
  repeat match goal with |- context [if ?x then _ else _] => destruct x end;
    done.
Qed.

(** X9: the moves that [getValidMovesForPiece] lists for a square are
    exactly the moves from that square to a square of the board that
    [applyMove] makes on the same state (finalized, or awaiting the
    promotion piece), whatever spell notation and promotion piece are
    passed: nothing listed is refused with an error, and nothing that
    would be made is missing. *)
Theorem listed_moves_are_the_accepted_moves st r c sn pp m :
  m ∈ getValidMovesForPiece r c st <->
  exists tr tc,
    m = (r, c, tr, tc) /\ onBoard tr tc
    /\ isAccepted (applyMove st r c tr tc sn pp) = true.
Proof.
  unfold getValidMovesForPiece. rewrite list_elem_of_omap. split.
  - intros ([tr tc] & Hin & Hm). apply elem_of_squares in Hin.
    destruct (isValidMoveIn _ _ _ _ _ _) eqn:Hv; [|done].
    injection Hm as <-. exists tr, tc. by rewrite applyMove_accepted.
  - intros (tr & tc & -> & Hon & Hacc). rewrite applyMove_accepted in Hacc.
    exists (tr, tc). split; [by apply elem_of_squares|]. by rewrite Hacc.
Qed.

(** ** The bookkeeping of a game *)

(** Induction over the reachable states for a property that does not look
    at the board, the castling rights or the pending promotion. *)
Lemma reachable_bookkeeping_ind (P : GameState -> Prop) :
  (forall seq, P (createInitialGameState seq)) ->
  (forall st ns, P st -> sameBookkeeping st ns -> P ns) ->
  (forall st ty r c st' n,
      P st -> applySpell st ty r c = SpellOk st' n -> P st') ->
  (forall st mn mp fr tr fc tc sn,
      P st -> P (finalizedState st mn mp fr tr fc tc sn)) ->
  (forall st, P st -> P (applyResign st)) ->
  forall st, reachable st -> P st.
Proof.
  intros Hinit Hsame Hspell Hfin Hresign.
  induction 1 as [seq|st ty r c st' n _ IH _ Hs
                 |st fr fc tr tc sn pp st' _ IH _ _ Hm
                 |st fr fc tr tc sn pp st' ctx _ IH _ _ Hm
                 |st pp sn st' _ IH Hp|st _ IH].
  - apply Hinit.
  - by eapply Hspell.
  - apply applyMove_finalized in Hm as (ns & mn & mp & Hns & ->).
    apply Hfin. by apply (Hsame st).
  - apply applyMove_Awaiting in Hm as [Hns _]. by apply (Hsame st).
  - apply applyPromotion_finalized in Hp
      as (ns & mn & mp & fr & tr & fc & tc & Hns & ->).
    apply Hfin. by apply (Hsame st).
  - by apply Hresign.
Qed.

(** The same over the games of the protocol, where every half-move starts
    on an unfinished game. *)
Lemma protocol_bookkeeping_ind seq (P : GameState -> Prop) :
  P (createInitialGameState seq) ->
  (forall st ns, P st -> sameBookkeeping st ns -> P ns) ->
  (forall st ty r c st' n,
      P st -> applySpell st ty r c = SpellOk st' n -> P st') ->
  (forall st mn mp fr tr fc tc sn,
      P st -> isGameOver (cur st) = false ->
      P (finalizedState st mn mp fr tr fc tc sn)) ->
  (forall st, P st -> isGameOver (cur st) = false -> P (applyResign st)) ->
  forall st, protocol seq st -> P st.
Proof.
  intros Hinit Hsame Hspell Hfin Hresign.
  assert (forall st fr fc tr tc sn pp st',
             P st -> isGameOver (cur st) = false ->
             applyMove st fr fc tr tc sn pp = MoveDone st' -> P st') as Hmove.
  { intros st fr fc tr tc sn pp st' HP Hover Hm.
    apply applyMove_finalized in Hm as (ns & mn & mp & Hns & ->).
    apply Hfin; [by apply (Hsame st)|].
    destruct Hns as (_ & _ & _ & _ & -> & _). done. }
  assert (forall st fr fc tr tc sn0 st1 ctx pp sn st',
             P st -> isGameOver (cur st) = false ->
             applyMove st fr fc tr tc sn0 None = MoveAwaiting st1 ctx ->
             applyPromotion st1 pp sn = MoveDone st' -> P st') as Hpromo.
  { intros st fr fc tr tc sn0 st1 ctx pp sn st' HP Hover Hm Hp.
    apply applyMove_Awaiting in Hm as [H1 _].
    apply applyPromotion_finalized in Hp
      as (ns & mn & mp & fr' & tr' & fc' & tc' & Hns & ->).
    apply Hfin; [apply (Hsame st1); [by apply (Hsame st) | done]|].
    destruct Hns as (_ & _ & _ & _ & -> & _).
    destruct H1 as (_ & _ & _ & _ & -> & _). done. }
  induction 1 as [|st fr fc tr tc pp st' _ IH Hover Hf Ht Hpp Hm
                  |st ty r c st1 n fr fc tr tc pp st' _ IH Hover Hrc Hs
                     Hf Ht Hpp Hm
                  |st fr fc tr tc sn st1 ctx pp st' _ IH Hover Hf Ht
                     Hm Hpp Hp
                  |st ty r c st1 n fr fc tr tc sn st2 ctx pp st' _ IH
                     Hover Hrc Hs Hf Ht Hm Hpp Hp
                  |st _ IH Hover].
  - apply Hinit.
  - exact (Hmove st fr fc tr tc None pp st' IH Hover Hm).
  - pose proof (Hspell st ty r c st1 n IH Hs) as H1.
    apply applySpell_Ok in Hs as (_ & _ & _ & _ & Ho & _).
    rewrite <- Ho in Hover.
    exact (Hmove st1 fr fc tr tc (Some n) pp st' H1 Hover Hm).
  - exact (Hpromo st fr fc tr tc sn st1 ctx pp None st' IH Hover Hm Hp).
  - pose proof (Hspell st ty r c st1 n IH Hs) as H1.
    apply applySpell_Ok in Hs as (_ & _ & _ & _ & Ho & _).
    rewrite <- Ho in Hover.
    exact (Hpromo st1 fr fc tr tc sn st2 ctx pp (Some n) st' H1 Hover Hm Hp).
  - by apply Hresign.
Qed.

(** What finalization writes in the log and in the history, and how it
    advances the counters. *)
Lemma finalizedState_fields ns mn mp fr tr fc tc sn :
  let st' := finalizedState ns mn mp fr tr fc tc sn in
  exists snap e,
    history st' = history ns ++ [snap]
    /\ moveLog (cur st') = moveLog (cur ns) ++ [e]
    /\ moveLog snap = moveLog (cur ns) ++ [e]
    /\ plySnapshotIndex e = Z.of_nat (List.length (history ns))
    /\ turn e = gameTurnNumber (cur ns)
    /\ player e = currentPlayer (cur ns)
    /\ spells (cur st') = spells (cur ns)
    /\ plyCount (cur st') = plyCount (cur ns) + 1
    /\ gameTurnNumber (cur ns) <= gameTurnNumber (cur st')
    /\ (isGameOver (cur st') = false ->
        currentPlayer (cur st') = opponent (currentPlayer (cur ns))
        /\ gameTurnNumber (cur st')
           = gameTurnNumber (cur ns)
             + match currentPlayer (cur ns) with white => 0 | black => 1 end).
Proof.
  intros st'. subst st'. rewrite finalizedState_eq. cbv zeta.
  set (snap := finalizedSnapshot ns mn mp fr tr fc tc sn).
  set (e := mkMoveLogEntry (gameTurnNumber (cur ns)) (currentPlayer (cur ns))
              (default "" (notation <$> last (moveLog snap)))
              (compactActionsOf sn mn fr tr fc tc)
              (Z.of_nat (List.length (history ns)))).
  exists snap, e.
  assert (moveLog snap = moveLog (cur ns) ++ [e]) as Hlog.
  { subst e snap. unfold finalizedSnapshot. cbn [moveLog].
    by rewrite last_snoc. }
  assert (plySnapshotIndex e = Z.of_nat (List.length (history ns))
          /\ turn e = gameTurnNumber (cur ns)
          /\ player e = currentPlayer (cur ns)) as (He1 & He2 & He3) by done.
  assert (spells snap = spells (cur ns) /\ plyCount snap = plyCount (cur ns) + 1)
    as [Hspells Hply] by done.
  assert (gameTurnNumber (cur ns) <= gameTurnNumber snap) as Hturn.
  { subst snap. unfold finalizedSnapshot. cbn [gameTurnNumber].
    destruct (_.1.1); [lia|]. destruct (currentPlayer (cur ns)); lia. }
  assert (isGameOver snap = false ->
          currentPlayer snap = opponent (currentPlayer (cur ns))
          /\ gameTurnNumber snap
             = gameTurnNumber (cur ns)
               + match currentPlayer (cur ns) with white => 0 | black => 1 end)
    as Hnext.
  { clear Hlog. subst snap. unfold finalizedSnapshot.
    cbn [gameTurnNumber currentPlayer isGameOver]. intros ->.
    destruct (currentPlayer (cur ns)); split; (done || lia). }
  clearbody e. clearbody snap.
  destruct (isGameOver snap) eqn:Hover.
  - cbn [cur history]. repeat split; try done; congruence.
  - destruct (_ >=? 3); cbn [cur history].
    + destruct snap. cbn in *. subst. repeat split; try done.
    + repeat split; try done; by apply Hnext.
Qed.

(** *** Spell charges *)

(** X10: in every reachable state each player has between 0 and 2 jump
    charges and between 0 and 5 freeze charges, the turn number is at
    least 1, every cooldown marker lies between 0 and the turn number, and
    a marker is 0 (read by [isSpellOnCooldown] as never used) exactly while
    that player still has all the charges of the spell. *)
Theorem spell_charges_stay_in_bounds st :
  reachable st ->
  1 <= gameTurnNumber (cur st)
  /\ forall c, chargesOk (gameTurnNumber (cur st)) (spellsOf (spells (cur st)) c).
Proof.
  revert st. apply reachable_bookkeeping_ind.
  - intros seq. unfold createInitialGameState.
    destruct (initialRows 0 INITIAL_BOARD_SETUP seq) as [b ?]. simpl.
    split; [lia|]. intros []; unfold chargesOk; simpl; lia.
  - intros st ns H (_ & _ & _ & _ & _ & _ & _ & _ & -> & ->). exact H.
  - intros st ty r c st' n [Hturn H] Hs. revert Hs.
    unfold applySpell, canCastSpell, isSpellOnCooldown, deepCopyState.
    pose proof (H (currentPlayer (cur st))) as Hme.
    pose proof (H (opponent (currentPlayer (cur st)))) as Hopp.
    unfold chargesOk in *.
    destruct ty.
    + destruct (jump _ <=? 0) eqn:Hcount; [done|]. cbn [negb].
      destruct (negb (negb _)); [done|].
      destruct (cell (board (cur st)) r c); [|done]. intros [= <- _].
      cbn [cur with_cur gameTurnNumber spells set_board set_activeSpells
             set_spells].
      split; [done|]. intros c'.
      destruct (currentPlayer (cur st)), c'; cbn in *; lia.
    + destruct (freeze _ <=? 0) eqn:Hcount; [done|]. cbn [negb].
      destruct (negb (negb _)); [done|]. intros [= <- _].
      cbn [cur with_cur gameTurnNumber spells set_board set_activeSpells
             set_spells].
      split; [done|]. intros c'.
      destruct (currentPlayer (cur st)), c'; cbn in *; lia.
  - intros st mn mp fr tr fc tc sn [Hturn H].
    destruct (finalizedState_fields st mn mp fr tr fc tc sn)
      as (snap & e & _ & _ & _ & _ & _ & _ & -> & _ & Hle & _).
    split; [lia|]. intros c. specialize (H c). unfold chargesOk in *. lia.
  - intros st H. exact H.
Qed.

Lemma spell_charges_stay_in_bounds_witness :
  let st := played 0 kingCaptureGame in
  1 <= gameTurnNumber (cur st)
  /\ forall c, chargesOk (gameTurnNumber (cur st)) (spellsOf (spells (cur st)) c).
Proof.
  intros st. apply (spell_charges_stay_in_bounds st).
  apply played_reachable. vm_compute. reflexivity.
Defined.

(** *** The history and the move log *)

Lemma historyAgrees_push st st' snap e :
  historyAgrees st ->
  history st' = history st ++ [snap] ->
  moveLog (cur st') = moveLog (cur st) ++ [e] ->
  moveLog snap = moveLog (cur st) ++ [e] ->
  plySnapshotIndex e = Z.of_nat (List.length (history st)) ->
  historyAgrees st'.
Proof.
  intros (Hlen & Hsnap & Hidx) Hh Hl Hs He. unfold historyAgrees.
  rewrite Hh, Hl, !length_app. cbn [List.length]. split; [lia|]. split.
  - intros k s Hk. apply lookup_app_Some in Hk as [Hk|[Hge Hk]].
    + rewrite take_app_le; [by apply Hsnap|].
      apply lookup_lt_Some in Hk. lia.
    + apply list_lookup_singleton_Some in Hk as [Hk <-].
      rewrite Hs, take_ge; [done|]. rewrite length_app. cbn [List.length]. lia.
  - intros i e' Hi. apply lookup_app_Some in Hi as [Hi|[Hge Hi]].
    + by apply Hidx.
    + apply list_lookup_singleton_Some in Hi as [Hi <-]. lia.
Qed.

Lemma reachable_historyAgrees st : reachable st -> historyAgrees st.
Proof.
  revert st. apply reachable_bookkeeping_ind.
  - intros seq. unfold createInitialGameState.
    destruct (initialRows 0 INITIAL_BOARD_SETUP seq) as [b ?].
    unfold historyAgrees. cbn [history cur moveLog List.length].
    split; [done|]. split; [|done].
    intros [|k] s; [by intros [= <-] | done].
  - intros st ns H (Hh & _ & _ & _ & _ & _ & Hl & _). unfold historyAgrees.
    by rewrite Hh, Hl.
  - intros st ty r c st' n H Hs.
    apply applySpell_Ok in Hs as (_ & _ & _ & _ & _ & _ & Hh & _ & Hl & _).
    unfold historyAgrees. by rewrite Hh, Hl.
  - intros st mn mp fr tr fc tc sn H.
    destruct (finalizedState_fields st mn mp fr tr fc tc sn)
      as (snap & e & Hh & Hl & Hs & He & _).
    by apply (historyAgrees_push st _ snap e).
  - intros st H.
    by eapply (historyAgrees_push st (applyResign st)).
Qed.

(** X11: in every reachable state the history has one snapshot more than
    the move log has entries, and entry [i] of the log carries the index
    [i + 1]: that index is a valid position of the history, [onHistoryJump]
    leaves it as it is, and the snapshot it addresses was taken right after
    the entry was logged (the entry is the last one of the snapshot's own
    log). *)
Theorem log_entry_addresses_its_snapshot st i e :
  reachable st ->
  moveLog (cur st) !! i = Some e ->
  plySnapshotIndex e = Z.of_nat i + 1
  /\ onHistoryJump (Z.of_nat (List.length (history st))) (plySnapshotIndex e)
     = plySnapshotIndex e
  /\ exists snap,
      history st !! Z.to_nat (plySnapshotIndex e) = Some snap
      /\ last (moveLog snap) = Some e.
Proof.
  intros Hst Hi. apply reachable_historyAgrees in Hst as (Hlen & Hsnap & Hidx).
  pose proof (lookup_lt_Some _ _ _ Hi) as Hlt.
  rewrite (Hidx i e Hi). split; [done|]. split.
  - unfold onHistoryJump. lia.
  - replace (Z.to_nat (Z.of_nat i + 1)) with (S i) by lia.
    destruct (history st !! S i) as [snap|] eqn:Hs.
    + exists snap. split; [done|]. rewrite (Hsnap _ _ Hs).
      rewrite (take_S_r _ _ e) by done. apply last_snoc.
    + apply lookup_ge_None in Hs. lia.
Qed.

Lemma log_entry_addresses_its_snapshot_witness :
  let st := played 0 threefoldGame in
  exists e,
    moveLog (cur st) !! 3%nat = Some e
    /\ plySnapshotIndex e = 4
    /\ onHistoryJump (Z.of_nat (List.length (history st))) (plySnapshotIndex e)
       = plySnapshotIndex e
    /\ exists snap,
        history st !! Z.to_nat (plySnapshotIndex e) = Some snap
        /\ last (moveLog snap) = Some e.
Proof.
  intros st.
  assert (reachable st) as Hst
    by (apply played_reachable; vm_compute; reflexivity).
  assert (isSome (moveLog (cur st) !! 3%nat) = true) as Hi
    by (vm_compute; reflexivity).
  revert Hst Hi. generalize st. clear st. intros st Hst Hi.
  destruct (moveLog (cur st) !! 3%nat) as [e|] eqn:He; [|discriminate Hi].
  exists e. split; [done|].
  exact (log_entry_addresses_its_snapshot st 3%nat e Hst He).
Defined.

(** X12: in every reachable state the history is not empty, and the three
    navigation handlers keep the viewed index a position of the history:
    back and forward from a valid index, and a jump from any index, land
    between 0 and the last snapshot. *)
Theorem history_navigation_stays_in_history st i j :
  reachable st ->
  0 <= i < Z.of_nat (List.length (history st)) ->
  let n := Z.of_nat (List.length (history st)) in
  0 <= onHistoryBack i < n
  /\ 0 <= onHistoryForward n i < n
  /\ 0 <= onHistoryJump n j < n.
Proof.
  intros Hst Hi n. subst n.
  apply reachable_historyAgrees in Hst as (Hlen & _).
  unfold onHistoryBack, onHistoryForward, onHistoryJump. lia.
Qed.

Lemma history_navigation_stays_in_history_witness :
  let st := played 0 threefoldGame in
  let n := Z.of_nat (List.length (history st)) in
  n = 9
  /\ 0 <= onHistoryBack 8 < n
  /\ 0 <= onHistoryForward n 8 < n
  /\ 0 <= onHistoryJump n 100 < n.
Proof.
  intros st n.
  assert (n = 9) as Hn by (vm_compute; reflexivity).
  assert (reachable st) as Hst
    by (apply played_reachable; vm_compute; reflexivity).
  split; [exact Hn|]. subst n. revert Hn Hst. generalize st. clear st.
  intros st Hn Hst.
  apply (history_navigation_stays_in_history st 8 100 Hst). lia.
Defined.

(** *** Turns and plies *)

Lemma turnsAgree_push st st' e :
  turnsAgree st -> isGameOver (cur st) = false ->
  moveLog (cur st') = moveLog (cur st) ++ [e] ->
  turn e = gameTurnNumber (cur st) -> player e = currentPlayer (cur st) ->
  (isGameOver (cur st') = false ->
   plyCount (cur st') = plyCount (cur st) + 1
   /\ currentPlayer (cur st') = opponent (currentPlayer (cur st))
   /\ gameTurnNumber (cur st')
      = gameTurnNumber (cur st)
        + match currentPlayer (cur st) with white => 0 | black => 1 end) ->
  turnsAgree st'.
Proof.
  intros [Hlog Hnow] Hover Hl Hturn Hplayer Hnext.
  destruct (Hnow Hover) as (Hply & Hlen & H1). split.
  - intros i e' Hi. rewrite Hl in Hi.
    apply lookup_app_Some in Hi as [Hi|[Hge Hi]]; [by apply Hlog|].
    apply list_lookup_singleton_Some in Hi as [Hi <-].
    rewrite Hturn, Hplayer.
    lia.
  - intros Hover'. destruct (Hnext Hover') as (Hp' & Hc' & Ht').
    rewrite Hl, length_app, Hp', Hc', Ht'. cbn [List.length].
    unfold plyOf in *. destruct (currentPlayer (cur st)); simpl; lia.
Qed.

(** X13: in a game played by the protocol, entry [i] of the move log was
    made on ply [i] (turn [i / 2 + 1], by White when [i] is even), so no
    two entries share a turn and a colour; and while the game is not over
    the ply count equals the number of log entries and determines the
    player to move and the turn number. *)
Theorem protocol_turns_and_plies seq st :
  protocol seq st -> turnsAgree st.
Proof.
  revert st. apply protocol_bookkeeping_ind.
  - unfold createInitialGameState.
    destruct (initialRows 0 INITIAL_BOARD_SETUP seq) as [b ?].
    split; [done|]. intros _. unfold plyOf. cbn. lia.
  - intros st ns H (_ & _ & Hp & _ & Ho & _ & Hl & Hc & Ht & _).
    unfold turnsAgree. by rewrite Hp, Ho, Hl, Hc, Ht.
  - intros st ty r c st' n H Hs.
    apply applySpell_Ok in Hs
      as (_ & Hc & Ht & Hp & Ho & _ & _ & _ & Hl & _).
    unfold turnsAgree. by rewrite Hp, Ho, Hl, Hc, Ht.
  - intros st mn mp fr tr fc tc sn H Hover.
    destruct (finalizedState_fields st mn mp fr tr fc tc sn)
      as (snap & e & _ & Hl & _ & _ & Hturn & Hplayer & _ & Hply & _ & Hnext).
    apply (turnsAgree_push st _ e H Hover Hl Hturn Hplayer).
    intros Hover'. split; [done|]. by apply Hnext.
  - intros st H Hover.
    by apply (turnsAgree_push st (applyResign st)
                (mkMoveLogEntry (gameTurnNumber (cur st))
                   (currentPlayer (cur st)) "R" ["R"]
                   (Z.of_nat (List.length (history st)))) H Hover).
Qed.

Lemma protocol_turns_and_plies_witness :
  turnsAgree (playedByProtocol 0 protocolGame).
Proof.
  apply (protocol_turns_and_plies 0).
  apply playedByProtocol_protocol. vm_compute. reflexivity.
Defined.

(** ** The end of the game declared by a move *)

(** The first loop of [hasLegalMoves] fails only if [isValidMove] accepts
    no move of the player between two squares of the board. *)
Lemma hasStandardMove_false player s :
  hasStandardMove player s = false ->
  noValidMove player s (enPassantTarget s).
Proof.
  intros H r c r' c' Hrc Hrc'. unfold hasStandardMove in H.
  rewrite anyb_false in H. specialize (H (r, c)). cbv beta iota in H.
  rewrite elem_of_squares in H. specialize (H Hrc).
  destruct (cell (board s) r c) as [p|] eqn:Hp;
    [|by unfold isValidMove; rewrite Hp].
  destruct (Color_eqb (p_color p) player) eqn:Hcol; cbn [negb] in H;
    [|by unfold isValidMove; rewrite Hp, Hcol].
  destruct (p_isFrozen p || isSquareUnderActiveFreeze r c (activeSpells s)
                              (plyCount s)) eqn:Hfrozen;
    [by unfold isValidMove; rewrite Hp, Hcol; cbn [negb]; rewrite Hfrozen|].
  rewrite anyb_false in H. specialize (H (r', c')). cbv beta iota in H.
  rewrite elem_of_squares in H. exact (H Hrc').
Qed.

(** The state on which [_finalizeMove] detects the end of the game: the
    ply is counted and the expired spells are removed, the en-passant
    target and the turn counters are still those before the move. *)
Lemma finalizedState_detection ns mn mp fr tr fc tc sn :
  let st' := finalizedState ns mn mp fr tr fc tc sn in
  let D :=
    updateActiveSpells
      (with_cur (fun s => set_plyCount (plyCount s + 1) s) ns) in
  let ged := gameEndDetection D (currentPlayer (cur ns)) in
  (board (cur st') = board (cur D)
   /\ activeSpells (cur st') = activeSpells (cur D)
   /\ plyCount (cur st') = plyCount (cur D)
   /\ castlingRights (cur st') = castlingRights (cur D)
   /\ spells (cur st') = spells (cur D))
  /\ (enPassantTarget (cur D) = enPassantTarget (cur ns)
      /\ gameTurnNumber (cur D) = gameTurnNumber (cur ns)
      /\ castlingRights (cur D) = castlingRights (cur ns)
      /\ spells (cur D) = spells (cur ns))
  /\ (gameEndMessage (cur st') = ged.1.2
      \/ (ged.1.1 = false
          /\ gameEndMessage (cur st') = "Draw by threefold repetition.")).
Proof.
  intros st' D ged. subst st'. rewrite finalizedState_eq. cbv zeta.
  assert (board (finalizedSnapshot ns mn mp fr tr fc tc sn) = board (cur D)
          /\ activeSpells (finalizedSnapshot ns mn mp fr tr fc tc sn)
             = activeSpells (cur D)
          /\ plyCount (finalizedSnapshot ns mn mp fr tr fc tc sn)
             = plyCount (cur D)
          /\ castlingRights (finalizedSnapshot ns mn mp fr tr fc tc sn)
             = castlingRights (cur D)
          /\ spells (finalizedSnapshot ns mn mp fr tr fc tc sn)
             = spells (cur D)) as Hsame.
  { subst D ged. unfold finalizedSnapshot, updateActiveSpells, deepCopyState.
    cbn [cur with_cur plyCount activeSpells board set_plyCount].
    by destruct (updateActiveSpells_loop _ _ _). }
  assert (enPassantTarget (cur D) = enPassantTarget (cur ns)
          /\ gameTurnNumber (cur D) = gameTurnNumber (cur ns)
          /\ castlingRights (cur D) = castlingRights (cur ns)
          /\ spells (cur D) = spells (cur ns)) as HD.
  { subst D ged. unfold updateActiveSpells, deepCopyState.
    cbn [cur with_cur plyCount activeSpells board set_plyCount].
    by destruct (updateActiveSpells_loop _ _ _). }
  assert (isGameOver (finalizedSnapshot ns mn mp fr tr fc tc sn) = ged.1.1
          /\ gameEndMessage (finalizedSnapshot ns mn mp fr tr fc tc sn)
             = ged.1.2) as [Hover Hmsg] by done.
  split; [|split; [exact HD|]].
  - destruct (isGameOver _); [exact Hsame|].
    destruct (_ >=? 3); [|exact Hsame].
    by destruct (finalizedSnapshot ns mn mp fr tr fc tc sn).
  - rewrite <- Hover, <- Hmsg.
    destruct (isGameOver _); [by left|].
    destruct (_ >=? 3); [by right | by left].
Qed.

(** X14: a move is declared a checkmate or a stalemate only when the
    opponent has no valid move.  If [applyMove] returns a state with the
    message of a win by checkmate, then in the position returned the
    opponent's king is attacked, [isValidMove] accepts no move of the
    opponent between squares of the board, and the opponent's freeze has
    no charge or is cooling down at the turn number of the move; with the
    message of a draw by stalemate the king is not attacked and no move is
    accepted.  The moves are the ones valid with the en-passant target of
    the position before the move, which finalization has not replaced yet
    when it looks for them. *)
Theorem declared_mate_leaves_no_move st fr fc tr tc sn pp st' :
  applyMove st fr fc tr tc sn pp = MoveDone st' ->
  let mover := currentPlayer (cur st) in
  let opp := opponent mover in
  let inCheck :=
    isKingInCheck opp (board (cur st')) (enPassantTarget (cur st))
      (activeSpells (cur st')) (plyCount (cur st')) in
  (gameEndMessage (cur st') = capitalized mover +:+ " wins by checkmate!" ->
   inCheck = true
   /\ noValidMove opp (cur st') (enPassantTarget (cur st))
   /\ freezeUnavailable (spellsOf (spells (cur st')) opp)
        (gameTurnNumber (cur st)))
  /\ (gameEndMessage (cur st') = "Draw by stalemate." ->
      inCheck = false
      /\ noValidMove opp (cur st') (enPassantTarget (cur st))).
Proof.
  intros Hm mover opp inCheck.
  apply applyMove_Done in Hm as (_ & m & b & mn & mp & _ & _ & ->).
  set (ns := with_cur _ st) in *.
  assert (currentPlayer (cur ns) = mover
          /\ enPassantTarget (cur ns) = enPassantTarget (cur st)
          /\ gameTurnNumber (cur ns) = gameTurnNumber (cur st))
    as (Hplayer & Hep & Hturn) by done.
  destruct (finalizedState_detection ns mn mp fr tr fc tc sn)
    as ((Hb & Hsp & Hply & Hcr & Hspells) & (HDep & HDturn & _ & _) & Hmsg).
  set (D := updateActiveSpells _) in *.
  set (st' := finalizedState ns mn mp fr tr fc tc sn) in *.
  rewrite Hplayer, <- Hep, <- HDep, <- Hturn, <- HDturn in *.
  subst inCheck. unfold noValidMove. rewrite Hb, Hsp, Hply, Hcr, Hspells.
  clearbody st' D ns. clear Hb Hsp Hply Hcr Hspells Hplayer Hep Hturn HDep HDturn.
  fold opp in Hmsg.
  unfold gameEndDetection in Hmsg. cbv zeta in Hmsg. fold opp in Hmsg.
  assert (hasLegalMoves opp D = false ->
          noValidMove opp (cur D) (enPassantTarget (cur D))
          /\ (isKingInCheck opp (board (cur D)) (enPassantTarget (cur D))
                (activeSpells (cur D)) (plyCount (cur D)) = true ->
              freezeUnavailable (spellsOf (spells (cur D)) opp)
                (gameTurnNumber (cur D)))) as Hnone.
  { unfold hasLegalMoves. cbv zeta.
    destruct (hasStandardMove opp (cur D)) eqn:Hstd; [done|].
    intros Hrest. split; [by apply hasStandardMove_false|].
    intros Hc. rewrite Hc in Hrest. cbn [negb] in Hrest.
    unfold freezeUnavailable, SPELL_COOLDOWN_TURNS in *.
    destruct (freeze _ >? 0) eqn:Hf; [|lia].
    destruct (freezeLastUsedTurn _ =? 0) eqn:Hl;
      [by destruct (_ && _)|].
    destruct (gameTurnNumber (cur D) >=? _) eqn:Hg;
      [by destruct (_ && _)|].
    right. lia. }
  destruct (isSome (findKing (kingTypeOf opp) (board (cur D)))) eqn:Hking;
    cbn [negb andb fst snd] in Hmsg.
  2:{ split; intros Hmate; rewrite Hmate in Hmsg;
        destruct Hmsg as [Hmsg|[_ Hmsg]]; by destruct mover. }
  destruct (isKingInCheck opp (board (cur D)) (enPassantTarget (cur D))
              (activeSpells (cur D)) (plyCount (cur D))) eqn:Hcheck;
    destruct (hasLegalMoves opp D) eqn:Hmoves;
    cbn [negb andb fst snd] in Hmsg.
  all: split; intros Hmate; rewrite Hmate in Hmsg.
  all: try (destruct Hmsg as [Hmsg|[_ Hmsg]]; by destruct mover).
  - destruct (Hnone eq_refl) as [Hno Hfreeze]. auto.
  - destruct (Hnone eq_refl) as [Hno _]. auto.
Qed.

Lemma declared_mate_leaves_no_move_witness :
  let st := played 0 (removelast checkmateGame) in
  let st' := resultState st (applyMove st 6 0 5 0 None None) in
  gameEndMessage (cur st') = "White wins by checkmate!"
  /\ isKingInCheck black (board (cur st')) (enPassantTarget (cur st))
       (activeSpells (cur st')) (plyCount (cur st')) = true
  /\ noValidMove black (cur st') (enPassantTarget (cur st))
  /\ freezeUnavailable (spellsOf (spells (cur st')) black)
       (gameTurnNumber (cur st)).
Proof.
  intros st st'.
  assert (gameEndMessage (cur st') = "White wins by checkmate!") as Hmsg
    by (vm_compute; reflexivity).
  assert (isMoveDone (applyMove st 6 0 5 0 None None) = true) as Hd
    by (vm_compute; reflexivity).
  assert (currentPlayer (cur st) = white) as Hp by (vm_compute; reflexivity).
  split; [exact Hmsg|].
  subst st'. revert Hmsg Hd Hp. generalize st. clear st. intros st Hmsg Hd Hp.
  destruct (applyMove st 6 0 5 0 None None) as [s'| | |] eqn:Hm;
    try discriminate Hd.
  cbn [resultState] in *.
  pose proof (declared_mate_leaves_no_move st 6 0 5 0 None None s' Hm) as H.
  cbv zeta in H. rewrite Hp in H. apply (proj1 H). exact Hmsg.
Defined.

(** ** What a move does to the board *)

Lemma cell_movedBoard_other m b ep fr fc tr tc r c :
  r <> fr -> (r, c) <> (tr, tc) ->
  cell (movedBoard m b ep fr fc tr tc) r c = cell b r c.
Proof.
  intros Hr Hne. unfold movedBoard, castleRookBoard. cbv zeta.
  rewrite !cell_setCell_ne by congruence.
  assert (forall b0, cell (if isEnPassantMove m b0 ep fc tr tc
                           then setCell b0 fr tc None else b0) r c
                     = cell b0 r c) as ->.
  { intros b0. destruct (isEnPassantMove _ _ _ _ _ _); [|done].
    apply cell_setCell_ne. congruence. }
  destruct (isCastleMove m fc tc); [|done].
  destruct (cell b fr _); [|done].
  rewrite !cell_setCell_ne by congruence. done.
Qed.

Lemma cell_movedBoard_source m b ep fr fc tr tc :
  wfBoard b -> onBoard fr fc ->
  cell (movedBoard m b ep fr fc tr tc) fr fc = None.
Proof.
  intros Hwf Hf. unfold movedBoard. apply cell_setCell_eq; [|done].
  apply wfBoard_setCell. unfold castleRookBoard. cbv zeta.
  repeat first [done | apply wfBoard_setCell | case_match].
Qed.

(** X15: what an accepted move does to the board.  On a board of eight
    rows of eight squares, after [applyMove] has moved the piece from one
    square of the board to another, the starting square is empty; the
    target square holds the piece that moved (same id and colour, flagged
    as moved, of the same type unless it is a pawn promoted to the piece
    asked for); and every square off the starting rank other than the
    target holds what it held, up to a jumpable mark cleared by an
    expiring jump. *)
Theorem applyMove_moves_the_piece st fr fc tr tc sn pp st' m :
  wfBoard (board (cur st)) -> onBoard fr fc -> onBoard tr tc ->
  cell (board (cur st)) fr fc = Some m ->
  applyMove st fr fc tr tc sn pp = MoveDone st' ->
  cell (board (cur st')) fr fc = None
  /\ (exists q,
        cell (board (cur st')) tr tc = Some q
        /\ p_id q = p_id m /\ p_color q = p_color m /\ p_hasMoved q = true
        /\ (p_type q = p_type m
            \/ (lowerType m = "p"
                /\ p_type q = promotedType (p_color m) (default "" pp))))
  /\ (forall r c,
        r <> fr -> (r, c) <> (tr, tc) ->
        cell (board (cur st')) r c = cell (board (cur st)) r c
        \/ exists p,
            cell (board (cur st)) r c = Some p
            /\ cell (board (cur st')) r c = Some (set_isJumpable false p)).
Proof.
  intros Hwf Hf Ht Hm Hdone.
  pose proof Hdone as Hv.
  apply applyMove_Done_promotion in Hdone
    as (Hvalid & m0 & b & mn & mp & Hm0 & Hb & ->).
  rewrite Hm in Hm0. injection Hm0 as <-.
  apply isValidMove_moving in Hvalid as (_ & _ & _ & _ & _ & Hne & _).
  destruct (finalizedState_board
              (with_cur (fun s =>
                 set_board b
                   (set_castlingRights
                      (movedCastlingRights (set_hasMoved true m)
                         (castlingRights (cur st)) fr fc) s)) st)
              mn mp fr tr fc tc sn) as (-> & _).
  cbn [cur with_cur board set_board set_castlingRights plyCount activeSpells].
  set (mb := movedBoard m (board (cur st)) (enPassantTarget (cur st))
               fr fc tr tc) in *.
  assert (wfBoard mb) as Hwfm by (by apply wfBoard_movedBoard).
  pose proof (updateActiveSpells_loop_flagsCleared
                (plyCount (cur st) + 1) (activeSpells (cur st)) b) as Hflags.
  assert (cell b fr fc = None) as Hsrc.
  { destruct Hb as [->|(_ & _ & ->)].
    - by apply cell_movedBoard_source.
    - rewrite cell_setCell_ne by congruence. by apply cell_movedBoard_source. }
  assert (exists q,
             cell b tr tc = Some q
             /\ p_id q = p_id m /\ p_color q = p_color m
             /\ p_hasMoved q = true
             /\ (p_type q = p_type m
                 \/ (lowerType m = "p"
                     /\ p_type q = promotedType (p_color m) (default "" pp))))
    as (q & Hq & Hid & Hcol & Hmoved & Htype).
  { destruct Hb as [->|(Hpawn & _ & ->)].
    - exists (set_hasMoved true m).
      split; [by apply cell_movedBoard_target|]. by auto.
    - eexists. split; [by apply cell_setCell_eq|].
      cbn [p_id p_color p_hasMoved p_type set_type set_hasMoved].
      repeat split; try done. right. by split. }
  assert (forall r c, r <> fr -> (r, c) <> (tr, tc) ->
                      cell b r c = cell (board (cur st)) r c) as Hother.
  { intros r c Hr Hrc. destruct Hb as [->|(_ & _ & ->)].
    - by apply cell_movedBoard_other.
    - rewrite cell_setCell_ne by congruence. by apply cell_movedBoard_other. }
  split; [|split].
  - destruct (Hflags fr fc) as [->|(p & Hp & _)]; [done | congruence].
  - destruct (flagsCleared_type _ _ tr tc q Hflags Hq)
      as (q' & Hq' & Ht' & Hc' & Hi' & Hm' & _).
    exists q'. split; [done|]. rewrite Ht', Hc', Hi', Hm'. done.
  - intros r c Hr Hrc. rewrite <- (Hother r c Hr Hrc). apply Hflags.
Qed.

Lemma applyMove_moves_the_piece_witness :
  let st := createInitialGameState 0 in
  let st' := resultState st (applyMove st 6 4 4 4 None None) in
  isMoveDone (applyMove st 6 4 4 4 None None) = true
  /\ cell (board (cur st')) 6 4 = None
  /\ (p_id <$> cell (board (cur st')) 4 4) = Some "p-6-4-21".
Proof.
  intros st st'.
  assert (isMoveDone (applyMove st 6 4 4 4 None None) = true) as Hd
    by (vm_compute; reflexivity).
  assert (wfBoard (board (cur st))) as Hwf
    by (split; [vm_compute; reflexivity | vm_compute; repeat constructor]).
  assert (cell (board (cur st)) 6 4
          = Some (mkPiece "P" white "p-6-4-21" false false false)) as Hm
    by (vm_compute; reflexivity).
  split; [exact Hd|].
  subst st'. revert Hd Hwf Hm. generalize st. clear st. intros st Hd Hwf Hm.
  destruct (applyMove st 6 4 4 4 None None) as [s'| | |] eqn:Hdone;
    try discriminate Hd.
  cbn [resultState].
  destruct (applyMove_moves_the_piece st 6 4 4 4 None None s' _ Hwf
              ltac:(unfold onBoard; lia) ltac:(unfold onBoard; lia) Hm Hdone)
    as (Hsrc & (q & Hq & Hid & _) & _).
  split; [exact Hsrc|]. rewrite Hq. cbn. by rewrite Hid.
Defined.

(** ** The server and the client *)

Lemma protocol_entries_not_empty seq st :
  protocol seq st -> Forall (fun e => actions e <> []) (moveLog (cur st)).
Proof.
  revert st. apply protocol_bookkeeping_ind.
  - unfold createInitialGameState.
    destruct (initialRows 0 INITIAL_BOARD_SETUP seq) as [b ?]. constructor.
  - intros st ns H (_ & _ & _ & _ & _ & _ & -> & _). exact H.
  - intros st ty r c st' n H Hs.
    apply applySpell_Ok in Hs as (_ & _ & _ & _ & _ & _ & _ & _ & -> & _).
    exact H.
  - intros st mn mp fr tr fc tc sn H _.
    destruct (finalizedState_moveLog st mn mp fr tr fc tc sn) as (e & -> & He).
    apply Forall_app. split; [done|]. constructor; [|constructor].
    rewrite He. unfold compactActionsOf. cbv zeta.
    by destruct (match sn with Some _ => _ | None => _ end).
  - intros st H _. apply Forall_app. split; [done|]. by repeat constructor.
Qed.

(** X16: the move endpoint follows a protocol game.  When the row stores
    the log and the end flag of an unfinished protocol game and the client
    sends the actions of the log entry that its half-move has added, the
    endpoint (whose update succeeds, and whose piece-id counter has the
    value the game started with) answers with exactly the client's new
    state and leaves a row that stores the log and the end flag of that
    state, with status finished if the game is over. *)
Theorem PATCH_follows_the_protocol seq st st' e row :
  protocol seq st -> protocol seq st' ->
  isGameOver (cur st) = false ->
  moveLog (cur st') = moveLog (cur st) ++ [e] ->
  rowOf st row ->
  exists row',
    PATCH seq (BodyActions (actions e)) (Some row) false
    = (PatchOk st' (compact_action_log row') (status row'), Some row')
    /\ rowOf st' row'
    /\ status row' = statusAfter (status row) st'.
Proof.
  intros Hst Hst' Hover Hlog [Hrow Hflag].
  pose proof (protocol_entries_not_empty seq st' Hst') as Hne.
  rewrite Hlog in Hne. apply Forall_app in Hne as [_ Hne].
  apply Forall_cons in Hne as [Hne _].
  destruct (protocol_replays seq st Hst) as (_ & Hgood & _).
  destruct (protocol_replays seq st' Hst') as (_ & Hgood' & Hrun').
  exists (mkGameRow (buildCompactActionLog (moveLog (cur st')))
            (isGameOver (cur st')) (statusAfter (status row) st')).
  split; [|by split]. unfold PATCH.
  destruct (actions e) as [|a rest] eqn:Hact; [done|].
  assert (splitCompactActionLog (buildCompactActionLog (moveLog (cur st)))
          = flat_map actions (moveLog (cur st))) as Hsplit.
  { unfold buildCompactActionLog. by rewrite split_join. }
  assert (flat_map actions (moveLog (cur st)) ++ actions e
          = flat_map actions (moveLog (cur st'))) as Happ.
  { rewrite Hlog, flat_map_app. cbn [flat_map]. by rewrite app_nil_r. }
  rewrite Hflag, Hover, Hrow, Hsplit, <- Hact, Happ.
  unfold replayCompactActions. rewrite replay_loop_run, Hrun'.
  unfold statusAfter. by destruct (status row).
Qed.

Lemma PATCH_follows_the_protocol_witness :
  let st := playedByProtocol 0 (take 4 protocolGame) in
  let st' := playedByProtocol 0 (take 5 protocolGame) in
  let row := mkGameRow "a2-a4,b7-b5,a4-b5,h7-h6" false statusActive in
  exists row',
    PATCH 0 (BodyActions ["j@e2"; "b5-b6"]) (Some row) false
    = (PatchOk st' (compact_action_log row') (status row'), Some row')
    /\ rowOf st' row'
    /\ status row' = statusAfter (status row) st'.
Proof.
  intros st st' row.
  assert (protocol 0 st) as Hst
    by (apply playedByProtocol_protocol; vm_compute; reflexivity).
  assert (protocol 0 st') as Hst'
    by (apply playedByProtocol_protocol; vm_compute; reflexivity).
  assert (isGameOver (cur st) = false) as Hover by (vm_compute; reflexivity).
  assert (exists e,
             moveLog (cur st') = moveLog (cur st) ++ [e]
             /\ actions e = ["j@e2"; "b5-b6"]) as (e & Hlog & Hact).
  { eexists. split; vm_compute; reflexivity. }
  assert (rowOf st row) as Hrow by (split; vm_compute; reflexivity).
  revert Hst Hst' Hover Hlog Hrow. generalize st st'. clear st st'.
  intros st st' Hst Hst' Hover Hlog Hrow. rewrite <- Hact.
  exact (PATCH_follows_the_protocol 0 st st' e row Hst Hst' Hover Hlog Hrow).
Defined.

(** *** The highlight of the last move *)

(** X17: the squares highlighted for the last move are the squares of the
    move.  For the state returned by an accepted move between squares of
    the board (with or without the notation of a cast, promotion letter of
    the grammar), [historyHighlightSquares] on the last snapshot of the
    history gives the names of the starting square and of the target
    square, and nothing else: the token of the cast is skipped. *)
Theorem last_move_is_highlighted st fr fc tr tc cast pp st' :
  settled st -> onBoard fr fc -> onBoard tr tc -> promoOk pp ->
  match cast with Some (_, r, c) => onBoard r c | None => True end ->
  applyMove st fr fc tr tc (castNotation cast) pp = MoveDone st' ->
  historyHighlightSquares (last (history st'))
  = [algebraicFromCoords fr fc; algebraicFromCoords tr tc].
Proof.
  intros Hst Hf Ht Hpp Hcast Hm.
  destruct (applyMove_logged st fr fc tr tc cast pp st' Hst Hf Ht Hpp Hcast Hm)
    as (_ & promo & e & Hpromo & _ & Hlog & Hact).
  apply applyMove_finalized in Hm
    as (ns & mn & mp & (_ & _ & _ & _ & _ & _ & Hl & _) & ->).
  destruct (finalizedState_fields ns mn mp fr tr fc tc (castNotation cast))
    as (snap & e' & Hh & Hl' & Hs & _).
  rewrite Hl in Hl', Hs. rewrite Hl' in Hlog.
  apply app_inj_tail in Hlog as [_ <-].
  unfold historyHighlightSquares. rewrite Hh, last_snoc, Hs, last_snoc, Hact.
  rewrite flat_map_app.
  assert (flat_map
            (fun action =>
               if negb (JS.includes "@" action) && negb (String.eqb action "R")
               then
                 match JS.split "-" action with
                 | fromAlg :: toAndPromo :: _ =>
                     if JS.truthy fromAlg && JS.truthy toAndPromo
                     then [fromAlg; JS.substring02 toAndPromo]
                     else []
                 | _ => []
                 end
               else []) (castTokens cast) = []) as ->.
  { destruct cast as [[[ty r] c]|]; [|done]. cbn [castTokens flat_map].
    destruct (spellToken_kind ty r c Hcast) as (_ & -> & _). done. }
  cbn [flat_map app].
  destruct (moveToken_kind fr fc tr tc promo Hf Ht Hpromo) as (_ & -> & _).
  destruct (moveToken_split fr fc tr tc promo Hf Ht Hpromo) as (-> & -> & _).
  assert (String.eqb (moveToken fr fc tr tc promo) "R" = false) as ->.
  { apply String.eqb_neq. unfold moveToken.
    rewrite (algebraicFromCoords_chars fr fc) by done. done. }
  cbn [negb andb]. rewrite (algebraicFromCoords_chars fr fc) by done.
  rewrite (algebraicFromCoords_chars tr tc) by done. done.
Qed.

Lemma last_move_is_highlighted_witness :
  let st := createInitialGameState 0 in
  let st' := resultState st (applyMove st 6 4 4 4 None None) in
  isMoveDone (applyMove st 6 4 4 4 None None) = true
  /\ historyHighlightSquares (last (history st')) = ["e2"; "e4"].
Proof.
  intros st st'.
  assert (isMoveDone (applyMove st 6 4 4 4 None None) = true) as Hd
    by (vm_compute; reflexivity).
  assert (settled st) as Hst by apply initial_settled.
  split; [exact Hd|].
  subst st'. revert Hd Hst. generalize st. clear st. intros st Hd Hst.
  destruct (applyMove st 6 4 4 4 None None) as [s'| | |] eqn:Hdone;
    try discriminate Hd.
  cbn [resultState].
  apply (last_move_is_highlighted st 6 4 4 4 None None s' Hst);
    [unfold onBoard; lia | unfold onBoard; lia | exact I | exact I
    | exact Hdone].
Defined.

(** *** The borders of the freeze zones *)

Lemma isSquareUnderActiveFreeze_true r c spells ply :
  isSquareUnderActiveFreeze r c spells ply = true <->
  exists target ids e,
    ActiveFreeze target ids e ∈ spells /\ ply < e /\ inFreezeZone target r c.
Proof.
  unfold inFreezeZone. induction spells as [|spell rest IH]; simpl.
  - split; [done|]. intros (t & ids & e & Hin & _). by inversion Hin.
  - destruct spell as [tid e|t ids e].
    + rewrite IH. split.
      * intros (t' & ids' & e' & Hin & H). exists t', ids', e'.
        split; [by apply list_elem_of_further | done].
      * intros (t' & ids' & e' & Hin & H). exists t', ids', e'.
        apply elem_of_cons in Hin as [|Hin]; [done|]. done.
    + destruct (_ && _ && _ && _ && _) eqn:Hz.
      * split; [|done]. intros _. exists t, ids, e.
        split; [by apply list_elem_of_here | lia].
      * rewrite IH. split.
        -- intros (t' & ids' & e' & Hin & H). exists t', ids', e'.
           split; [by apply list_elem_of_further | done].
        -- intros (t' & ids' & e' & Hin & H). exists t', ids', e'.
           apply elem_of_cons in Hin as [[= <- <- <-]|Hin]; [lia | done].
Qed.

Lemma freezeIndicatorClassesOf_truthy r c ply spell :
  Forall (fun cls => JS.truthy cls = true)
    (freezeIndicatorClassesOf r c ply spell).
Proof.
  unfold freezeIndicatorClassesOf. destruct spell as [|t ids e]; [done|].
  destruct (ply >=? e); [done|]. cbv zeta. destruct (negb _); [done|].
  repeat (apply Forall_app; split);
    by match goal with |- context [if ?x then _ else _] =>
         destruct x; repeat constructor end.
Qed.

Lemma join_truthy sep l :
  Forall (fun x => JS.truthy x = true) l ->
  JS.truthy (JS.join sep l) = true <-> l <> [].
Proof.
  destruct l as [|x [|y l]]; simpl.
  - done.
  - intros Hx. apply Forall_cons in Hx as [Hx _]. by rewrite Hx.
  - intros Hx. apply Forall_cons in Hx as [Hx _]. by destruct x.
Qed.

(** X18: the border marks of the board follow the freeze of the engine.
    [getFreezeIndicatorClasses] gives a square a class only if
    [isSquareUnderActiveFreeze] holds for it; and every square in the zone
    of a freeze that has not expired, other than the square the freeze was
    cast on, gets at least one border class. *)
Theorem freeze_borders_follow_the_engine r c spells ply :
  (JS.truthy (getFreezeIndicatorClasses r c spells ply) = true ->
   isSquareUnderActiveFreeze r c spells ply = true)
  /\ (forall target ids e,
        ActiveFreeze target ids e ∈ spells -> ply < e ->
        inFreezeZone target r c -> (r, c) <> (sq_r target, sq_c target) ->
        JS.truthy (getFreezeIndicatorClasses r c spells ply) = true).
Proof.
  unfold getFreezeIndicatorClasses.
  assert (Forall (fun cls => JS.truthy cls = true)
            (flat_map (freezeIndicatorClassesOf r c ply) spells)) as Hall.
  { induction spells as [|s rest IH]; [done|]. cbn [flat_map].
    apply Forall_app. split; [apply freezeIndicatorClassesOf_truthy | done]. }
  split.
  - intros Hne. apply (join_truthy _ _ Hall) in Hne.
    apply isSquareUnderActiveFreeze_true. clear Hall.
    induction spells as [|s rest IH]; [done|]. cbn [flat_map] in Hne.
    destruct (freezeIndicatorClassesOf r c ply s) as [|cls l] eqn:Hs.
    + destruct (IH Hne) as (t & ids & e & Hin & H). exists t, ids, e.
      split; [by apply list_elem_of_further | done].
    + clear IH Hne. unfold freezeIndicatorClassesOf in Hs.
      destruct s as [|t ids e]; [done|].
      destruct (ply >=? e) eqn:He; [done|]. cbv zeta in Hs.
      destruct (_ && _ && _ && _) eqn:Hz; [|done].
      exists t, ids, e. split; [by apply list_elem_of_here|].
      unfold inFreezeZone. lia.
  - intros t ids e Hin He [Hr Hc] Hne. apply (join_truthy _ _ Hall).
    intros Hnil.
    assert (freezeIndicatorClassesOf r c ply (ActiveFreeze t ids e) = [])
      as Hs.
    { clear Hall. induction spells as [|s rest IH]; [by inversion Hin|].
      cbn [flat_map] in Hnil. apply app_eq_nil in Hnil as [H1 H2].
      apply elem_of_cons in Hin as [<-|Hin]; [done | by apply IH]. }
    unfold freezeIndicatorClassesOf in Hs.
    assert ((ply >=? e) = false) as Hge by lia. rewrite Hge in Hs.
    cbv zeta in Hs.
    assert ((r >=? Z.max 0 (sq_r t - 1)) && (r <=? Z.min 7 (sq_r t + 1))
            && (c >=? Z.max 0 (sq_c t - 1)) && (c <=? Z.min 7 (sq_c t + 1))
            = true) as Hz by lia.
    rewrite Hz in Hs. cbn [negb] in Hs.
    apply app_eq_nil in Hs as [H1 Hs]. apply app_eq_nil in Hs as [H2 Hs].
    apply app_eq_nil in Hs as [H3 H4].
    destruct (r =? Z.max 0 (sq_r t - 1)) eqn:E1; [done|].
    destruct (r =? Z.min 7 (sq_r t + 1)) eqn:E2; [done|].
    destruct (c =? Z.max 0 (sq_c t - 1)) eqn:E3; [done|].
    destruct (c =? Z.min 7 (sq_c t + 1)) eqn:E4; [done|].
    apply Hne. f_equal; lia.
Qed.

Lemma freeze_borders_follow_the_engine_witness :
  let spells := [ActiveFreeze (mkSquare 7 4) [] 4] in
  getFreezeIndicatorClasses 6 3 spells 2 = "sq-freeze-top sq-freeze-left"
  /\ isSquareUnderActiveFreeze 6 3 spells 2 = true
  /\ JS.truthy (getFreezeIndicatorClasses 7 5 spells 2) = true.
Proof.
  intros spells. split; [reflexivity|]. split.
  - apply (proj1 (freeze_borders_follow_the_engine 6 3 spells 2)).
    reflexivity.
  - apply (proj2 (freeze_borders_follow_the_engine 7 5 spells 2)
             (mkSquare 7 4) [] 4).
    + apply list_elem_of_here.
    + lia.
    + unfold inFreezeZone. simpl. lia.
    + discriminate.
Defined.

(** ** Invariants of the board *)

Section Cells.
Variable Q : Piece -> Prop.
Hypothesis Q_hasMoved : forall p v, Q p -> Q (set_hasMoved v p).
Hypothesis Q_isJumpable : forall p v, Q p -> Q (set_isJumpable v p).
Hypothesis Q_type : forall p t, Q p -> Q (set_type t p).

Lemma cellsAll_setCell b r c v :
  cellsAll Q b -> match v with Some p => Q p | None => True end ->
  cellsAll Q (setCell b r c v).
Proof.
  intros Hb Hv. unfold setCell. destruct (_ && _); [|done].
  apply Forall_alter; [done|]. intros row _ Hrow. by apply Forall_insert.
Qed.

Lemma cellsAll_cell b r c p : cellsAll Q b -> cell b r c = Some p -> Q p.
Proof.
  intros Hb. unfold cell. destruct (_ && _); [|done].
  destruct (b !! Z.to_nat r) as [row|] eqn:Hrow; [|done].
  destruct (row !! Z.to_nat c) as [o|] eqn:Ho; [|done]. intros ->.
  eapply Forall_lookup_1 in Hb; [|exact Hrow].
  by eapply Forall_lookup_1 in Hb; [|exact Ho].
Qed.

Lemma cellsAll_movedBoard m b ep fr fc tr tc :
  cellsAll Q b -> Q m -> cellsAll Q (movedBoard m b ep fr fc tr tc).
Proof.
  intros Hb Hm. unfold movedBoard, castleRookBoard. cbv zeta.
  assert (cellsAll Q
            (if isCastleMove m fc tc
             then match cell b fr (if tc >? fc then 7 else 0) with
                  | Some rook =>
                      setCell
                        (setCell b fr (if tc >? fc then tc - 1 else tc + 1)
                           (Some (set_hasMoved true rook)))
                        fr (if tc >? fc then 7 else 0) None
                  | None => b
                  end
             else b)) as Hb'.
  { destruct (isCastleMove m fc tc); [|done].
    destruct (cell b fr _) as [rook|] eqn:Hrook; [|done].
    repeat apply cellsAll_setCell; try done.
    apply Q_hasMoved. by eapply cellsAll_cell. }
  repeat apply cellsAll_setCell; try done; [|by apply Q_hasMoved].
  by destruct (isEnPassantMove _ _ _ _ _ _); [apply cellsAll_setCell|].
Qed.

Lemma cellsAll_updateActiveSpells_loop ply spells b :
  wfBoard b -> cellsAll Q b ->
  wfBoard (updateActiveSpells_loop ply spells b).1
  /\ cellsAll Q (updateActiveSpells_loop ply spells b).1.
Proof.
  revert b. induction spells as [|spell rest IH]; intros b Hwf Hb; simpl.
  - done.
  - destruct (ply >=? expiresAtPly spell).
    + assert (forall id, wfBoard (clearJumpable b id)
                         /\ cellsAll Q (clearJumpable b id)) as Hclear.
      { intros id. unfold clearJumpable.
        destruct (findSquareById b id) as [[r c]|]; [|done].
        destruct (cell b r c) as [p|] eqn:Hp; [|done].
        split; [by apply wfBoard_setCell|].
        apply cellsAll_setCell; [done|].
        apply Q_isJumpable. by eapply cellsAll_cell. }
      destruct spell as [tid e|]; [|by apply IH].
      destruct (JS.truthy tid); [|by apply IH].
      destruct (Hclear tid). by apply IH.
    + specialize (IH b Hwf Hb).
      by destruct (updateActiveSpells_loop ply rest b).
Qed.

(** The board of every reachable state has eight rows of eight cells, and
    a property of the pieces of the initial board that the setters of the
    flags and of the type preserve holds for all its pieces. *)
Lemma reachable_cellsAll st :
  (forall seq, cellsAll Q (board (cur (createInitialGameState seq)))) ->
  reachable st ->
  wfBoard (board (cur st)) /\ cellsAll Q (board (cur st)).
Proof.
  intros Hinit.
  assert (forall ns mn mp fr tr fc tc sn,
             wfBoard (board (cur ns)) /\ cellsAll Q (board (cur ns)) ->
             wfBoard (board (cur (finalizedState ns mn mp fr tr fc tc sn)))
             /\ cellsAll Q
                  (board (cur (finalizedState ns mn mp fr tr fc tc sn))))
    as Hfin.
  { intros ns mn mp fr tr fc tc sn [Hwf Hb].
    destruct (finalizedState_board ns mn mp fr tr fc tc sn) as (-> & _).
    by apply cellsAll_updateActiveSpells_loop. }
  induction 1 as [seq|st ty r c st' n _ [IHw IHq] _ Hs
                 |st fr fc tr tc sn pp st' _ [IHw IHq] _ _ Hm
                 |st fr fc tr tc sn pp st' ctx _ [IHw IHq] _ _ Hm
                 |st pp sn st' _ [IHw IHq] Hp|st _ IH].
  - split; [apply initial_settled | apply Hinit].
  - revert Hs. unfold applySpell, deepCopyState.
    destruct (canCastSpell st ty); simpl; [|done]. destruct ty.
    + destruct (cell (board (cur st)) r c) as [p|] eqn:Hp; [|done].
      intros [= <- _].
      cbn [cur with_cur board set_board set_activeSpells set_spells].
      split; [by apply wfBoard_setCell|].
      apply cellsAll_setCell; [done|]. apply Q_isJumpable.
      by eapply cellsAll_cell.
    + by intros [= <- _].
  - apply applyMove_Done_promotion in Hm
      as (_ & m & b & mn & mp & Hcell & Hb & ->).
    apply Hfin. cbn [cur with_cur board set_board set_castlingRights].
    pose proof (cellsAll_cell _ _ _ _ IHq Hcell) as Hqm.
    destruct Hb as [->|(_ & _ & ->)].
    + split; [by apply wfBoard_movedBoard | by apply cellsAll_movedBoard].
    + split; [by apply wfBoard_setCell, wfBoard_movedBoard|].
      apply cellsAll_setCell; [by apply cellsAll_movedBoard|].
      by apply Q_type, Q_hasMoved.
  - revert Hm. unfold applyMove, deepCopyState, _finalizeMove.
    destruct (isValidMoveIn _ _ _ _ _ _); cbn [negb]; [|done].
    destruct (cell (board (cur st)) fr fc) as [m|] eqn:Hcell; [|done].
    destruct (_ && _ && _); [|done].
    destruct (truthyOpt pp); [done|]. intros [= <- _].
    cbn [cur with_cur board set_board set_castlingRights
           set_awaitingPromotion].
    pose proof (cellsAll_cell _ _ _ _ IHq Hcell) as Hqm.
    split; [by apply wfBoard_movedBoard | by apply cellsAll_movedBoard].
  - revert Hp. unfold applyPromotion, deepCopyState, _finalizeMove.
    destruct (awaitingPromotion (cur st)) as [promo|]; [|done].
    destruct (cell (board (cur st)) (ap_r promo) (ap_c promo)) as [p|]
      eqn:Hcell; [|done].
    intros [= <-]. apply Hfin.
    cbn [cur with_cur board set_board set_awaitingPromotion].
    split; [by apply wfBoard_setCell|].
    apply cellsAll_setCell; [done|]. apply Q_type.
    by eapply cellsAll_cell.
  - exact IH.
Qed.

End Cells.

(** X19: in every reachable state the board has eight rows of eight cells
    and no piece carries the [isFrozen] flag: the engine never sets it, so
    a piece is frozen only by standing in the zone of an active freeze. *)
Theorem board_shape_and_frozen_flag st :
  reachable st ->
  wfBoard (board (cur st))
  /\ forall r c p, cell (board (cur st)) r c = Some p -> p_isFrozen p = false.
Proof.
  intros Hst.
  destruct (reachable_cellsAll (fun p => p_isFrozen p = false)) with (st := st)
    as [Hwf Hall]; try done.
  - intros seq. unfold createInitialGameState, cellsAll.
    cbn [initialRows initialRow INITIAL_BOARD_SETUP cur board].
    repeat constructor.
  - split; [done|]. intros r c p Hp.
    exact (cellsAll_cell (fun p => p_isFrozen p = false) _ r c p Hall Hp).
Qed.

Lemma board_shape_and_frozen_flag_witness :
  let st := played 0 frozenKingGame in
  wfBoard (board (cur st))
  /\ forall r c p, cell (board (cur st)) r c = Some p -> p_isFrozen p = false.
Proof.
  intros st. apply (board_shape_and_frozen_flag st).
  apply played_reachable. vm_compute. reflexivity.
Defined.

(** *** Piece ids *)

Lemma cell_Some_onBoard b r c p :
  wfBoard b -> cell b r c = Some p -> onBoard r c.
Proof.
  intros [Hlen Hrows]. unfold cell, onBoard.
  destruct ((0 <=? r) && (0 <=? c)) eqn:Hnn; [|done].
  destruct (b !! Z.to_nat r) as [row|] eqn:Hrow; [|done].
  destruct (row !! Z.to_nat c) as [o|] eqn:Ho; [|done]. intros _.
  apply lookup_lt_Some in Hrow as Hr.
  eapply Forall_lookup_1 in Hrows; [|exact Hrow].
  apply lookup_lt_Some in Ho. lia.
Qed.

(** A cell of the board after one write, on a well-formed board. *)
Lemma cell_setCell_wf b r c v r' c' :
  wfBoard b ->
  cell (setCell b r c v) r' c'
  = if decide ((r, c) = (r', c'))
    then (if onBoardb r c then v else None)
    else cell b r' c'.
Proof.
  intros Hwf. case_decide as E; [|by apply cell_setCell_ne].
  injection E as <- <-. destruct (onBoardb r c) eqn:Hon.
  - apply cell_setCell_eq; [done | by apply onBoardb_true].
  - destruct (cell (setCell b r c v) r c) as [p|] eqn:Hp; [|done].
    apply cell_Some_onBoard in Hp; [|by apply wfBoard_setCell].
    unfold onBoard, onBoardb in *. lia.
Qed.

Lemma idsUnique_setCell_None b r c :
  wfBoard b -> idsUnique b -> idsUnique (setCell b r c None).
Proof.
  intros Hwf Hb r1 c1 r2 c2 p1 p2. rewrite !cell_setCell_wf by done.
  repeat case_decide; try by destruct (onBoardb r c).
  apply Hb.
Qed.

Lemma idsUnique_setCell_same b r c p p' :
  wfBoard b -> cell b r c = Some p -> p_id p' = p_id p ->
  idsUnique b -> idsUnique (setCell b r c (Some p')).
Proof.
  intros Hwf Hp Hid Hb r1 c1 r2 c2 p1 p2. rewrite !cell_setCell_wf by done.
  destruct (decide ((r, c) = (r1, c1))) as [E1|E1],
           (decide ((r, c) = (r2, c2))) as [E2|E2].
  - congruence.
  - destruct (onBoardb r c); [|done]. intros [= <-] H2 Hids.
    destruct E2. apply (Hb _ _ _ _ p p2); congruence.
  - destruct (onBoardb r c); [|done]. intros H1 [= <-] Hids.
    destruct E1. symmetry. apply (Hb _ _ _ _ p1 p); congruence.
  - apply Hb.
Qed.

(** A piece put on another square, its own square emptied. *)
Lemma idsUnique_relocate b fr fc tr tc p p' :
  wfBoard b -> cell b fr fc = Some p -> p_id p' = p_id p ->
  idsUnique b ->
  idsUnique (setCell (setCell b tr tc (Some p')) fr fc None).
Proof.
  intros Hwf Hp Hid Hb r1 c1 r2 c2 p1 p2.
  pose proof (cell_Some_onBoard _ _ _ _ Hwf Hp) as Hon.
  assert (onBoardb fr fc = true) as Hfrom
    by (unfold onBoard, onBoardb in *; lia).
  rewrite !(cell_setCell_wf (setCell b tr tc (Some p')))
    by (by apply wfBoard_setCell).
  rewrite !cell_setCell_wf by done. rewrite Hfrom.
  destruct (decide ((fr, fc) = (r1, c1))) as [F1|F1]; [done|].
  destruct (decide ((fr, fc) = (r2, c2))) as [F2|F2]; [done|].
  destruct (decide ((tr, tc) = (r1, c1))) as [E1|E1],
           (decide ((tr, tc) = (r2, c2))) as [E2|E2].
  - congruence.
  - destruct (onBoardb tr tc); [|done]. intros [= <-] H2 Hids.
    destruct F2. apply (Hb _ _ _ _ p p2); congruence.
  - destruct (onBoardb tr tc); [|done]. intros H1 [= <-] Hids.
    destruct F1. symmetry. apply (Hb _ _ _ _ p1 p); congruence.
  - apply Hb.
Qed.

Lemma idsUnique_movedBoard m b ep fr fc tr tc :
  wfBoard b -> onBoard tr tc -> cell b fr fc = Some m ->
  idsUnique b -> idsUnique (movedBoard m b ep fr fc tr tc).
Proof.
  intros Hwf [_ Htc] Hm Hb. unfold movedBoard. cbv zeta.
  set (b1 := castleRookBoard m b fr fc tc).
  assert (wfBoard b1 /\ idsUnique b1 /\ cell b1 fr fc = Some m)
    as (Hwf1 & Hb1 & Hm1).
  { subst b1. unfold castleRookBoard.
    destruct (isCastleMove m fc tc) eqn:Hcastle; [|done].
    destruct (cell b fr (if tc >? fc then 7 else 0)) as [rook|] eqn:Hrook;
      [|done].
    unfold isCastleMove in Hcastle.
    apply andb_true_iff in Hcastle as [_ Habs].
    split; [by repeat apply wfBoard_setCell|]. split.
    - by apply (idsUnique_relocate b _ _ _ _ rook).
    - rewrite !cell_setCell_ne; [done|..]; destruct (tc >? fc) eqn:Hside;
        intros [= ?]; lia. }
  set (b2 := if isEnPassantMove m b1 ep fc tr tc
             then setCell b1 fr tc None else b1).
  assert (wfBoard b2 /\ idsUnique b2 /\ cell b2 fr fc = Some m)
    as (Hwf2 & Hb2 & Hm2).
  { subst b2. destruct (isEnPassantMove m b1 ep fc tr tc) eqn:Hep; [|done].
    unfold isEnPassantMove in Hep. split_andb.
    split; [by apply wfBoard_setCell|].
    split; [by apply idsUnique_setCell_None|].
    rewrite cell_setCell_ne; [done|]. intros [= ?]. lia. }
  by apply (idsUnique_relocate b2 _ _ _ _ m).
Qed.

Lemma idsUnique_updateActiveSpells_loop ply spells b :
  wfBoard b -> idsUnique b ->
  idsUnique (updateActiveSpells_loop ply spells b).1.
Proof.
  revert b. induction spells as [|spell rest IH]; intros b Hwf Hb; simpl.
  - done.
  - destruct (ply >=? expiresAtPly spell).
    + assert (forall id, wfBoard (clearJumpable b id)
                         /\ idsUnique (clearJumpable b id)) as Hclear.
      { intros id. unfold clearJumpable.
        destruct (findSquareById b id) as [[r c]|]; [|done].
        destruct (cell b r c) as [p|] eqn:Hp; [|done].
        split; [by apply wfBoard_setCell|].
        by apply (idsUnique_setCell_same b r c p). }
      destruct spell as [tid e|]; [|by apply IH].
      destruct (JS.truthy tid); [|by apply IH].
      destruct (Hclear tid). by apply IH.
    + specialize (IH b Hwf Hb).
      by destruct (updateActiveSpells_loop ply rest b).
Qed.

(** The id of a piece of the initial board names its square. *)
Lemma initial_ids seq r c p :
  cell (board (cur (createInitialGameState seq))) r c = Some p ->
  exists n, p_id p = newPieceId r c n.
Proof.
  intros Hp.
  assert (onBoard r c) as Hon.
  { eapply cell_Some_onBoard; [apply initial_settled | exact Hp]. }
  revert p Hp. revert r c Hon.
  apply (onBoard_forall
           (fun r c =>
              forall p,
                cell (board (cur (createInitialGameState seq))) r c = Some p ->
                exists n, p_id p = newPieceId r c n)).
  unfold createInitialGameState.
  cbn [initialRows initialRow INITIAL_BOARD_SETUP cur board].
  repeat constructor; cbn; intros p Hp; try discriminate Hp;
    injection Hp as <-; eexists; reflexivity.
Qed.

Lemma newPieceId_inj r c n r' c' n' :
  onBoard r c -> onBoard r' c' ->
  newPieceId r c n = newPieceId r' c' n' -> (r, c) = (r', c').
Proof.
  intros [Hr Hc] [Hr' Hc']. unfold newPieceId.
  rewrite !(ofZ_digit r), !(ofZ_digit c), !(ofZ_digit r'), !(ofZ_digit c')
    by lia.
  cbn. intros [= H1 H2 _].
  apply (f_equal N_of_ascii) in H1, H2.
  rewrite !N_ascii_embedding in H1, H2 by lia. f_equal; lia.
Qed.

Lemma reachable_wfBoard st : reachable st -> wfBoard (board (cur st)).
Proof.
  intros Hst.
  destruct (reachable_cellsAll (fun _ => True)) with (st := st); try done.
  intros seq. unfold createInitialGameState, cellsAll.
  cbn [initialRows initialRow INITIAL_BOARD_SETUP cur board].
  repeat constructor.
Qed.

(** X20: in every reachable state no two squares hold pieces with the
    same id, so [findPieceById] finds the one piece a jump spell was cast
    on.  The ids given by [createInitialGameState] name the squares of the
    pieces, and a move, a castling, a capture en passant, a promotion and
    the clearing of a jumpable mark carry the id with the piece. *)
Theorem piece_ids_stay_unique st :
  reachable st -> idsUnique (board (cur st)).
Proof.
  assert (forall ns mn mp fr tr fc tc sn,
             wfBoard (board (cur ns)) -> idsUnique (board (cur ns)) ->
             idsUnique (board (cur (finalizedState ns mn mp fr tr fc tc sn))))
    as Hfin.
  { intros ns mn mp fr tr fc tc sn Hwf Hb.
    destruct (finalizedState_board ns mn mp fr tr fc tc sn) as (-> & _).
    by apply idsUnique_updateActiveSpells_loop. }
  intros Hst. pose proof (reachable_wfBoard st Hst) as Hwf'. revert Hwf'.
  induction Hst as [seq|st ty r c st' n Hst IH _ Hs
                   |st fr fc tr tc sn pp st' Hst IH _ Ht Hm
                   |st fr fc tr tc sn pp st' ctx Hst IH _ Ht Hm
                   |st pp sn st' Hst IH Hp|st Hst IH]; intros _.
  - intros r c r' c' p p' Hp Hp' Hid.
    pose proof (cell_Some_onBoard _ _ _ _ (proj1 (proj1 (initial_settled seq))) Hp)
      as Hon.
    pose proof (cell_Some_onBoard _ _ _ _ (proj1 (proj1 (initial_settled seq))) Hp')
      as Hon'.
    apply initial_ids in Hp as [n Hn]. apply initial_ids in Hp' as [n' Hn'].
    apply (newPieceId_inj r c n r' c' n'); congruence.
  - pose proof (reachable_wfBoard st Hst) as Hwf. specialize (IH Hwf).
    revert Hs. unfold applySpell, deepCopyState.
    destruct (canCastSpell st ty); simpl; [|done]. destruct ty.
    + destruct (cell (board (cur st)) r c) as [p|] eqn:Hp; [|done].
      intros [= <- _].
      cbn [cur with_cur board set_board set_activeSpells set_spells].
      by apply (idsUnique_setCell_same _ r c p).
    + by intros [= <- _].
  - pose proof (reachable_wfBoard st Hst) as Hwf. specialize (IH Hwf).
    apply applyMove_Done_promotion in Hm
      as (Hv & m & b & mn & mp & Hcell & Hb & ->).
    apply isValidMove_moving in Hv as (m' & Hcell' & _ & _ & _ & Hne & _).
    assert (onBoard fr fc) as Hf by (by eapply cell_Some_onBoard).
    pose proof (idsUnique_movedBoard m _ (enPassantTarget (cur st)) fr fc tr tc
                  Hwf Ht Hcell IH) as Hmoved.
    pose proof (wfBoard_movedBoard m _ (enPassantTarget (cur st)) fr fc tr tc
                  Hwf) as Hwfm.
    apply Hfin; cbn [cur with_cur board set_board set_castlingRights].
    + destruct Hb as [->|(_ & _ & ->)]; [done | by apply wfBoard_setCell].
    + destruct Hb as [->|(_ & _ & ->)]; [done|].
      apply (idsUnique_setCell_same _ tr tc (set_hasMoved true m)); try done.
      by apply cell_movedBoard_target.
  - pose proof (reachable_wfBoard st Hst) as Hwf. specialize (IH Hwf).
    revert Hm. unfold applyMove, deepCopyState, _finalizeMove.
    destruct (isValidMoveIn _ _ _ _ _ _); cbn [negb]; [|done].
    destruct (cell (board (cur st)) fr fc) as [m|] eqn:Hcell; [|done].
    destruct (_ && _ && _); [|done].
    destruct (truthyOpt pp); [done|]. intros [= <- _].
    cbn [cur with_cur board set_board set_castlingRights
           set_awaitingPromotion].
    by apply idsUnique_movedBoard.
  - pose proof (reachable_wfBoard st Hst) as Hwf. specialize (IH Hwf).
    revert Hp. unfold applyPromotion, deepCopyState, _finalizeMove.
    destruct (awaitingPromotion (cur st)) as [promo|]; [|done].
    destruct (cell (board (cur st)) (ap_r promo) (ap_c promo)) as [p|]
      eqn:Hcell; [|done].
    intros [= <-].
    apply Hfin; cbn [cur with_cur board set_board set_awaitingPromotion].
    + by apply wfBoard_setCell.
    + by apply (idsUnique_setCell_same _ _ _ p).
  - apply IH. by apply reachable_wfBoard.
Qed.

Lemma piece_ids_stay_unique_witness :
  idsUnique (board (cur (played 0 frozenCastleGame))).
Proof.
  apply (piece_ids_stay_unique (played 0 frozenCastleGame)).
  apply played_reachable. vm_compute. reflexivity.
Defined.

(** ** The life of a spell *)

Lemma updateActiveSpells_loop_still ply spells b spell :
  spell ∈ (updateActiveSpells_loop ply spells b).2
  <-> spell ∈ spells /\ ply < expiresAtPly spell.
Proof.
  revert b. induction spells as [|s rest IH]; intros b; simpl.
  - split; [by inversion 1 | by intros [H _]; inversion H].
  - destruct (ply >=? expiresAtPly s) eqn:He.
    + rewrite IH. split.
      * intros [Hin Hlt]. split; [by apply list_elem_of_further | done].
      * intros [Hin Hlt]. split; [|done].
        apply elem_of_cons in Hin as [->|Hin]; [lia | done].
    + destruct (updateActiveSpells_loop ply rest b) as [b' still] eqn:Hl.
      cbn [snd]. specialize (IH b). rewrite Hl in IH. cbn [snd] in IH.
      rewrite !elem_of_cons, IH. split.
      * intros [->|[Hin Hlt]]; [split; [by left | lia] | by auto].
      * intros [[->|Hin] Hlt]; [by left | by right].
Qed.

Lemma finalizedState_spells ns mn mp fr tr fc tc sn spell :
  spell ∈ activeSpells (cur (finalizedState ns mn mp fr tr fc tc sn))
  <-> spell ∈ activeSpells (cur ns) /\ plyCount (cur ns) + 1 < expiresAtPly spell.
Proof.
  destruct (finalizedState_board ns mn mp fr tr fc tc sn) as (_ & -> & _).
  apply updateActiveSpells_loop_still.
Qed.

Lemma applyMove_spells st fr fc tr tc sn pp st' :
  applyMove st fr fc tr tc sn pp = MoveDone st' ->
  plyCount (cur st') = plyCount (cur st) + 1
  /\ forall spell,
      spell ∈ activeSpells (cur st')
      <-> spell ∈ activeSpells (cur st)
          /\ plyCount (cur st) + 1 < expiresAtPly spell.
Proof.
  intros H. apply applyMove_finalized in H as (ns & mn & mp & Hns & ->).
  destruct Hns as (_ & _ & Hply & Hact & _).
  destruct (finalizedState_board ns mn mp fr tr fc tc sn) as (_ & _ & ->).
  split; [by rewrite Hply|]. intros spell.
  by rewrite finalizedState_spells, Hact, Hply.
Qed.

Lemma applySpell_plyCount st ty r c st' n :
  applySpell st ty r c = SpellOk st' n ->
  plyCount (cur st') = plyCount (cur st).
Proof.
  unfold applySpell, deepCopyState.
  destruct (canCastSpell st ty); simpl; [|done]. destruct ty.
  - destruct (cell (board (cur st)) r c); [|done]. by intros [= <- <-].
  - by intros [= <- <-].
Qed.

Lemma applySpell_freeze st r c st' n :
  applySpell st freezeSpell r c = SpellOk st' n ->
  exists ids,
    activeSpells (cur st')
    = activeSpells (cur st)
      ++ [ActiveFreeze (mkSquare r c) ids (plyCount (cur st) + 2)].
Proof.
  unfold applySpell, deepCopyState.
  destruct (canCastSpell st freezeSpell); simpl; [|done].
  intros [= <- <-]. by eexists.
Qed.

Lemma frozen_source_is_blocked s r c :
  isSquareUnderActiveFreeze r c (activeSpells s) (plyCount s) = true ->
  blocked s r c.
Proof.
  intros Hz player toR toC. unfold isValidMoveIn.
  destruct (isValidMove r c toR toC _ _ _ _ _ _) eqn:Hv; [|done].
  apply isValidMove_moving in Hv as (m & _ & _ & _ & Hfree & _). congruence.
Qed.

(** X21: in every reachable state each active spell is still in force and
    expires at most two plies later: expired spells are removed when the
    move that reaches their ply is finalized.  Hence a square is under an
    active freeze exactly when it lies in the zone of a freeze of the
    list. *)
Theorem active_spells_are_live st :
  reachable st ->
  liveSpells (cur st)
  /\ forall r c,
      isSquareUnderActiveFreeze r c (activeSpells (cur st)) (plyCount (cur st))
      = true
      <-> exists target ids e,
          ActiveFreeze target ids e ∈ activeSpells (cur st)
          /\ inFreezeZone target r c.
Proof.
  intros Hst.
  assert (liveSpells (cur st)) as Hlive.
  { induction Hst using reachable_bookkeeping_ind.
    - by apply Forall_nil.
    - destruct H as (_ & _ & Hply & Hact & _). unfold liveSpells in *.
      by rewrite Hact, Hply.
    - unfold liveSpells in *.
      destruct (applySpell_activeSpells _ _ _ _ _ _ H) as (spell & -> & He).
      rewrite (applySpell_plyCount _ _ _ _ _ _ H).
      apply Forall_app. split; [done|]. apply Forall_singleton. lia.
    - unfold liveSpells in *. apply Forall_forall. intros spell Hin.
      apply finalizedState_spells in Hin as [Hin Hlt].
      destruct (finalizedState_board st mn mp fr tr fc tc sn) as (_ & _ & ->).
      rewrite Forall_forall in IHHst. specialize (IHHst spell Hin). lia.
    - done. }
  split; [done|]. intros r c. rewrite isSquareUnderActiveFreeze_true.
  split.
  - intros (t & ids & e & Hin & _ & Hz). by exists t, ids, e.
  - intros (t & ids & e & Hin & Hz). exists t, ids, e.
    split; [done|]. split; [|done].
    unfold liveSpells in Hlive. rewrite Forall_forall in Hlive.
    by destruct (Hlive _ Hin) as [Hlt _].
Qed.

Lemma active_spells_are_live_witness :
  liveSpells (cur (played 0 frozenCastleGame)).
Proof.
  apply (active_spells_are_live (played 0 frozenCastleGame)).
  apply played_reachable. vm_compute. reflexivity.
Defined.

(** X22: a freeze lasts two plies.  After a freeze is cast on [r],[c], no
    move from a square of its zone is accepted for the caster's own move,
    nor, once that move is played, for the opponent's reply, whether or
    not the opponent casts a spell first; when the reply is played the
    freeze is no longer active: every spell still active expires later. *)
Theorem freeze_lasts_two_plies st r c st0 n sr sc :
  applySpell st freezeSpell r c = SpellOk st0 n ->
  inFreezeZone (mkSquare r c) sr sc ->
  blocked (cur st0) sr sc
  /\ forall fr fc tr tc sn pp st1,
      applyMove st0 fr fc tr tc sn pp = MoveDone st1 ->
      blocked (cur st1) sr sc
      /\ forall st1',
          (st1' = st1
           \/ exists ty r' c' n', applySpell st1 ty r' c' = SpellOk st1' n') ->
          blocked (cur st1') sr sc
          /\ forall fr' fc' tr' tc' sn' pp' st2,
              applyMove st1' fr' fc' tr' tc' sn' pp' = MoveDone st2 ->
              forall spell,
                spell ∈ activeSpells (cur st2) ->
                plyCount (cur st) + 2 < expiresAtPly spell.
Proof.
  intros Hcast Hz.
  destruct (applySpell_freeze _ _ _ _ _ Hcast) as (ids & Hact0).
  pose proof (applySpell_plyCount _ _ _ _ _ _ Hcast) as Hply0.
  set (F := ActiveFreeze (mkSquare r c) ids (plyCount (cur st) + 2)) in *.
  assert (forall s, F ∈ activeSpells s -> plyCount s < plyCount (cur st) + 2 ->
                    blocked s sr sc) as Hblocked.
  { intros s Hin Hlt. apply frozen_source_is_blocked.
    apply isSquareUnderActiveFreeze_true.
    by exists (mkSquare r c), ids, (plyCount (cur st) + 2). }
  assert (F ∈ activeSpells (cur st0)) as Hin0.
  { rewrite Hact0. apply elem_of_app. right. by apply list_elem_of_here. }
  split; [apply Hblocked; [done | lia]|].
  intros fr fc tr tc sn pp st1 Hm1.
  destruct (applyMove_spells _ _ _ _ _ _ _ _ Hm1) as [Hply1 Hact1].
  assert (F ∈ activeSpells (cur st1)) as Hin1.
  { apply Hact1. split; [done|]. subst F. cbn [expiresAtPly]. lia. }
  split; [apply Hblocked; [done | lia]|].
  intros st1' Hst1'.
  assert (F ∈ activeSpells (cur st1')
          /\ plyCount (cur st1') = plyCount (cur st) + 1) as [Hin1' Hply1'].
  { destruct Hst1' as [->|(ty & r' & c' & n' & Hs)]; [split; [done | lia]|].
    destruct (applySpell_activeSpells _ _ _ _ _ _ Hs) as (spell & -> & _).
    rewrite (applySpell_plyCount _ _ _ _ _ _ Hs).
    split; [|lia]. apply elem_of_app. by left. }
  split; [apply Hblocked; [done | lia]|].
  intros fr' fc' tr' tc' sn' pp' st2 Hm2 spell Hin2.
  destruct (applyMove_spells _ _ _ _ _ _ _ _ Hm2) as [_ Hact2].
  apply Hact2 in Hin2 as [_ Hlt]. lia.
Qed.

Lemma freeze_lasts_two_plies_witness :
  let st := createInitialGameState 0 in
  isSpellError (applySpell st freezeSpell 6 4) = false
  /\ match applySpell st freezeSpell 6 4 with
     | SpellOk st0 _ => blocked (cur st0) 6 4
     | SpellError _ => True
     end.
Proof.
  intros st.
  assert (isSpellError (applySpell st freezeSpell 6 4) = false) as Hok
    by (vm_compute; reflexivity).
  split; [exact Hok|].
  revert Hok. generalize st. clear st. intros st Hok.
  destruct (applySpell st freezeSpell 6 4) as [st0 n|] eqn:Hcast; [|done].
  apply (freeze_lasts_two_plies st 6 4 st0 n 6 4 Hcast).
  unfold inFreezeZone. cbn. lia.
Defined.

(** ** Casting from the panel *)

(** X23: the panel opens the targeting mode only for a spell that the
    engine will cast.  When [onCastSpell] sets a spell mode, it is the
    spell asked for and the caster is the player to move, who is the user
    unless the user is the moderator; the game is not over, no promotion
    and no earlier spell of this turn is pending; and [applySpell] then
    succeeds on every square for a freeze and on every occupied square for
    a jump. *)
Theorem targeting_mode_means_castable
    playerColor gs pending mode caster ty mode' caster' msg :
  onCastSpell playerColor gs pending mode caster ty
  = CastUi (Some mode') caster' msg ->
  mode' = ty
  /\ caster' = Some (currentPlayer (cur gs))
  /\ (playerColor = asModerator
      \/ isPlayer playerColor (currentPlayer (cur gs)) = true)
  /\ isGameOver (cur gs) = false
  /\ awaitingPromotion (cur gs) = None
  /\ truthyOpt pending = false
  /\ forall r c,
      isSpellError (applySpell gs ty r c)
      = match ty with
        | jumpSpell => negb (isSome (cell (board (cur gs)) r c))
        | freezeSpell => false
        end.
Proof.
  unfold onCastSpell. cbv zeta. intros H.
  assert (playerColor = asModerator
          \/ isPlayer playerColor (currentPlayer (cur gs)) = true) as Hpc.
  { destruct playerColor; [| |by left];
      destruct (isPlayer _ _); try discriminate H; by right. }
  assert (match playerColor with
          | asModerator => false
          | _ => negb (isPlayer playerColor (currentPlayer (cur gs)))
          end = false) as Hturn.
  { destruct Hpc as [->|Hpc]; [done|]. rewrite Hpc. by destruct playerColor. }
  rewrite Hturn in H.
  destruct (isGameOver (cur gs)) eqn:Hover; [done|].
  destruct (awaitingPromotion (cur gs)) eqn:Hap; [done|]. cbn in H.
  destruct (truthyOpt pending) eqn:Hpend; [done|].
  destruct (canCastSpell gs ty) eqn:Hcan; [|done]. cbn in H.
  destruct (match mode with Some _ => _ | None => _ end); [done|].
  injection H as <- <- <-. repeat split; try done.
  intros r c. by rewrite applySpell_error, Hcan.
Qed.

Lemma targeting_mode_means_castable_witness :
  isSpellError (applySpell (createInitialGameState 0) freezeSpell 4 4) = false.
Proof.
  assert (onCastSpell asWhite (createInitialGameState 0) None None None
            freezeSpell
          = CastUi (Some freezeSpell) (Some white)
              (Some "Freeze spell active. Click a square to freeze the area."))
    as H by (vm_compute; reflexivity).
  revert H. generalize (createInitialGameState 0). intros gs H.
  destruct (targeting_mode_means_castable _ _ _ _ _ _ _ _ _ H)
    as (_ & _ & _ & _ & _ & _ & Hcast).
  apply (Hcast 4 4).
Defined.
